(** * Motion statistics of particle trajectories (mr/core/motion.py)

    A shallow embedding of the trajectory statistics of [mr.core.motion]:
    frame reindexing, displacements, single-probe and ensemble mean squared
    displacement, the two-point correlator, drift subtraction, the
    displacements between two frames and the classification helpers, with
    the properties of the written specification stated and settled against
    them, followed by further properties of the same functions.

    Numbers.  The program computes with double precision floats through
    numpy and pandas.  The embedding idealises a finite float as an exact
    number and keeps one marker for "not a finite number" (NaN, which pandas
    also uses for a missing entry): a cell is an [option].  Rational
    arithmetic ([Q]) is used where the program only adds, subtracts,
    multiplies and divides, so that those definitions evaluate; the
    functions that take square roots or angles are embedded over the reals
    ([R]).

    Pandas.  Where the result of a pandas call differs between the versions
    the module runs under, the embedding takes the behaviour as a parameter
    (the class [pandas]) and the statements are proved for every value of
    it; the examples name the instance they are evaluated under. *)

From Stdlib Require Import ZArith QArith Reals Lia Lqa Lra List Bool String
  Permutation Sorted FinFun.
From stdpp Require Import gmap.
Import ListNotations.

(** * Outcomes of a call: a value, or the exception that was raised *)

Inductive error : Type :=
| IndexError          (* position 0 or -1 of an empty index *)
| ReindexError        (* reindexing a frame whose index has repeated labels *)
| ConcatError         (* pd.concat of an empty list of objects *)
| ValueError          (* the maximum of an empty array *)
| NameError (name : string)   (* a name that is bound nowhere *)
| AssertionError (msg : string).

Inductive result (A : Type) : Type :=
| Ok (a : A)
| Raise (e : error).
Arguments Ok {A} a.
Arguments Raise {A} e.

Definition rbind {A B} (c : result A) (k : A -> result B) : result B :=
  match c with
  | Ok a => k a
  | Raise e => Raise e
  end.

Notation "'let*' x ':=' c 'in' k" := (rbind c (fun x => k))
  (at level 10, x name, c at level 100, k at level 200).

Fixpoint mapM {A B} (f : A -> result B) (l : list A) : result (list B) :=
  match l with
  | [] => Ok []
  | a :: l' =>
      let* b := f a in
      let* bs := mapM f l' in
      Ok (b :: bs)
  end.

(** * Tables *)

(** A trajectory table: one record per observation, with the label of the
    record in the table's index and the columns [probe], [frame], [x], [y].
    The positions of a trajectory table are numbers. *)
Record row (num : Type) : Type := Row {
  idx : Z;
  probe : Z;
  frame : Z;
  x : num;
  y : num
}.
Arguments Row {num} idx probe frame x y.
Arguments idx {num} r.
Arguments probe {num} r.
Arguments frame {num} r.
Arguments x {num} r.
Arguments y {num} r.

Definition table (num : Type) : Type := list (row num).

(** [traj.set_index('frame', drop=False)]: the index becomes the frame
    column, which stays a column. *)
Definition set_index_frame {num} (t : table num) : table num :=
  map (fun r => Row (frame r) (probe r) (frame r) (x r) (y r)) t.

(** Ascending list of the distinct keys, as [groupby] orders its groups. *)
Fixpoint zinsert (k : Z) (l : list Z) : list Z :=
  match l with
  | [] => [k]
  | h :: t =>
      if (k <? h)%Z then k :: l
      else if (k =? h)%Z then l
      else h :: zinsert k t
  end.

Definition sorted_unique (l : list Z) : list Z := fold_right zinsert [] l.

(** [traj.groupby('probe')]: the probe ids in ascending order, each with
    its records in the order of the table. *)
Definition groupby_probe {num} (t : table num) : list (Z * table num) :=
  map (fun p => (p, List.filter (fun r => (probe r =? p)%Z) t))
      (sorted_unique (map probe t)).

(** A frame of values with an integer index: labelled rows, in order. *)
Definition indexed (A : Type) : Type := list (Z * A).

Definition labels {A} (s : indexed A) : list Z := map fst s.

(** [np.arange(a, b)] on integers. *)
Definition arange (a b : Z) : list Z :=
  map (fun i => (a + Z.of_nat i)%Z) (seq 0 (Z.to_nat (b - a))).

Fixpoint lookup_label {A} (f : Z) (s : indexed A) : option A :=
  match s with
  | [] => None
  | (g, v) :: s' => if (f =? g)%Z then Some v else lookup_label f s'
  end.

Fixpoint unique_labels (l : list Z) : bool :=
  match l with
  | [] => true
  | h :: t => negb (existsb (Z.eqb h) t) && unique_labels t
  end.

(** [s.reindex(new_labels)]: the rows of [s] at the new labels, a row of
    missing values at a label [s] does not have.  pandas refuses to reindex
    a frame whose own index has repeated labels. *)
Definition reindex {A} (fill : A) (s : indexed A) (new_labels : list Z)
  : result (indexed A) :=
  if unique_labels (labels s)
  then Ok (map (fun f => (f, match lookup_label f s with
                             | Some v => v
                             | None => fill
                             end)) new_labels)
  else Raise ReindexError.

(** The frame reindexing step,
    [pos.reindex(np.arange(pos.index[0], 1 + pos.index[-1]))]. *)
Definition densify {A} (fill : A) (pos : indexed A) : result (indexed A) :=
  match pos with
  | [] => Raise IndexError
  | (f0, v0) :: _ => reindex fill pos (arange f0 (1 + fst (List.last pos (f0, v0))))
  end.

(** [s.shift(lt)]: the labels stay, the values move down by [lt] rows (up
    for a negative [lt]); rows without a source are missing. *)
Definition shift {A} (fill : A) (lt : Z) (s : indexed A) : indexed A :=
  map (fun i => (fst (nth i s (0%Z, fill)),
                 let j := (Z.of_nat i - lt)%Z in
                 if (0 <=? j)%Z then snd (nth (Z.to_nat j) s (0%Z, fill)) else fill))
      (seq 0 (length s)).

(** Row by row combination of two frames over the same index. *)
Fixpoint zip_rows {A B C} (f : A -> B -> C) (a : indexed A) (b : indexed B)
  : indexed C :=
  match a, b with
  | (l, u) :: a', (_, v) :: b' => (l, f u v) :: zip_rows f a' b'
  | _, _ => []
  end.

(** * Cells over the rationals *)

Local Open Scope Q_scope.

Definition cell : Type := option Q.

Definition clift2 (f : Q -> Q -> Q) (a b : cell) : cell :=
  match a, b with
  | Some u, Some v => Some (f u v)
  | _, _ => None
  end.

Definition csub : cell -> cell -> cell := clift2 Qminus.
Definition cmul : cell -> cell -> cell := clift2 Qmult.
Definition cscale (k : Q) (a : cell) : cell := option_map (Qmult k) a.

(** Float division: a zero divisor gives an infinity or NaN, never a finite
    number. *)
Definition cdiv (a b : cell) : cell :=
  match a, b with
  | Some u, Some v => if Qeq_bool v 0 then None else Some (u / v)
  | _, _ => None
  end.

Definition somes (l : list cell) : list Q :=
  flat_map (fun c => match c with Some v => [v] | None => [] end) l.

Definition qsum (l : list Q) : Q := fold_right Qplus 0 l.

(** [count]: the number of entries that are not missing. *)
Definition count (l : list cell) : nat := length (somes l).

(** [mean] skips missing entries and is missing when nothing is left. *)
Definition mean_skipna (l : list cell) : cell :=
  match somes l with
  | [] => None
  | vs => Some (qsum vs / inject_Z (Z.of_nat (length vs)))
  end.

(** What [sum] returns for a row whose entries are all missing depends on
    the pandas that runs the module, and on whether bottleneck is installed
    beside it: a missing value under some, 0 under others.  Line 68 of [msd]
    takes such a sum, and what [msd], [imsd] and [emsd] return depends on it.
    The embedding takes the answer of the pandas in use as a parameter, and
    the statements about these functions hold for either answer. *)
Class pandas : Type := Pandas {
  sum_of_nothing_is_zero : bool
}.

Definition sums_nothing_to_nan : pandas := Pandas false.
Definition sums_nothing_to_zero : pandas := Pandas true.

(** [sum] skips missing entries. *)
Definition sum_skipna {pd : pandas} (l : list cell) : cell :=
  match somes l with
  | [] => if sum_of_nothing_is_zero then Some 0 else None
  | vs => Some (qsum vs)
  end.

(** * Single-trajectory MSD ([msd], lines 28-73) *)

Definition nan2 : cell * cell := (None, None).

(** [traj[['x', 'y']]], under the index of the table. *)
Definition pos_of (traj : table Q) : indexed (cell * cell) :=
  map (fun r => (idx r, (Some (x r), Some (y r)))) traj.

Definition psub (a b : cell * cell) : cell * cell :=
  (csub (fst a) (fst b), csub (snd a) (snd b)).

(** [pos.sub(pos.shift(lt))] *)
Definition displacement (pos : indexed (cell * cell)) (lt : Z)
  : indexed (cell * cell) :=
  zip_rows psub pos (shift nan2 lt pos).

Definition xs_of (d : indexed (cell * cell)) : list cell :=
  map (fun r => fst (snd r)) d.
Definition ys_of (d : indexed (cell * cell)) : list cell :=
  map (fun r => snd (snd r)) d.
Definition squares (l : list cell) : list cell := map (fun c => cmul c c) l.

(** [max_lagtime = min(max_lagtime, len(t))] and
    [lagtimes = 1 + np.arange(max_lagtime)]. *)
Definition clamp_lagtime (traj : table Q) (max_lagtime : Z) : Z :=
  Z.min max_lagtime (Z.of_nat (length traj)).

Definition lagtimes (traj : table Q) (max_lagtime : Z) : list Z :=
  map (fun i => (1 + i)%Z) (arange 0 (clamp_lagtime traj max_lagtime)).

Record msd_row : Type := MsdRow {
  lag : Z;                 (* the index: the lag in frames *)
  mean_x : cell;           (* <x> *)
  mean_y : cell;           (* <y> *)
  mean_x2 : cell;          (* <x^2> *)
  mean_y2 : cell;          (* <y^2> *)
  msd_col : cell;          (* msd *)
  N : option cell;         (* the column N, present when detail is set *)
  lagt : cell              (* lag time in seconds *)
}.

(** [Series(lagtimes)]: the lags under the default index 0, 1, 2, ... *)
Definition lagtimes_series (lts : list Z) : indexed Z :=
  combine (arange 0 (Z.of_nat (length lts))) lts.

(** The row of one lag.  The count of the lag is divided by the entry of
    [Series(lagtimes)] that carries the same label: [div] aligns its two
    series on their labels, and the label [lt] of [Series(lagtimes)] holds
    the lag [lt + 1]; the last lag finds no partner. *)
Definition msd_row_at {pd : pandas} (pos : indexed (cell * cell)) (mpp fps : Q)
    (lts : list Z) (detail : bool) (lt : Z) : msd_row :=
  let d := displacement pos lt in
  let mx2 := mean_skipna (squares (xs_of d)) in
  let my2 := mean_skipna (squares (ys_of d)) in
  {| lag := lt;
     mean_x := cscale mpp (mean_skipna (xs_of d));
     mean_y := cscale mpp (mean_skipna (ys_of d));
     mean_x2 := cscale (mpp * mpp) mx2;
     mean_y2 := cscale (mpp * mpp) my2;
     msd_col := cscale (mpp * mpp) (sum_skipna [mx2; my2]);
     N := if detail
          then Some (cscale 2
                 (cdiv (Some (inject_Z (Z.of_nat (count (xs_of d)))))
                       (option_map inject_Z
                          (lookup_label lt (lagtimes_series lts)))))
          else None;
     lagt := cdiv (Some (inject_Z lt)) (Some fps) |}.

(** [msd(traj, mpp, fps, max_lagtime, detail)].  The rows of the result are
    the groups of the concatenated displacement tables, one per lag that
    has rows; the last row is cut off by [results[:-1]]. *)
Definition msd {pd : pandas} (traj : table Q) (mpp fps : Q) (max_lagtime : Z)
    (detail : bool) : result (list msd_row) :=
  let* pos := densify nan2 (pos_of traj) in
  let lts := lagtimes traj max_lagtime in
  match lts with
  | [] => Raise ConcatError
  | _ =>
      let results :=
        match pos with
        | [] => []
        | _ => map (msd_row_at pos mpp fps lts detail) lts
        end in
      Ok (removelast results)
  end.

(** * Per-probe and ensemble MSD ([imsd], [emsd], lines 75-150) *)

(** The loop shared by [imsd] and [emsd]: [msd] of every group of
    [traj.groupby('probe')], in the order of the probe ids. *)
Definition probe_msds {pd : pandas} (traj : table Q) (mpp fps : Q) (max_lagtime : Z)
    (detail : bool) : result (list (Z * list msd_row)) :=
  mapM (fun g => let* m := msd (snd g) mpp fps max_lagtime detail in
                 Ok (fst g, m))
       (groupby_probe traj).

Inductive statistic : Type :=
| stat_msd | stat_x | stat_y | stat_x2 | stat_y2.

Definition stat_of (s : statistic) (r : msd_row) : cell :=
  match s with
  | stat_msd => msd_col r
  | stat_x => mean_x r
  | stat_y => mean_y r
  | stat_x2 => mean_x2 r
  | stat_y2 => mean_y2 r
  end.

(** The lags that index the concatenated per-probe tables, ascending. *)
Definition all_lags (per : list (Z * list msd_row)) : list Z :=
  sorted_unique (flat_map (fun g => map lag (snd g)) per).

Definition row_at (l : Z) (rows : list msd_row) : option msd_row :=
  find (fun r => (lag r =? l)%Z) rows.

(** The table [imsd] returns: the probe ids that head its columns and, per
    lag, the lag time and the chosen statistic of every probe. *)
Record imsd_table : Type := ImsdTable {
  imsd_probes : list Z;
  imsd_rows : list (cell * list cell)
}.

(** The probes that get a column from [unstack()] (line 106): those whose
    label carries a row of the concatenated table.  A probe whose table has
    no row is not among them. *)
Definition with_rows (per : list (Z * list msd_row))
  : list (Z * list msd_row) :=
  List.filter (fun g => match snd g with [] => false | _ => true end) per.

(** [imsd(traj, mpp, fps, max_lagtime, statistic)].  The first component is
    the caller's table after the call: line 98 sets its index in place. *)
Definition imsd {pd : pandas} (traj : table Q) (mpp fps : Q) (max_lagtime : Z)
    (stat : statistic) : table Q * result imsd_table :=
  let traj := set_index_frame traj in
  (traj,
   let* per := probe_msds traj mpp fps max_lagtime false in
   match per with
   | [] => Raise ConcatError
   | _ =>
       let columns := with_rows per in
       Ok {| imsd_probes := map fst columns;
             imsd_rows :=
               map (fun l =>
                      (cdiv (Some (inject_Z l)) (Some fps),
                       map (fun g => match row_at l (snd g) with
                                     | Some r => stat_of stat r
                                     | None => None
                                     end) columns))
                   (all_lags per) |}
   end).

(** The column [N] of a row of [msd(..., detail=True)]. *)
Definition N_of (r : msd_row) : cell :=
  match N r with
  | Some c => c
  | None => None
  end.

(** The rows of all probes at one lag: one group of [mean(level=1)]. *)
Definition rows_at (l : Z) (per : list (Z * list msd_row)) : list msd_row :=
  flat_map (fun g => List.filter (fun r => (lag r =? l)%Z) (snd g)) per.

(** Lines 142-143 for one column and one lag:
    [msds.mul(msds['N'], axis=0).mean(level=1)] divided by
    [msds['N'].mean(level=1)]. *)
Definition weighted (col : msd_row -> cell) (rows : list msd_row) : cell :=
  cdiv (mean_skipna (map (fun r => cmul (col r) (N_of r)) rows))
       (mean_skipna (map N_of rows)).

Record emsd_row : Type := EmsdRow {
  e_lagt : cell;           (* the index, 'lag time [s]' *)
  e_mean_x : cell;
  e_mean_y : cell;
  e_mean_x2 : cell;
  e_mean_y2 : cell;
  e_msd : cell;
  e_N : cell
}.

Definition emsd_row_at (per : list (Z * list msd_row)) (l : Z) : emsd_row :=
  let rows := rows_at l per in
  {| e_lagt := weighted lagt rows;
     e_mean_x := weighted mean_x rows;
     e_mean_y := weighted mean_y rows;
     e_mean_x2 := weighted mean_x2 rows;
     e_mean_y2 := weighted mean_y2 rows;
     e_msd := weighted msd_col rows;
     e_N := weighted N_of rows |}.

Inductive emsd_out : Type :=
| EmsdSeries (s : list (cell * cell))     (* msd, indexed by lag time *)
| EmsdFrame (rows : list emsd_row).

(** [emsd(traj, mpp, fps, max_lagtime, detail)], with the caller's table
    after the call as first component (line 135). *)
Definition emsd {pd : pandas} (traj : table Q) (mpp fps : Q) (max_lagtime : Z)
    (detail : bool) : table Q * result emsd_out :=
  let traj := set_index_frame traj in
  (traj,
   let* per := probe_msds traj mpp fps max_lagtime true in
   match per with
   | [] => Raise ConcatError
   | _ =>
       let results := map (emsd_row_at per) (all_lags per) in
       if detail then Ok (EmsdFrame results)
       else Ok (EmsdSeries (map (fun r => (e_lagt r, e_msd r)) results))
   end).

(** * Drift ([compute_drift], [subtract_drift], lines 243-295) *)

(** [t.set_index('frame', drop=False).diff()] for the records of one probe,
    reduced to what the next lines use: the label (the frame of the later
    record), the difference of the frame numbers and of the positions.  The
    first record has no predecessor and its differences are missing, so
    line 270 drops it. *)
Fixpoint diff_rows (t : table Q) : list (Z * (Z * (Q * Q))) :=
  match t with
  | a :: ((b :: _) as t') =>
      (frame b, ((frame b - frame a)%Z, (x b - x a, y b - y a)))
        :: diff_rows t'
  | _ => []
  end.

(** Lines 267-273: the deltas between consecutive frames, averaged over
    the probes frame by frame, frames ascending. *)
Definition frame_deltas (traj : table Q) : indexed (Q * Q) :=
  let delta :=
    List.filter (fun d => (fst (snd d) =? 1)%Z)
                (flat_map (fun g => diff_rows (snd g)) (groupby_probe traj)) in
  map (fun f =>
         let ds := List.filter (fun d => (fst d =? f)%Z) delta in
         let n := inject_Z (Z.of_nat (length ds)) in
         (f, (qsum (map (fun d => fst (snd (snd d))) ds) / n,
              qsum (map (fun d => snd (snd (snd d))) ds) / n)))
      (sorted_unique (map fst delta)).

(** [pd.rolling_mean(dx, smoothing, min_periods=0)]: the mean of the
    window of [smoothing] rows that ends at each row, shorter at the start. *)
Definition rolling_mean (w : nat) (l : list Q) : list Q :=
  map (fun i =>
         let win := firstn (S i - (S i - w)) (skipn (S i - w) l) in
         qsum win / inject_Z (Z.of_nat (length win)))
      (seq 0 (length l)).

Fixpoint cumsum_from (acc : Q) (l : list Q) : list Q :=
  match l with
  | [] => []
  | v :: l' => (acc + v) :: cumsum_from (acc + v) l'
  end.

(** [compute_drift(traj, smoothing)]: the drift curve, indexed by frame. *)
Definition compute_drift (traj : table Q) (smoothing : Z)
  : result (indexed (Q * Q)) :=
  match traj with
  | [] => Raise ConcatError
  | _ =>
      let dx := frame_deltas traj in
      let smooth :=
        if (0 <? smoothing)%Z then rolling_mean (Z.to_nat smoothing)
        else fun l => l in
      let cx := cumsum_from 0 (smooth (map (fun d => fst (snd d)) dx)) in
      let cy := cumsum_from 0 (smooth (map (fun d => snd (snd d)) dx)) in
      Ok (combine (labels dx) (combine cx cy))
  end.

(** A drift curve handed to [subtract_drift]: the columns [x] and [y],
    indexed by frame, one row per frame, the frames in ascending order as
    [compute_drift] returns them. *)
Definition drift_curve : Type := gmap Z (cell * cell).

Definition curve_of (d : indexed (Q * Q)) : drift_curve :=
  list_to_map (map (fun r => (fst r, (Some (fst (snd r)), Some (snd (snd r))))) d).

(** One cell of [a.sub(b, fill_value=0)]: an entry missing on one side
    only counts as 0; missing on both sides, the result is missing. *)
Definition sub_fill (a b : cell) : cell :=
  match a, b with
  | None, None => None
  | _, _ => Some (default 0 a - default 0 b)
  end.

(** A row of the table [subtract_drift] returns.  Its columns are numeric
    cells: the subtraction runs over all columns of the aligned tables. *)
Record drift_row : Type := DriftRow {
  d_idx : Z;
  d_probe : cell;
  d_frame : cell;
  d_x : cell;
  d_y : cell
}.

(** The rows of the result at frame label [f]: every record of the
    trajectory at that frame minus the drift of the frame; at a frame only
    the drift curve has, one row without a record behind it. *)
Definition sub_rows_at (traj : table Q) (drift : drift_curve) (f : Z)
  : list drift_row :=
  let dxy := default nan2 (drift !! f) in
  match List.filter (fun r => (frame r =? f)%Z) traj with
  | [] => [ {| d_idx := f;
               d_probe := sub_fill None None;
               d_frame := sub_fill None None;
               d_x := sub_fill None (fst dxy);
               d_y := sub_fill None (snd dxy) |} ]
  | rs => map (fun r =>
                 {| d_idx := f;
                    d_probe := sub_fill (Some (inject_Z (probe r))) None;
                    d_frame := sub_fill (Some (inject_Z (frame r))) None;
                    d_x := sub_fill (Some (x r)) (fst dxy);
                    d_y := sub_fill (Some (y r)) (snd dxy) |}) rs
  end.

(** [traj.set_index('frame', drop=False).sub(drift, fill_value=0)]: the two
    tables are aligned on the union of their columns and on the union of
    their frame labels.  Against a drift curve without rows the index of the
    trajectory is taken as it is, and its records keep their order.
    Otherwise the labels come in ascending order, a frame of the trajectory
    keeping all its records in the order they had. *)
Definition sub_drift (traj : table Q) (drift : drift_curve)
  : list drift_row :=
  match map_to_list drift with
  | [] => flat_map (fun r => sub_rows_at [r] drift (frame r)) traj
  | _ => flat_map (sub_rows_at traj drift)
           (sorted_unique (map frame traj ++ map fst (map_to_list drift)))
  end.

(** [subtract_drift(traj, drift)] (lines 293-295). *)
Definition subtract_drift (traj : table Q) (drift : option drift_curve)
  : result (list drift_row) :=
  let* drift :=
    match drift with
    | Some d => Ok d
    | None => let* d := compute_drift traj 0 in Ok (curve_of d)
    end in
  Ok (sub_drift traj drift).

(** * van Hove displacements ([vanhove], lines 357-361) *)

(** The positions handed to [vanhove]: one column per probe, indexed by
    frame; every row has one cell per column. *)
Record positions : Type := Positions {
  columns : list Z;
  prows : indexed (list cell)
}.

(** [assert cond, msg]: the message is evaluated when the condition
    fails, and only then. *)
Definition py_assert (cond : bool) (msg : result string) : result unit :=
  if cond then Ok tt
  else let* m := msg in Raise (AssertionError m).

(** The message expression of line 360,
    ["There is a no data out to frame %s. " % frame]: the name [frame] is
    bound neither in [vanhove] nor in the module. *)
Definition vanhove_message : result string := Raise (NameError "frame").

Fixpoint zmaximum (l : list Z) : result Z :=
  match l with
  | [] => Raise ValueError
  | [a] => Ok a
  | a :: l' => let* m := zmaximum l' in Ok (Z.max a m)
  end.

(** Lines 357-361 of [vanhove]: the densified positions, the guard on the
    lag and the scaled displacements that are histogrammed afterwards. *)
Definition vanhove_disp (pos : positions) (lagtime : Z) (mpp : Q)
  : result (indexed (list cell)) :=
  let fill := map (fun _ => None) (columns pos) in
  let* dense := densify fill (prows pos) in
  let* top := zmaximum (labels dense) in
  let* _ := py_assert (lagtime <=? top)%Z vanhove_message in
  Ok (zip_rows (fun a b => map (cscale mpp) (zip_with csub a b))
               dense (shift fill lagtime dense)).

Local Close Scope Q_scope.

(** * Cells over the reals *)

Local Open Scope R_scope.

Definition rcell : Type := option R.

Definition rlift2 (f : R -> R -> R) (a b : rcell) : rcell :=
  match a, b with
  | Some u, Some v => Some (f u v)
  | _, _ => None
  end.

Definition radd : rcell -> rcell -> rcell := rlift2 Rplus.
Definition rsub : rcell -> rcell -> rcell := rlift2 Rminus.
Definition rmul : rcell -> rcell -> rcell := rlift2 Rmult.
Definition ropp (a : rcell) : rcell := option_map Ropp a.

(** Float division: a zero divisor gives an infinity or NaN, never a finite
    number. *)
Definition rdiv (a b : rcell) : rcell :=
  match a, b with
  | Some u, Some v => if Req_EM_T v 0 then None else Some (u / v)
  | _, _ => None
  end.

(** [np.sqrt]; its argument is a sum of two squares here. *)
Definition rsqrt (a : rcell) : rcell := option_map sqrt a.

(** * Two-point correlator ([_tp_corr], [tp_corr], lines 181-241) *)

(** The four columns a probe contributes to [dr]. *)
Record pcols : Type := PCols {
  px : rcell;
  py : rcell;
  pdx : rcell;
  pdy : rcell
}.

Definition rnan2 : rcell * rcell := (None, None).
Definition pnan : pcols := PCols None None None None.

Definition rpos_of (traj : table R) : indexed (rcell * rcell) :=
  map (fun r => (idx r, (Some (x r), Some (y r)))) traj.

Definition rpsub (a b : rcell * rcell) : rcell * rcell :=
  (rsub (fst a) (fst b), rsub (snd a) (snd b)).

(** Lines 217-220: the densified positions of one probe with the
    displacement columns [dx], [dy] at the lag. *)
Definition probe_cols (ptraj : table R) (lagframe : Z)
  : result (indexed pcols) :=
  let* pos := densify rnan2 (rpos_of ptraj) in
  Ok (zip_rows (fun p d => PCols (fst p) (snd p) (fst d) (snd d))
               pos
               (zip_rows rpsub pos (shift rnan2 lagframe pos))).

(** The body of the loop over pairs (lines 228-233) at one frame: the
    separation [R] and the correlations [para] and [perp]. *)
Definition tp_pair (a b : pcols) : rcell * (rcell * rcell) :=
  let R_x := rsub (px a) (px b) in
  let R_y := rsub (py a) (py b) in
  let R := rsqrt (radd (rmul R_x R_x) (rmul R_y R_y)) in
  let n_x := rdiv R_x R in
  let n_y := rdiv R_y R in
  let para := rmul (radd (rmul (pdx a) n_x) (rmul (pdy a) n_y))
                   (radd (rmul (pdx b) n_x) (rmul (pdy b) n_y)) in
  let p_x := n_y in
  let p_y := ropp n_x in
  let perp := rmul (radd (rmul (pdx a) p_x) (rmul (pdy a) p_y))
                   (radd (rmul (pdx b) p_x) (rmul (pdy b) p_y)) in
  (R, (para, perp)).

(** A row of the correlation table: [R], [para], [perp]. *)
Record tp_row : Type := TpRow {
  tp_R : R;
  tp_para : R;
  tp_perp : R
}.

(** [DataFrame({'R': R, 'para': para, 'perp': perp}).dropna()] for one
    frame: the row, unless one of its entries is missing. *)
Definition dropna_row (f : Z) (c : rcell * (rcell * rcell))
  : list (Z * tp_row) :=
  match c with
  | (Some r, (Some pa, Some pe)) => [(f, TpRow r pa pe)]
  | _ => []
  end.

(** The columns of probe [p] in [dr] at frame [f]; missing where the
    densified series of the probe has no such frame. *)
Definition dr_at (dr : list (Z * indexed pcols)) (p f : Z) : pcols :=
  match lookup_label p dr with
  | Some s => default pnan (lookup_label f s)
  | None => pnan
  end.

(** The rows one pair of probes contributes (lines 228-234), over the
    index of [dr]: the frames of all densified series, ascending. *)
Definition pair_rows (dr : list (Z * indexed pcols)) (p1 p2 : Z)
  : list (Z * tp_row) :=
  flat_map (fun f => dropna_row f (tp_pair (dr_at dr p1 f) (dr_at dr p2 f)))
           (sorted_unique (flat_map (fun g => labels (snd g)) dr)).

(** Lines 213-222: the table [dr], probe by probe in the order of the
    probe ids. *)
Definition tp_dr (traj : table R) (lagframe : Z)
  : result (list (Z * indexed pcols)) :=
  let* dr := mapM (fun g => let* c := probe_cols (snd g) lagframe in
                            Ok (fst g, c))
                  (groupby_probe traj) in
  match dr with
  | [] => Raise ConcatError
  | _ => Ok dr
  end.

(** [_tp_corr(traj, lagframe, bins=False)]: the unbinned rows, under their
    frame labels, with the caller's table after the call as first
    component (line 212). *)
Definition _tp_corr (traj : table R) (lagframe : Z)
  : table R * result (list (Z * tp_row)) :=
  let traj := set_index_frame traj in
  (traj,
   let* dr := tp_dr traj lagframe in
   let probe_ids := sorted_unique (map probe traj) in
   let D := flat_map
              (fun p1 => map (pair_rows dr p1)
                             (List.filter (fun p2 => (p1 <? p2)%Z) probe_ids))
              probe_ids in
   match D with
   | [] => Raise ConcatError
   | _ => Ok (concat D)
   end).

(** The list comprehension of line 205: one call of [_tp_corr] per lag,
    each on the table the previous call left. *)
Fixpoint tp_corr_loop (traj : table R) (lagframes : list Z)
  : table R * result (list (list (Z * tp_row))) :=
  match lagframes with
  | [] => (traj, Ok [])
  | lf :: rest =>
      match _tp_corr traj lf with
      | (traj, Raise e) => (traj, Raise e)
      | (traj, Ok d) =>
          match tp_corr_loop traj rest with
          | (traj, Raise e) => (traj, Raise e)
          | (traj, Ok ds) => (traj, Ok (d :: ds))
          end
      end
  end.

(** [tp_corr(traj, mpp, fps, lagframes, bins=False)].  The concatenation
    ignores the index ([ignore_index=True]), and with it the lag times
    computed from [fps]; line 207 multiplies the table by [mpp]. *)
Definition tp_corr (traj : table R) (mpp fps : R) (lagframes : list Z)
  : table R * result (list tp_row) :=
  match tp_corr_loop traj lagframes with
  | (traj, Raise e) => (traj, Raise e)
  | (traj, Ok []) => (traj, Raise ConcatError)
  | (traj, Ok ds) =>
      (traj,
       Ok (map (fun r => TpRow (tp_R r * mpp) (tp_para r * mpp) (tp_perp r * mpp))
               (map snd (concat ds))))
  end.

(** * Dirt ([is_not_dirt], lines 375-402) *)

Definition rmaximum (v : R) (l : list R) : R := fold_left Rmax l v.
Definition rminimum (v : R) (l : list R) : R := fold_left Rmin l v.

(** The diagonal of the bounding box of the records of one probe
    (lines 399-401); a group of [groupby] has at least one record. *)
Definition diag_size (g : table R) : R :=
  match g with
  | [] => 0
  | r :: g' =>
      let xs := map x g' in
      let ys := map y g' in
      sqrt ((rmaximum (x r) xs - rminimum (x r) xs) ^ 2
            + (rmaximum (y r) ys - rminimum (y r) ys) ^ 2)
  end.

(** [is_not_dirt(traj, threshold, mpp)]: per probe id, whether the
    diagonal exceeds the threshold. *)
Definition is_not_dirt (traj : table R) (threshold mpp : R)
  : list (Z * bool) :=
  map (fun g => (fst g, if Rlt_dec threshold (diag_size (snd g)) then true else false))
      (groupby_probe traj).

(** * Displacements between two frames ([relate_frames],
      [direction_corr], [velocity_corr], lines 410-465) *)

(** [np.arctan2(y, x)]: the angle of the point (x, y), in (-pi, pi], and 0
    at the origin. *)
Definition arctan2 (y x : R) : R :=
  if Rlt_dec 0 x then atan (y / x)
  else if Rlt_dec x 0 then
         if Rle_dec 0 y then atan (y / x) + PI else atan (y / x) - PI
  else if Rlt_dec 0 y then PI / 2
  else if Rlt_dec y 0 then - (PI / 2)
  else 0.

(** [s ** 2] on a column. *)
Definition rsquare (a : rcell) : rcell := option_map (fun v => v ^ 2) a.

(** A row of the frame [j] of [relate_frames], under its probe label. *)
Record related : Type := Related {
  j_probe : Z;
  j_x : R;
  j_y : R;
  j_x_b : rcell;
  j_y_b : rcell;
  j_dx : rcell;
  j_dy : rcell;
  j_dr : rcell;
  j_direction : rcell
}.

(** The rows a record of [a] contributes to the left join with [b] on the
    probe label: one per row of [b] under the same label, or one with
    missing cells when [b] has none. *)
Definition joined (b : table R) (ra : row R)
  : list (Z * (R * R) * (rcell * rcell)) :=
  match List.filter (fun rb => (probe rb =? probe ra)%Z) b with
  | [] => [(probe ra, (x ra, y ra), (None, None))]
  | ms => map (fun rb => (probe ra, (x ra, y ra), (Some (x rb), Some (y rb)))) ms
  end.

(** The order in which the join takes the rows of [a].  They keep their
    order when [b] is empty and when no label is repeated in [a] or in [b];
    otherwise the join goes through the labels in ascending order, the rows
    under one label staying in the order they had. *)
Definition join_order (a b : table R) : table R :=
  match b with
  | [] => a
  | _ =>
      if unique_labels (map probe a) && unique_labels (map probe b) then a
      else flat_map (fun p => List.filter (fun r => (probe r =? p)%Z) a)
                    (sorted_unique (map probe a))
  end.

(** [a.set_index('probe')[['x', 'y']].join(b.set_index('probe')[['x', 'y']],
    rsuffix='_b')] (lines 413-414): a left join on the probe label. *)
Definition join_probe (a b : table R)
  : list (Z * (R * R) * (rcell * rcell)) :=
  flat_map (joined b) (join_order a b).

(** Lines 415-418 on one row of the join. *)
Definition related_row (r : Z * (R * R) * (rcell * rcell)) : related :=
  let p := fst (fst r) in
  let x := fst (snd (fst r)) in
  let y := snd (snd (fst r)) in
  let x_b := fst (snd r) in
  let y_b := snd (snd r) in
  let dx := rsub x_b (Some x) in
  let dy := rsub y_b (Some y) in
  Related p x y x_b y_b dx dy
          (rsqrt (radd (rsquare dx) (rsquare dy)))
          (rlift2 arctan2 dy dx).

(** [relate_frames(t, frame1, frame2)]. *)
Definition relate_frames (t : table R) (frame1 frame2 : Z) : list related :=
  let a := List.filter (fun r => (frame r =? frame1)%Z) t in
  let b := List.filter (fun r => (frame r =? frame2)%Z) t in
  map related_row (join_probe a b).

(** [np.triu_indices_from(r, 1)]: the pairs (i, j) of rows with i < j, row
    by row. *)
Fixpoint upper_triangle {A} (l : list A) : list (A * A) :=
  match l with
  | [] => []
  | a :: l' => map (pair a) l' ++ upper_triangle l'
  end.

(** The entries of the matrices [r] and [cosine] (lines 435-437, 458-460)
    for a pair of rows of [j]. *)
Definition r_entry (a b : related) : R :=
  sqrt ((j_x a - j_x b) ^ 2 + (j_y a - j_y b) ^ 2).

Definition cosine (a b : related) : rcell :=
  option_map cos (rsub (j_direction a) (j_direction b)).

(** The rows of [direction_corr]: columns [r] and [cos]. *)
Record direction_row : Type := DirectionRow {
  dir_r : R;
  dir_cos : rcell
}.

(** The rows of [velocity_corr]: columns [r] and [dot_product]. *)
Record velocity_row : Type := VelocityRow {
  vel_r : R;
  vel_dot_product : rcell
}.

(** [direction_corr(t, frame1, frame2)]. *)
Definition direction_corr (t : table R) (frame1 frame2 : Z)
  : list direction_row :=
  let j := relate_frames t frame1 frame2 in
  map (fun p => DirectionRow (r_entry (fst p) (snd p)) (cosine (fst p) (snd p)))
      (upper_triangle j).

(** [velocity_corr(t, frame1, frame2)]: the cosine times the absolute
    value of the product of the two step lengths (line 461). *)
Definition velocity_corr (t : table R) (frame1 frame2 : Z)
  : list velocity_row :=
  let j := relate_frames t frame1 frame2 in
  map (fun p =>
         VelocityRow (r_entry (fst p) (snd p))
                     (rmul (cosine (fst p) (snd p))
                           (option_map Rabs (rmul (j_dr (fst p)) (j_dr (snd p))))))
      (upper_triangle j).

Local Close Scope R_scope.

(** * Sample tables *)

(** One probe on a line: frames 0..4 at (0,0), (1,0), ..., (4,0). *)
Definition line5 : table Q :=
  [Row 0 0 0 0 0; Row 1 0 1 1 0; Row 2 0 2 2 0; Row 3 0 3 3 0; Row 4 0 4 4 0]%Q.

(** One probe seen at frames 0 and 10 only. *)
Definition gapped : table Q :=
  [Row 0 0 0 0 0; Row 10 0 10 1 0]%Q.

(** A table under the default index 0, 1 whose frames are 5 and 6. *)
Definition fresh : table Q :=
  [Row 0 1 5 0 0; Row 1 1 6 1 0]%Q.

(** One column of positions, seen in every frame from 100 to 110. *)
Definition late : positions :=
  Positions [1%Z] (map (fun f => (f, [Some (inject_Z f)])) (arange 100 111)).

(** One column of positions, seen in every frame from 0 to 10. *)
Definition early : positions :=
  Positions [1%Z] (map (fun f => (f, [Some (inject_Z f)])) (arange 0 11)).

(** A probe that visits (0,0) and (2,0). *)
Definition two_points : table R :=
  [Row 0 1 0 0 0; Row 1 1 1 2 0; Row 2 1 2 0 0]%R.

(** Two probes side by side on the x axis, both stepping by (1, 0). *)
Definition abreast : table R :=
  [Row 0 1 0 0 0; Row 1 2 0 1 0; Row 2 1 1 1 0; Row 3 2 1 2 0]%R.

(** Two probes side by side on the x axis, both stepping by (0, 1). *)
Definition sidestep : table R :=
  [Row 0 1 0 0 0; Row 1 2 0 1 0; Row 2 1 1 0 1; Row 3 2 1 1 1]%R.

(** Frame 0 holds probe 2, probe 1 and probe 2 again; frame 1 holds one
    record of each. *)
Definition revisit : table R :=
  [Row 0 2 0 0 0; Row 1 1 0 1 0; Row 2 2 0 2 0; Row 3 1 1 1 1; Row 4 2 1 2 1]%R.

(** Two records, the one of frame 5 before the one of frame 3. *)
Definition out_of_order : table Q :=
  [Row 0 1 5 0 0; Row 1 2 3 1 0]%Q.

(** Probe 1 in frames 0..2 and probe 2 in frame 0 only. *)
Definition lone_probe : table Q :=
  [Row 0 1 0 0 0; Row 1 2 0 5 5; Row 2 1 1 1 0; Row 3 1 2 2 0]%Q.

(** Two probes side by side on the x axis, both stepping by (1, 1). *)
Definition oblique : table R :=
  [Row 0 1 0 0 0; Row 1 2 0 1 0; Row 2 1 1 1 1; Row 3 2 1 2 1]%R.

(** * Properties used throughout *)

(** Equality of cells up to the value of the fractions. *)
Definition ceq (a b : cell) : Prop :=
  match a, b with
  | Some u, Some v => (u == v)%Q
  | None, None => True
  | _, _ => False
  end.

(** The index of a frame is a run of consecutive integers. *)
Definition consecutive {A} (s : indexed A) : Prop :=
  labels s = arange (hd 0%Z (labels s)) (hd 0%Z (labels s) + Z.of_nat (length s)).

(** The number of frames a trajectory covers: the rows of its densified
    position series. *)
Definition frames_covered (traj : table Q) : Z :=
  match densify nan2 (pos_of traj) with
  | Ok d => Z.of_nat (length d)
  | Raise _ => 0
  end.

(** The records of a table without their index labels. *)
Definition record_values {num} (t : table num) : list (Z * Z * num * num) :=
  map (fun r => (probe r, frame r, x r, y r)) t.

(** The row of the result behind the record [r]. *)
Definition drift_image (drift : drift_curve) (r : row Q) : drift_row :=
  let dxy := default nan2 (drift !! frame r) in
  {| d_idx := frame r;
     d_probe := sub_fill (Some (inject_Z (probe r))) None;
     d_frame := sub_fill (Some (inject_Z (frame r))) None;
     d_x := sub_fill (Some (x r)) (fst dxy);
     d_y := sub_fill (Some (y r)) (snd dxy) |}.

(** The drift a curve holds for a frame, coordinate by coordinate; 0 where
    it has no value. *)
Definition drift_x (drift : drift_curve) (f : Z) : Q :=
  default 0%Q (fst (default nan2 (drift !! f))).
Definition drift_y (drift : drift_curve) (f : Z) : Q :=
  default 0%Q (snd (default nan2 (drift !! f))).

(** The rows of the result that stand for a record of the trajectory. *)
Definition has_record (o : drift_row) : bool :=
  match d_probe o with
  | Some _ => true
  | None => false
  end.

(** The MSD value and the sample count a per-probe table holds at a lag. *)
Definition msd_at (l : Z) (rows : list msd_row) : cell :=
  match row_at l rows with
  | Some r => msd_col r
  | None => None
  end.

Definition N_at (l : Z) (rows : list msd_row) : cell :=
  match row_at l rows with
  | Some r => N_of r
  | None => None
  end.

(** The mean of values weighted by sample counts, from (value, count)
    pairs. *)
Definition weighted_mean (vw : list (Q * Q)) : Q :=
  (qsum (map (fun p => fst p * snd p) vw) / qsum (map snd vw))%Q.

(** Every probe has an MSD value and a sample count at lag [l]: the
    (value, count) pairs [vw], probe by probe. *)
Definition probe_values (l : Z) (per : list (Z * list msd_row))
    (vw : list (Q * Q)) : Prop :=
  Forall2 (fun g p => msd_at l (snd g) = Some (fst p) /\
                      N_at l (snd g) = Some (snd p)) per vw.

(** The rows the per-probe tables hold at lag [l], one per probe at most. *)
Definition chosen_rows (l : Z) (per : list (Z * list msd_row)) : list msd_row :=
  flat_map (fun g => match row_at l (snd g) with
                     | Some r => [r]
                     | None => []
                     end) per.

(** A position or displacement row has both coordinates or none. *)
Definition paired (c : cell * cell) : Prop :=
  match c with
  | (Some _, Some _) | (None, None) => True
  | _ => False
  end.

(** Two probes: probe 7 in frames 0..2, probe 3 in frames 0, 1, 2 and 4. *)
Definition two_probes : table Q :=
  [Row 0 7 0 0 0; Row 1 3 0 0 0; Row 2 7 1 1 0; Row 3 3 1 0 2;
   Row 4 7 2 2 0; Row 5 3 2 0 4; Row 6 3 4 1 3]%Q.

Section TwoPointTerms.
Local Open Scope R_scope.

(** The records of probe [p] visit the points (x1, y1) and (x2, y2) and no
    other point. *)
Definition visits_exactly (traj : table R) (p : Z) (x1 y1 x2 y2 : R) : Prop :=
  (forall r, In r traj -> probe r = p ->
             (x r = x1 /\ y r = y1) \/ (x r = x2 /\ y r = y2)) /\
  (exists r, In r traj /\ probe r = p /\ x r = x1 /\ y r = y1) /\
  (exists r, In r traj /\ probe r = p /\ x r = x2 /\ y r = y2).

(** The table [dr] of [abreast], of [sidestep] and of [oblique] at lag 1. *)
Definition abreast_dr : list (Z * indexed pcols) :=
  [(1%Z, [(0%Z, PCols (Some 0) (Some 0) None None);
          (1%Z, PCols (Some 1) (Some 0) (Some (1 - 0)) (Some (0 - 0)))]);
   (2%Z, [(0%Z, PCols (Some 1) (Some 0) None None);
          (1%Z, PCols (Some 2) (Some 0) (Some (2 - 1)) (Some (0 - 0)))])].

Definition sidestep_dr : list (Z * indexed pcols) :=
  [(1%Z, [(0%Z, PCols (Some 0) (Some 0) None None);
          (1%Z, PCols (Some 0) (Some 1) (Some (0 - 0)) (Some (1 - 0)))]);
   (2%Z, [(0%Z, PCols (Some 1) (Some 0) None None);
          (1%Z, PCols (Some 1) (Some 1) (Some (1 - 1)) (Some (1 - 0)))])].

Definition oblique_dr : list (Z * indexed pcols) :=
  [(1%Z, [(0%Z, PCols (Some 0) (Some 0) None None);
          (1%Z, PCols (Some 1) (Some 1) (Some (1 - 0)) (Some (1 - 0)))]);
   (2%Z, [(0%Z, PCols (Some 1) (Some 0) None None);
          (1%Z, PCols (Some 2) (Some 1) (Some (2 - 1)) (Some (1 - 0)))])].

(** The property of the correlator when two probes have one displacement,
    in the words of the specification: [para] is its squared length and
    [perp] is 0. *)
Definition same_disp_claim (traj : table R) (lagframe : Z) : Prop :=
  forall dr p1 p2 f x1 y1 x2 y2 dx dy,
    tp_dr (set_index_frame traj) lagframe = Ok dr ->
    (p1 < p2)%Z ->
    dr_at dr p1 f = PCols (Some x1) (Some y1) (Some dx) (Some dy) ->
    dr_at dr p2 f = PCols (Some x2) (Some y2) (Some dx) (Some dy) ->
    (x1, y1) <> (x2, y2) ->
    exists R,
      dropna_row f (tp_pair (dr_at dr p1 f) (dr_at dr p2 f))
      = [(f, TpRow R (dx * dx + dy * dy) 0)].

(** The table of line 207 with its columns multiplied by [a], [b], [c]. *)
Definition scale_rows (a b c : R) (rows : list tp_row) : list tp_row :=
  map (fun r => TpRow (tp_R r * a) (tp_para r * b) (tp_perp r * c)) rows.

End TwoPointTerms.

(** * Terms of the further properties *)

(** The first and the last label of a frame, [index[0]] and [index[-1]]. *)
Definition first_label {A} (s : indexed A) : Z := hd 0%Z (labels s).
Definition last_label {A} (s : indexed A) : Z := List.last (labels s) 0%Z.

(** The row a frame holds at a label; the missing row where it has none. *)
Definition at_label {A} (fill : A) (s : indexed A) (f : Z) : A :=
  match lookup_label f s with
  | Some v => v
  | None => fill
  end.

(** Sum of two cells; missing when either is. *)
Definition cadd : cell -> cell -> cell := clift2 Qplus.

(** Two rows of [msd] that differ by the length scale [c]: the mean
    displacements by the factor [c], the mean squares by its square, the
    lag, the sample count and the lag time not at all. *)
Definition scaled_row (c : Q) (a b : msd_row) : Prop :=
  lag a = lag b /\
  ceq (mean_x a) (cscale c (mean_x b)) /\
  ceq (mean_y a) (cscale c (mean_y b)) /\
  ceq (mean_x2 a) (cscale (c * c) (mean_x2 b)) /\
  ceq (mean_y2 a) (cscale (c * c) (mean_y2 b)) /\
  ceq (msd_col a) (cscale (c * c) (msd_col b)) /\
  N a = N b /\ lagt a = lagt b.

(** No probe of the table has two records in one frame. *)
Definition frames_distinct {num} (traj : table num) : Prop :=
  forall p, List.NoDup (map frame (List.filter (fun r => (probe r =? p)%Z) traj)).

(** The row [subtract_drift] returns for a frame that only the drift
    curve has: no probe, no frame number, the drift subtracted from 0. *)
Definition drift_only_row (f : Z) (dxy : cell * cell) : drift_row :=
  {| d_idx := f;
     d_probe := None;
     d_frame := None;
     d_x := sub_fill None (fst dxy);
     d_y := sub_fill None (snd dxy) |}.

(** A table moved as a whole by the offset (cx, cy). *)
Definition translate (cx cy : R) (traj : table R) : table R :=
  map (fun r => Row (idx r) (probe r) (frame r) (x r + cx)%R (y r + cy)%R) traj.

(** The dot product of the displacements of two rows of [relate_frames];
    missing when a displacement is. *)
Definition dot_product (a b : related) : rcell :=
  radd (rmul (j_dx a) (j_dx b)) (rmul (j_dy a) (j_dy b)).

(** The records of a table in one frame. *)
Definition in_frame (t : table R) (f : Z) : table R :=
  List.filter (fun r => (frame r =? f)%Z) t.

(** A row of [j] whose last four columns are computed from its first
    four as lines 415-418 do, and whose columns [x_b] and [y_b] are missing
    together. *)
Definition derived (row : related) : Prop :=
  j_dx row = rsub (j_x_b row) (Some (j_x row)) /\
  j_dy row = rsub (j_y_b row) (Some (j_y row)) /\
  j_dr row = rsqrt (radd (rsquare (j_dx row)) (rsquare (j_dy row))) /\
  j_direction row = rlift2 arctan2 (j_dy row) (j_dx row).

(** Whether a call of [msd] returned a table with a row. *)
Definition has_rows (res : result (list msd_row)) : bool :=
  match res with
  | Ok (_ :: _) => true
  | _ => false
  end.

(** The records of probe [p], indexed by frame: the group [imsd] and
    [emsd] hand to [msd]. *)
Definition probe_group (traj : table Q) (p : Z) : table Q :=
  set_index_frame (List.filter (fun r => (probe r =? p)%Z) traj).

Lemma arange_length a b : length (arange a b) = Z.to_nat (b - a).
Proof. unfold arange. now rewrite length_map, length_seq. Qed.

Lemma in_arange a b f : In f (arange a b) <-> (a <= f < b)%Z.
Proof.
  unfold arange. rewrite in_map_iff. split.
  - intros (i & <- & Hi). apply in_seq in Hi. lia.
  - intros H. exists (Z.to_nat (f - a)). split; [lia|].
    apply in_seq. lia.
Qed.

Lemma arange_empty a b : (b <= a)%Z -> arange a b = [].
Proof.
  intros H. unfold arange. replace (Z.to_nat (b - a)) with 0%nat by lia.
  reflexivity.
Qed.

Lemma arange_cons a b : (a < b)%Z -> arange a b = a :: arange (a + 1) b.
Proof.
  intros H. unfold arange.
  replace (Z.to_nat (b - a)) with (S (Z.to_nat (b - (a + 1)))) by lia.
  cbn [seq map]. f_equal; [lia|].
  rewrite <- seq_shift, map_map. apply map_ext. intros i. lia.
Qed.

Lemma arange_snoc a b : (a < b)%Z -> arange a b = arange a (b - 1) ++ [(b - 1)%Z].
Proof.
  intros H. unfold arange.
  replace (Z.to_nat (b - a)) with (Z.to_nat (b - 1 - a) + 1)%nat by lia.
  rewrite seq_app, map_app. cbn [seq map]. do 2 f_equal. lia.
Qed.

Lemma removelast_arange a b : removelast (arange a b) = arange a (b - 1).
Proof.
  destruct (Z_lt_le_dec a b) as [H|H].
  - rewrite (arange_snoc a b H). apply removelast_last.
  - rewrite !arange_empty by lia. reflexivity.
Qed.

Lemma removelast_map_comm {A B} (f : A -> B) l :
  removelast (map f l) = map f (removelast l).
Proof.
  induction l as [|a [|b l] IH]; try reflexivity.
  change (f a :: removelast (map f (b :: l)) = f a :: map f (removelast (b :: l))).
  now rewrite IH.
Qed.

Lemma in_removelast {A} (a : A) l : In a (removelast l) -> In a l.
Proof.
  induction l as [|b [|c l] IH]; cbn; [tauto | tauto |].
  intros [->|H]; [now left | right; now apply IH].
Qed.

Lemma unique_labels_NoDup l : unique_labels l = true <-> List.NoDup l.
Proof.
  induction l as [|h t IH]; cbn.
  - split; [constructor | reflexivity].
  - rewrite andb_true_iff, negb_true_iff, IH. split.
    + intros [Hn Ht]. constructor; [|assumption].
      intros Hin. assert (existsb (Z.eqb h) t = true) as E.
      { apply existsb_exists. exists h. split; [assumption | apply Z.eqb_refl]. }
      congruence.
    + intros Hnd. inversion Hnd as [|? ? Hn Ht]; subst. split; [|assumption].
      destruct (existsb (Z.eqb h) t) eqn:E; [|reflexivity].
      apply existsb_exists in E as (k & Hk & Hhk).
      apply Z.eqb_eq in Hhk. subst k. contradiction.
Qed.

Lemma NoDup_arange a b : List.NoDup (arange a b).
Proof.
  unfold arange. apply Finite.Injective_map_NoDup.
  - intros i j H. lia.
  - apply seq_NoDup.
Qed.

Lemma lookup_label_notin {A} f (s : indexed A) :
  ~ In f (labels s) -> lookup_label f s = None.
Proof.
  induction s as [|[g v] s IH]; cbn; [reflexivity|].
  intros H. destruct (Z.eqb_spec f g) as [->|Hne].
  - exfalso. apply H. now left.
  - apply IH. intros Hin. apply H. now right.
Qed.

Lemma lookup_label_in {A} f (s : indexed A) :
  In f (labels s) -> exists v, lookup_label f s = Some v /\ In (f, v) s.
Proof.
  induction s as [|[g v] s IH]; cbn; [intros []|].
  intros H. destruct (Z.eqb_spec f g) as [->|Hne].
  - exists v. split; [reflexivity | now left].
  - destruct H as [H|H]; [congruence|].
    destruct (IH H) as (w & Hw & Hin). exists w. split; [assumption | now right].
Qed.

(** Reindexing a frame with distinct labels on its own labels gives the
    frame back. *)
Lemma reindex_own_labels {A} (fill : A) (s : indexed A) :
  List.NoDup (labels s) ->
  map (fun f => (f, match lookup_label f s with Some v => v | None => fill end))
      (labels s) = s.
Proof.
  induction s as [|[g v] s IH]; [reflexivity|].
  intros Hnd. cbn in Hnd. inversion Hnd as [|? ? Hn Hs]; subst.
  cbn [labels map fst lookup_label]. rewrite Z.eqb_refl. f_equal.
  rewrite <- (IH Hs) at 2. apply map_ext_in. intros f Hf.
  destruct (Z.eqb_spec f g) as [->|_]; [contradiction | reflexivity].
Qed.

Lemma last_labels {A} (s : indexed A) d :
  fst (List.last s d) = List.last (labels s) (fst d).
Proof.
  induction s as [|a [|b s] IH]; try reflexivity.
  change (fst (List.last (b :: s) d) = List.last (labels (b :: s)) (fst d)).
  exact IH.
Qed.

Lemma last_arange a b d : (a < b)%Z -> List.last (arange a b) d = (b - 1)%Z.
Proof. intros H. rewrite (arange_snoc a b H). apply last_last. Qed.

Lemma last_default_irrelevant {A} (l : list A) a d d' :
  List.last (a :: l) d = List.last (a :: l) d'.
Proof.
  revert a. induction l as [|b l IH]; intros a; [reflexivity|].
  change (List.last (b :: l) d = List.last (b :: l) d'). apply IH.
Qed.

Lemma densify_cons {A} (fill : A) f0 v0 (pos' : indexed A) :
  densify fill ((f0, v0) :: pos') =
  reindex fill ((f0, v0) :: pos')
    (arange f0 (1 + List.last (labels ((f0, v0) :: pos')) 0%Z)).
Proof.
  change (densify fill ((f0, v0) :: pos')) with
    (reindex fill ((f0, v0) :: pos')
       (arange f0 (1 + fst (List.last ((f0, v0) :: pos') (f0, v0))))).
  rewrite last_labels. do 3 f_equal. apply last_default_irrelevant.
Qed.

Lemma reindex_labels {A} (fill : A) (s d : indexed A) new_labels :
  reindex fill s new_labels = Ok d -> labels d = new_labels.
Proof.
  unfold reindex. destruct (unique_labels _); [|discriminate].
  intros [= <-]. unfold labels. rewrite map_map. cbn [fst]. apply map_id.
Qed.

Lemma densify_labels {A} (fill : A) (pos d : indexed A) :
  densify fill pos = Ok d ->
  labels d = arange (hd 0%Z (labels pos)) (1 + List.last (labels pos) 0%Z).
Proof.
  destruct pos as [|[f0 v0] pos']; [discriminate|].
  rewrite densify_cons. apply reindex_labels.
Qed.

(** * The frame reindexing step *)

Lemma hd_arange a b : (a < b)%Z -> hd 0%Z (arange a b) = a.
Proof. intros H. now rewrite (arange_cons a b H). Qed.

Lemma densify_consecutive {A} (fill : A) (pos : indexed A) :
  pos <> [] -> consecutive pos -> densify fill pos = Ok pos.
Proof.
  destruct pos as [|[f0 v0] pos']; [congruence|]. intros _ Hc.
  unfold consecutive in Hc. cbn [labels map fst hd] in Hc.
  change (f0 :: map fst pos') with (labels ((f0, v0) :: pos')) in Hc.
  rewrite densify_cons. unfold reindex.
  assert (unique_labels (labels ((f0, v0) :: pos')) = true) as ->.
  { apply unique_labels_NoDup. rewrite Hc. apply NoDup_arange. }
  assert (1 + List.last (labels ((f0, v0) :: pos')) 0
          = f0 + Z.of_nat (length ((f0, v0) :: pos')))%Z as ->.
  { rewrite Hc at 1. rewrite last_arange; cbn [length]; lia. }
  rewrite <- Hc. f_equal. apply reindex_own_labels.
  rewrite Hc. apply NoDup_arange.
Qed.

Lemma length_labels {A} (s : indexed A) : length (labels s) = length s.
Proof. apply length_map. Qed.

Lemma densify_output_consecutive {A} (fill : A) (pos d : indexed A) :
  densify fill pos = Ok d -> consecutive d.
Proof.
  intros H. apply densify_labels in H. unfold consecutive.
  set (a := hd 0%Z (labels pos)) in *.
  set (b := (1 + List.last (labels pos) 0)%Z) in *.
  rewrite <- (length_labels d), H, arange_length.
  destruct (Z_lt_le_dec a b) as [Hab|Hab].
  - rewrite hd_arange by assumption. f_equal. lia.
  - rewrite !arange_empty by (cbn; lia). reflexivity.
Qed.

(** C7: on a position series whose frames are consecutive integers the
    reindexing step returns the series itself; reindexing is idempotent
    (what it returns is returned unchanged by a second pass); and the
    densified series never holds a frame outside the observed range from the
    first to the last frame. *)
Theorem densify_dense_noop :
  forall (A : Type) (fill : A) (pos : indexed A),
    (pos <> [] -> consecutive pos -> densify fill pos = Ok pos) /\
    (forall d, densify fill pos = Ok d -> d <> [] -> densify fill d = Ok d) /\
    (forall d, densify fill pos = Ok d ->
       forall f, In f (labels d) ->
         (hd 0 (labels pos) <= f <= List.last (labels pos) 0)%Z).
Proof.
  intros A fill pos. split; [|split].
  - apply densify_consecutive.
  - intros d Hd Hne. apply densify_consecutive; [assumption|].
    eapply densify_output_consecutive; eassumption.
  - intros d Hd f Hf. rewrite (densify_labels _ _ _ Hd) in Hf.
    apply in_arange in Hf. lia.
Qed.

Lemma densify_dense_noop_witness :
  densify nan2 (pos_of line5) = Ok (pos_of line5) /\
  (forall f, In f (labels (pos_of line5)) -> (0 <= f <= 4)%Z).
Proof.
  pose proof (densify_dense_noop _ nan2 (pos_of line5)) as (H1 & _ & H3).
  assert (densify nan2 (pos_of line5) = Ok (pos_of line5)) as E.
  { apply H1; [discriminate | reflexivity]. }
  split; [exact E|].
  intros f Hf. exact (H3 (pos_of line5) E f Hf).
Defined.

(** * The lags of [msd] *)

Lemma lagtimes_arange traj m :
  lagtimes traj m = arange 1 (1 + clamp_lagtime traj m).
Proof.
  unfold lagtimes, arange. rewrite map_map.
  replace (1 + clamp_lagtime traj m - 1)%Z with (clamp_lagtime traj m - 0)%Z by lia.
  apply map_ext. intros i. lia.
Qed.

Lemma in_lagtimes traj m l :
  In l (lagtimes traj m) <-> (1 <= l <= Z.min m (Z.of_nat (length traj)))%Z.
Proof.
  rewrite lagtimes_arange, in_arange. unfold clamp_lagtime. lia.
Qed.

Lemma map_lag_rows {pd : pandas} pos mpp fps lts detail l :
  map lag (map (msd_row_at pos mpp fps lts detail) l) = l.
Proof. rewrite map_map. cbn [lag msd_row_at]. apply map_id. Qed.

(** The lags of the rows [msd] returns: all lags but the last one, or no
    row at all when the densified series is empty. *)
Lemma msd_rows_lags {pd : pandas} traj mpp fps m detail rows :
  msd traj mpp fps m detail = Ok rows ->
  map lag rows = removelast (lagtimes traj m) \/ rows = [].
Proof.
  unfold msd. destruct (densify nan2 (pos_of traj)) as [pos|e]; [|discriminate].
  cbn [rbind]. destruct (lagtimes traj m) as [|l0 lts] eqn:E; [discriminate|].
  intros [= <-]. destruct pos as [|p pos]; [now right|]. left.
  rewrite <- removelast_map_comm. f_equal.
  apply (map_lag_rows (p :: pos) mpp fps (l0 :: lts) detail (l0 :: lts)).
Qed.

Lemma densify_nonempty {A} (fill : A) (pos d : indexed A) :
  densify fill pos = Ok d ->
  (hd 0 (labels pos) <= List.last (labels pos) 0)%Z -> d <> [].
Proof.
  intros H Hle Hd. apply densify_labels in H. subst d.
  cbn in H. symmetry in H.
  assert (In (hd 0%Z (labels pos)) (@nil Z)) as []. rewrite <- H.
  apply in_arange. lia.
Qed.

Lemma msd_rows_lags_ascending {pd : pandas} traj mpp fps m detail rows :
  msd traj mpp fps m detail = Ok rows ->
  (hd 0 (labels (pos_of traj)) <= List.last (labels (pos_of traj)) 0)%Z ->
  map lag rows = arange 1 (clamp_lagtime traj m).
Proof.
  intros H Hle. unfold msd in H.
  destruct (densify nan2 (pos_of traj)) as [pos|e] eqn:Ed; [|discriminate].
  cbn [rbind] in H. destruct (lagtimes traj m) as [|l0 lts] eqn:E; [discriminate|].
  injection H as <-. pose proof (densify_nonempty _ _ _ Ed Hle) as Hne.
  destruct pos as [|p pos]; [congruence|].
  change (msd_row_at (p :: pos) mpp fps (l0 :: lts) detail l0
          :: map (msd_row_at (p :: pos) mpp fps (l0 :: lts) detail) lts)
    with (map (msd_row_at (p :: pos) mpp fps (l0 :: lts) detail) (l0 :: lts)).
  rewrite removelast_map_comm, map_lag_rows, <- E, lagtimes_arange, removelast_arange.
  f_equal. lia.
Qed.

(** C8 (as amended): [msd] explores exactly the lags from 1 to the smaller
    of the requested [max_lagtime] and the number of records of the
    trajectory; the lag of every row it returns is one of them; and the
    number of records is the number of frames the trajectory covers when its
    frames have no gaps. *)
Theorem lagtimes_clamped_to_records {pd : pandas} :
  (forall traj m l,
      In l (lagtimes traj m) <-> (1 <= l <= Z.min m (Z.of_nat (length traj)))%Z) /\
  (forall traj mpp fps m detail rows,
      msd traj mpp fps m detail = Ok rows ->
      forall r, In r rows -> In (lag r) (lagtimes traj m)) /\
  (forall traj, traj <> [] -> consecutive (pos_of traj) ->
      Z.of_nat (length traj) = frames_covered traj).
Proof.
  split; [|split].
  - apply in_lagtimes.
  - intros traj mpp fps m detail rows H r Hr.
    destruct (msd_rows_lags _ _ _ _ _ _ H) as [E| ->]; [|destruct Hr].
    assert (In (lag r) (map lag rows)) as Hin by (apply in_map; assumption).
    rewrite E, lagtimes_arange, removelast_arange in Hin.
    rewrite lagtimes_arange. apply in_arange in Hin. apply in_arange. lia.
  - intros traj Hne Hc. unfold frames_covered.
    rewrite densify_consecutive; [| destruct traj; [congruence | discriminate] | assumption].
    unfold pos_of. now rewrite length_map.
Qed.

Section UnderZeroSum.
Local Existing Instance sums_nothing_to_zero.

Lemma lagtimes_clamped_to_records_witness :
  (In 2%Z (lagtimes line5 2) <-> (1 <= 2 <= Z.min 2 (Z.of_nat (length line5)))%Z) /\
  Z.of_nat (length line5) = frames_covered line5.
Proof.
  pose proof lagtimes_clamped_to_records as (H1 & _ & H3).
  split; [apply H1|]. apply H3; [discriminate | reflexivity].
Defined.

End UnderZeroSum.

(** C8 as stated fails on a trajectory with gaps: the probe seen at frames
    0 and 10 covers 11 frames, and with [max_lagtime = 100] lag 5 is within
    1..min(100, 11), yet [msd] explores the lags 1 and 2 only. *)
Section UnderZeroSum.
Local Existing Instance sums_nothing_to_zero.

Lemma lagtimes_not_clamped_to_frames_covered :
  ~ (forall l, In l (lagtimes gapped 100) <->
               (1 <= l <= Z.min 100 (frames_covered gapped))%Z).
Proof.
  intros H. specialize (H 5%Z).
  assert (In 5%Z (lagtimes gapped 100)) as Hin.
  { apply H. vm_compute. split; discriminate. }
  vm_compute in Hin. intuition discriminate.
Qed.

End UnderZeroSum.

(** C2: [msd] cuts the row of the last lag off its result.  For the probe
    at (0,0), (1,0), ..., (4,0) in frames 0..4 with [mpp = 1], [fps = 1] and
    [max_lagtime = 2] it returns the single row of lag 1 with <x> = 1,
    <y> = 0, <x^2> = 1, <y^2> = 0 and msd = 1, and no row of lag 2.  In
    general every row it returns has a lag below the clamped [max_lagtime],
    and on a trajectory whose index does not descend the rows are those of
    the lags 1 .. max_lagtime - 1. *)
Theorem msd_drops_final_lag {pd : pandas} :
  (exists r,
      msd line5 1 1 2 false = Ok [r] /\
      lag r = 1%Z /\
      ceq (mean_x r) (Some 1%Q) /\ ceq (mean_y r) (Some 0%Q) /\
      ceq (mean_x2 r) (Some 1%Q) /\ ceq (mean_y2 r) (Some 0%Q) /\
      ceq (msd_col r) (Some 1%Q) /\ ceq (lagt r) (Some 1%Q)) /\
  (forall traj mpp fps m detail rows,
      msd traj mpp fps m detail = Ok rows ->
      (forall r, In r rows -> (1 <= lag r < clamp_lagtime traj m)%Z) /\
      ((hd 0 (labels (pos_of traj)) <= List.last (labels (pos_of traj)) 0)%Z ->
       map lag rows = arange 1 (clamp_lagtime traj m))).
Proof.
  split.
  - eexists. split; [vm_compute; reflexivity|].
    cbn [lag mean_x mean_y mean_x2 mean_y2 msd_col lagt ceq].
    repeat split; reflexivity.
  - intros traj mpp fps m detail rows H. split.
    + intros r Hr.
      destruct (msd_rows_lags _ _ _ _ _ _ H) as [E| ->]; [|destruct Hr].
      assert (In (lag r) (map lag rows)) as Hin by (apply in_map; assumption).
      rewrite E, lagtimes_arange, removelast_arange in Hin.
      apply in_arange in Hin. lia.
    + apply msd_rows_lags_ascending with (1 := H).
Qed.

Section UnderZeroSum.
Local Existing Instance sums_nothing_to_zero.

Lemma msd_drops_final_lag_witness :
  exists rows,
    msd line5 1 1 5 true = Ok rows /\
    map lag rows = arange 1 (clamp_lagtime line5 5) /\
    (forall r, In r rows -> (1 <= lag r < clamp_lagtime line5 5)%Z).
Proof.
  destruct (msd line5 1 1 5 true) as [rows|e] eqn:E; [|vm_compute in E; discriminate].
  exists rows.
  destruct msd_drops_final_lag as [_ H]. destruct (H _ _ _ _ _ _ E) as [H1 H2].
  split; [reflexivity|]. split; [|exact H1].
  apply H2. vm_compute. discriminate.
Defined.

End UnderZeroSum.

(** * The caller's table *)

Lemma set_index_frame_values {num} (t : table num) :
  record_values (set_index_frame t) = record_values t.
Proof. unfold record_values, set_index_frame. rewrite map_map. reflexivity. Qed.

Lemma set_index_frame_indexed {num} (t : table num) :
  Forall (fun r => idx r = frame r) t -> set_index_frame t = t.
Proof.
  induction 1 as [|r t Hr _ IH]; [reflexivity|].
  cbn. rewrite <- Hr at 1. fold (set_index_frame t). rewrite IH.
  now destruct r.
Qed.

Lemma set_index_frame_idem {num} (t : table num) :
  set_index_frame (set_index_frame t) = set_index_frame t.
Proof. unfold set_index_frame. rewrite map_map. reflexivity. Qed.

Lemma _tp_corr_table traj lagframe :
  fst (_tp_corr traj lagframe) = set_index_frame traj.
Proof. reflexivity. Qed.

Lemma tp_corr_loop_table traj lagframes :
  fst (tp_corr_loop traj lagframes)
  = match lagframes with [] => traj | _ => set_index_frame traj end.
Proof.
  revert traj. induction lagframes as [|lf rest IH]; intros traj; [reflexivity|].
  cbn [tp_corr_loop]. pose proof (_tp_corr_table traj lf) as Ht.
  destruct (_tp_corr traj lf) as [t1 [d|e]]; cbn [fst] in Ht; subst t1;
    [|reflexivity].
  specialize (IH (set_index_frame traj)).
  destruct (tp_corr_loop (set_index_frame traj) rest) as [t' [ds|e]];
    cbn [fst] in *; subst t'; destruct rest; auto using set_index_frame_idem.
Qed.

Lemma set_index_frame_labels {num} (t : table num) :
  map idx (set_index_frame t) = map frame t.
Proof. unfold set_index_frame. rewrite map_map. reflexivity. Qed.

Lemma labels_are_frames {num} (t : table num) :
  map idx t = map frame t -> Forall (fun r => idx r = frame r) t.
Proof.
  induction t as [|r t IH]; cbn [map]; intros H; constructor.
  - now injection H.
  - apply IH. now injection H.
Qed.

(** What line 98, 135 or 212 does to the caller's table. *)
Lemma set_index_frame_effect {num} (traj : table num) :
  record_values (set_index_frame traj) = record_values traj /\
  length (set_index_frame traj) = length traj /\
  map idx (set_index_frame traj) = map frame traj /\
  (set_index_frame traj = traj <-> Forall (fun r => idx r = frame r) traj).
Proof.
  split; [apply set_index_frame_values|].
  split; [unfold set_index_frame; apply length_map|].
  split; [apply set_index_frame_labels|].
  split.
  - intros E. apply labels_are_frames. rewrite <- E at 1.
    apply set_index_frame_labels.
  - apply set_index_frame_indexed.
Qed.

(** C9 (as amended): [imsd], [emsd] and the two-point correlator leave the
    records and the column values of the caller's table as they were and
    replace its index by the frame column: after the call the labels of the
    table are its frame numbers, and the table equals the one passed in if
    and only if that one was indexed by frame already. *)
Theorem entry_points_set_frame_index {pd : pandas} :
  (forall traj mpp fps m stat,
      let after := fst (imsd traj mpp fps m stat) in
      record_values after = record_values traj /\
      length after = length traj /\
      map idx after = map frame traj /\
      (after = traj <-> Forall (fun r => idx r = frame r) traj)) /\
  (forall traj mpp fps m detail,
      let after := fst (emsd traj mpp fps m detail) in
      record_values after = record_values traj /\
      length after = length traj /\
      map idx after = map frame traj /\
      (after = traj <-> Forall (fun r => idx r = frame r) traj)) /\
  (forall traj mpp fps lf lfs,
      let after := fst (tp_corr traj mpp fps (lf :: lfs)) in
      record_values after = record_values traj /\
      length after = length traj /\
      map idx after = map frame traj /\
      (after = traj <-> Forall (fun r => idx r = frame r) traj)).
Proof.
  split; [|split].
  - intros traj mpp fps m stat. exact (set_index_frame_effect traj).
  - intros traj mpp fps m detail. exact (set_index_frame_effect traj).
  - intros traj mpp fps lf lfs after.
    assert (after = set_index_frame traj) as ->.
    { unfold after, tp_corr.
      pose proof (tp_corr_loop_table traj (lf :: lfs)) as H.
      destruct (tp_corr_loop traj (lf :: lfs)) as [t' [[|d ds]|e]]; exact H. }
    exact (set_index_frame_effect traj).
Qed.

Section UnderZeroSum.
Local Existing Instance sums_nothing_to_zero.

Lemma entry_points_set_frame_index_witness :
  fst (imsd line5 1 1 2 stat_msd) = line5 /\
  fst (emsd line5 1 1 2 false) = line5 /\
  map idx (fst (imsd fresh 1 1 100 stat_msd)) = map frame fresh /\
  fst (imsd fresh 1 1 100 stat_msd) <> fresh.
Proof.
  destruct entry_points_set_frame_index as (Hi & He & _).
  assert (Forall (fun r : row Q => idx r = frame r) line5) as Hf
    by (repeat constructor).
  pose proof (Hi line5 1%Q 1%Q 2%Z stat_msd) as H1. cbv zeta in H1.
  pose proof (He line5 1%Q 1%Q 2%Z false) as H2. cbv zeta in H2.
  pose proof (Hi fresh 1%Q 1%Q 100%Z stat_msd) as H3. cbv zeta in H3.
  destruct H1 as (_ & _ & _ & H1), H2 as (_ & _ & _ & H2),
           H3 as (_ & _ & Hl & Hiff).
  split; [apply H1, Hf|]. split; [apply H2, Hf|]. split; [exact Hl|].
  intros E. apply Hiff in E. inversion E as [|? ? H0 _]. discriminate H0.
Defined.

End UnderZeroSum.

(** C9 as stated fails on a table that is not indexed by frame: after
    [imsd] and after [emsd] a table under the default index 0, 1 with frames
    5 and 6 carries the labels 5 and 6. *)
Section UnderZeroSum.
Local Existing Instance sums_nothing_to_zero.

Lemma imsd_emsd_change_index :
  fst (imsd fresh 1 1 100 stat_msd) <> fresh /\
  fst (emsd fresh 1 1 100 false) <> fresh /\
  map idx fresh = [0; 1]%Z /\
  map idx (fst (imsd fresh 1 1 100 stat_msd)) = [5; 6]%Z /\
  map idx (fst (emsd fresh 1 1 100 false)) = [5; 6]%Z.
Proof. repeat split; try discriminate; reflexivity. Qed.

End UnderZeroSum.

(** * Drift subtraction *)

Lemma in_zinsert a k l : In a (zinsert k l) <-> a = k \/ In a l.
Proof.
  induction l as [|h t IH]; cbn [zinsert].
  - cbn. intuition congruence.
  - destruct (Z.ltb_spec k h); [cbn; intuition congruence|].
    destruct (Z.eqb_spec k h) as [->|Hne]; cbn; [intuition congruence|].
    rewrite IH. intuition congruence.
Qed.

Lemma in_sorted_unique a l : In a (sorted_unique l) <-> In a l.
Proof.
  induction l as [|h t IH]; cbn [sorted_unique fold_right]; [tauto|].
  fold (sorted_unique t). rewrite in_zinsert, IH. cbn. intuition congruence.
Qed.

Lemma sub_rows_at_image traj drift r :
  In r traj -> In (drift_image drift r) (sub_rows_at traj drift (frame r)).
Proof.
  intros Hr. unfold sub_rows_at.
  assert (In r (List.filter (fun r' => (frame r' =? frame r)%Z) traj)) as Hin.
  { apply filter_In. split; [assumption | apply Z.eqb_refl]. }
  destruct (List.filter _ traj) as [|r0 rs] eqn:E; [destruct Hin|].
  apply in_map_iff. exists r. split; [reflexivity | assumption].
Qed.

Lemma zinsert_sorted k l :
  StronglySorted Z.lt l -> StronglySorted Z.lt (zinsert k l).
Proof.
  induction 1 as [|h t Ht IH Hh]; cbn [zinsert].
  - repeat constructor.
  - destruct (Z.ltb_spec k h) as [Hlt|Hge].
    + constructor; [now constructor|]. constructor; [assumption|].
      eapply List.Forall_impl; [|exact Hh]. intros a Ha. cbn in Ha. lia.
    + destruct (Z.eqb_spec k h) as [->|Hne]; [now constructor|].
      constructor; [assumption|].
      apply List.Forall_forall. intros a Ha. apply in_zinsert in Ha as [->|Ha]; [lia|].
      rewrite List.Forall_forall in Hh. auto.
Qed.

Lemma sorted_unique_sorted l : StronglySorted Z.lt (sorted_unique l).
Proof.
  induction l as [|h t IH]; [constructor|].
  cbn [sorted_unique fold_right]. now apply zinsert_sorted.
Qed.

Lemma sorted_NoDup l : StronglySorted Z.lt l -> List.NoDup l.
Proof.
  induction 1 as [|h t Ht IH Hh]; constructor; [|assumption].
  intros Hin. rewrite List.Forall_forall in Hh. specialize (Hh h Hin). lia.
Qed.

Lemma NoDup_sorted_unique l : List.NoDup (sorted_unique l).
Proof. apply sorted_NoDup, sorted_unique_sorted. Qed.

Lemma flat_map_ext_in' {A B} (f g : A -> list B) l :
  (forall a, In a l -> f a = g a) -> flat_map f l = flat_map g l.
Proof.
  induction l as [|a l IH]; [reflexivity|]. intros H. cbn [flat_map].
  rewrite (H a (or_introl eq_refl)). f_equal. apply IH. intros a' Ha'. apply H. now right.
Qed.

(** Grouping the records of a table by a key, over distinct keys that
    cover the table, neither loses nor repeats a record. *)
Lemma group_by_key_permutation {A} (key : A -> Z) (l : list A) keys :
  List.NoDup keys -> (forall a, In a l -> In (key a) keys) ->
  Permutation (flat_map (fun k => List.filter (fun a => (key a =? k)%Z) l) keys) l.
Proof.
  intros Hnd. induction l as [|a l IH]; intros Hcov.
  - induction keys as [|k keys IHk]; [constructor|].
    cbn. inversion Hnd; subst. now apply IHk.
  - assert (forall ks, List.NoDup ks -> In (key a) ks ->
              Permutation
                (flat_map (fun k => List.filter (fun a' => (key a' =? k)%Z) (a :: l)) ks)
                (a :: flat_map (fun k => List.filter (fun a' => (key a' =? k)%Z) l) ks)) as Hstep.
    { clear. induction ks as [|k ks IHks]; [intros _ []|].
      intros Hnd Hin. inversion Hnd as [|? ? Hn Hnd']; subst.
      cbn [flat_map List.filter]. destruct (Z.eqb_spec (key a) k) as [E|Hne].
      - subst k. cbn [app]. constructor. apply Permutation_app_head.
        apply Permutation_refl'. apply flat_map_ext_in'. intros k Hk. cbn [List.filter].
        destruct (Z.eqb_spec (key a) k) as [E|_]; [subst; contradiction | reflexivity].
      - destruct Hin as [E|Hin]; [congruence|].
        eapply Permutation_trans; [apply Permutation_app_head, IHks; assumption|].
        symmetry. apply Permutation_middle. }
    eapply Permutation_trans; [apply Hstep; [assumption | apply Hcov; now left]|].
    constructor. apply IH. intros a' Ha'. apply Hcov. now right.
Qed.

Lemma sub_rows_at_records traj drift f :
  List.filter has_record (sub_rows_at traj drift f)
  = map (drift_image drift) (List.filter (fun r => (frame r =? f)%Z) traj).
Proof.
  unfold sub_rows_at.
  pose proof (fun r => proj1 (filter_In (fun r : row Q => (frame r =? f)%Z) r traj)) as Hf.
  destruct (List.filter (fun r => (frame r =? f)%Z) traj) as [|r0 rs]; [reflexivity|].
  assert (forall r, In r (r0 :: rs) -> frame r = f) as Hfr.
  { intros r Hr. apply Hf in Hr as [_ E]. now apply Z.eqb_eq. }
  clear Hf. induction (r0 :: rs) as [|r l IH]; [reflexivity|].
  cbn [map List.filter has_record d_probe sub_fill]. f_equal.
  - unfold drift_image. rewrite (Hfr r (or_introl eq_refl)). reflexivity.
  - apply IH. intros r' Hr'. apply Hfr. now right.
Qed.

Lemma filter_flat_map {A B} (p : B -> bool) (f : A -> list B) l :
  List.filter p (flat_map f l) = flat_map (fun a => List.filter p (f a)) l.
Proof.
  induction l as [|a l IH]; [reflexivity|].
  cbn [flat_map]. now rewrite List.filter_app, IH.
Qed.

Lemma flat_map_map_filter {A B} (g : A -> B) (q : Z -> A -> bool) (l : list A) keys :
  flat_map (fun k => map g (List.filter (q k) l)) keys
  = map g (flat_map (fun k => List.filter (q k) l) keys).
Proof.
  induction keys as [|k keys IH]; [reflexivity|].
  cbn [flat_map]. now rewrite map_app, IH.
Qed.

Lemma filter_all {A} (f : A -> bool) l :
  (forall a, In a l -> f a = true) -> List.filter f l = l.
Proof.
  induction l as [|a l IH]; [reflexivity|]. intros H. cbn [List.filter].
  rewrite (H a (or_introl eq_refl)), IH; [reflexivity|].
  intros b Hb. apply H. now right.
Qed.

(** Against an empty drift curve: the records in the order of the table. *)
Lemma sub_rows_in_table_order traj drift :
  flat_map (fun r => sub_rows_at [r] drift (frame r)) traj
  = map (drift_image drift) traj.
Proof.
  induction traj as [|r traj IH]; [reflexivity|].
  cbn [flat_map map]. rewrite IH. unfold sub_rows_at at 1.
  cbn [List.filter]. rewrite Z.eqb_refl. reflexivity.
Qed.

Lemma sub_drift_cases traj (drift : drift_curve) :
  (drift = ∅ -> sub_drift traj drift = map (drift_image drift) traj) /\
  (drift <> ∅ ->
   sub_drift traj drift
   = flat_map (sub_rows_at traj drift)
       (sorted_unique (map frame traj ++ map fst (map_to_list drift)))).
Proof.
  unfold sub_drift. split.
  - intros E0. apply map_to_list_empty_iff in E0.
    assert (map_to_list drift = []) as -> by exact E0.
    apply sub_rows_in_table_order.
  - intros Hne. destruct (map_to_list drift) as [|kv kvs] eqn:E; [|reflexivity].
    exfalso. apply Hne. apply map_to_list_empty_iff. exact E.
Qed.

(** C10: [subtract_drift] returns, for every record of the trajectory, a
    record under the same frame with the same probe id and frame number,
    whose position is the position of the record minus the (x, y) of the
    drift curve at that frame; where the curve has no value the position is
    the one of the record.  The rows of the result that stand for a record
    are these records, none lost and none repeated. *)
Theorem subtract_drift_records :
  forall (traj : table Q) (drift : drift_curve),
  exists out,
    subtract_drift traj (Some drift) = Ok out /\
    Permutation (List.filter has_record out) (map (drift_image drift) traj) /\
    forall r, In r traj ->
      let o := drift_image drift r in
      In o out /\ d_idx o = frame r /\
      ceq (d_probe o) (Some (inject_Z (probe r))) /\
      ceq (d_frame o) (Some (inject_Z (frame r))) /\
      ceq (d_x o) (Some (x r - drift_x drift (frame r))%Q) /\
      ceq (d_y o) (Some (y r - drift_y drift (frame r))%Q) /\
      (fst (default nan2 (drift !! frame r)) = None -> ceq (d_x o) (Some (x r))) /\
      (snd (default nan2 (drift !! frame r)) = None -> ceq (d_y o) (Some (y r))).
Proof.
  intros traj drift. eexists. split; [reflexivity|]. split.
  - unfold sub_drift. destruct (map_to_list drift) as [|kv kvs] eqn:Ekeys.
    + rewrite (sub_rows_in_table_order traj drift).
      rewrite filter_all; [reflexivity|].
      intros o Ho. apply in_map_iff in Ho as (r & <- & _). reflexivity.
    + rewrite <- Ekeys. rewrite filter_flat_map.
      rewrite (flat_map_ext _ _ (sub_rows_at_records traj drift)).
      rewrite (flat_map_map_filter (drift_image drift) (fun k r => (frame r =? k)%Z)).
      apply Permutation_map. apply group_by_key_permutation.
      * apply NoDup_sorted_unique.
      * intros r Hr. apply in_sorted_unique, in_or_app. left. now apply in_map.
  - intros r Hr o. split.
    + unfold sub_drift. destruct (map_to_list drift) as [|kv kvs] eqn:Ekeys.
      * rewrite (sub_rows_in_table_order traj drift). now apply in_map.
      * rewrite <- Ekeys. apply in_flat_map. exists (frame r). split.
        -- apply in_sorted_unique, in_or_app. left. now apply in_map.
        -- now apply sub_rows_at_image.
    + unfold o, drift_image, drift_x, drift_y.
      cbn [d_idx d_probe d_frame d_x d_y sub_fill ceq default].
      destruct (default nan2 (drift !! frame r)) as [[dx|] [dy|]];
        cbn [fst snd default sub_fill ceq];
        repeat split; intros; try discriminate; try reflexivity;
        unfold Datatypes.id; ring.
Qed.

Lemma subtract_drift_records_witness :
  exists o,
    In o (match subtract_drift line5 (Some {[ 1%Z := (Some 1%Q, None) ]}) with
          | Ok out => out
          | Raise _ => []
          end) /\
    d_idx o = 1%Z /\ ceq (d_x o) (Some 0%Q) /\ ceq (d_y o) (Some 0%Q).
Proof.
  destruct (subtract_drift_records line5 {[ 1%Z := (Some 1%Q, None) ]})
    as (out & E & _ & H).
  rewrite E.
  destruct (H (Row 1 0 1 1 0)%Q) as (Ho & Hi & _ & _ & Hx & _ & _ & Hy).
  { right. left. reflexivity. }
  eexists. split; [exact Ho|]. split; [exact Hi|].
  split; [exact Hx | apply Hy; reflexivity].
Defined.

(** * The guard of [vanhove] *)

(** C5: the guard of [vanhove] compares the lag with the largest frame
    number, not with the frame span, and its message cannot be built.  On
    positions seen in frames 100..110 (span 10) the lag 50 passes the guard
    and every displacement is missing; no call ever raises the assertion
    with its message; on frames 0..10 the failing guard raises a NameError
    for the unbound name [frame]. *)
Theorem vanhove_guard_misses_span :
  (exists d, vanhove_disp late 50 1 = Ok d /\
             Forall (fun r => snd r = [None]) d /\
             labels d = arange 100 111) /\
  (50 > 110 - 100)%Z /\
  (forall pos lagtime mpp msg,
      vanhove_disp pos lagtime mpp <> Raise (AssertionError msg)) /\
  vanhove_disp early 50 1 = Raise (NameError "frame").
Proof.
  split; [|split; [|split]].
  - eexists. split; [vm_compute; reflexivity|].
    split; [repeat constructor | reflexivity].
  - lia.
  - intros pos lagtime mpp msg. unfold vanhove_disp.
    cbv zeta.
    match goal with
    | |- context [densify ?f ?p] => destruct (densify f p) as [dense|e] eqn:Ed
    end; cbn [rbind].
    + destruct (zmaximum (labels dense)) as [top|e] eqn:Et; cbn [rbind].
      * unfold py_assert, vanhove_message.
        destruct (lagtime <=? top)%Z; cbn [rbind]; discriminate.
      * clear Ed. revert e Et.
        induction (labels dense) as [|a [|b l] IH]; intros e Et.
        -- injection Et as <-. discriminate.
        -- discriminate.
        -- change (rbind (zmaximum (b :: l)) (fun m => Ok (Z.max a m)) = Raise e) in Et.
           destruct (zmaximum (b :: l)) as [m|e'] eqn:Em; [discriminate|].
           injection Et as <-. now apply IH.
    + destruct pos as [cols [|[f0 v0] rows]]; cbn [prows columns] in Ed.
      * injection Ed as <-. discriminate.
      * rewrite densify_cons in Ed. unfold reindex in Ed.
        destruct (unique_labels _); [discriminate|].
        injection Ed as <-. discriminate.
  - vm_compute. reflexivity.
Qed.

(** * Dirt *)

Section Dirt.
Local Open Scope R_scope.

Lemma rmaximum_in l : forall v, In (rmaximum v l) (v :: l).
Proof.
  unfold rmaximum. induction l as [|a l IH]; intros v; cbn [fold_left].
  - now left.
  - destruct (IH (Rmax v a)) as [H|H].
    + rewrite <- H. unfold Rmax. destruct (Rle_dec v a); cbn; auto.
    + right. now right.
Qed.

Lemma rmaximum_ge l : forall v a, In a (v :: l) -> a <= rmaximum v l.
Proof.
  unfold rmaximum. induction l as [|b l IH]; intros v a Ha; cbn [fold_left].
  - destruct Ha as [->|[]]. apply Rle_refl.
  - destruct Ha as [->|[->|Ha]].
    + apply Rle_trans with (Rmax a b); [apply Rmax_l|]. apply IH. now left.
    + apply Rle_trans with (Rmax v a); [apply Rmax_r|]. apply IH. now left.
    + apply IH. now right.
Qed.

Lemma rminimum_in l : forall v, In (rminimum v l) (v :: l).
Proof.
  unfold rminimum. induction l as [|a l IH]; intros v; cbn [fold_left].
  - now left.
  - destruct (IH (Rmin v a)) as [H|H].
    + rewrite <- H. unfold Rmin. destruct (Rle_dec v a); cbn; auto.
    + right. now right.
Qed.

Lemma rminimum_le l : forall v a, In a (v :: l) -> rminimum v l <= a.
Proof.
  unfold rminimum. induction l as [|b l IH]; intros v a Ha; cbn [fold_left].
  - destruct Ha as [->|[]]. apply Rle_refl.
  - destruct Ha as [->|[->|Ha]].
    + apply Rle_trans with (Rmin a b); [|apply Rmin_l]. apply IH. now left.
    + apply Rle_trans with (Rmin v a); [|apply Rmin_r]. apply IH. now left.
    + apply IH. now right.
Qed.

(** The extent of a list of coordinates that takes the two values [a] and
    [b] and no other. *)
Lemma extent_two_values v l a b :
  (forall c, In c (v :: l) -> c = a \/ c = b) ->
  In a (v :: l) -> In b (v :: l) ->
  (rmaximum v l - rminimum v l) ^ 2 = (a - b) ^ 2.
Proof.
  intros Hall Ha Hb.
  pose proof (rmaximum_ge l v a Ha). pose proof (rmaximum_ge l v b Hb).
  pose proof (rminimum_le l v a Ha). pose proof (rminimum_le l v b Hb).
  destruct (Hall _ (rmaximum_in l v)) as [E1 | E1];
    destruct (Hall _ (rminimum_in l v)) as [E2 | E2];
    rewrite E1, E2 in *; try ring; assert (a = b) as -> by lra; ring.
Qed.

Lemma lookup_label_keyed {B} (h : Z -> B) keys p :
  In p keys -> lookup_label p (map (fun k => (k, h k)) keys) = Some (h p).
Proof.
  induction keys as [|k keys IH]; [intros []|].
  intros Hin. cbn [map lookup_label].
  destruct (Z.eqb_spec p k) as [->|Hne]; [reflexivity|].
  destruct Hin as [->|Hin]; [congruence | now apply IH].
Qed.

Lemma diag_size_two_points traj p x1 y1 x2 y2 :
  visits_exactly traj p x1 y1 x2 y2 ->
  diag_size (List.filter (fun r => (probe r =? p)%Z) traj)
  = sqrt ((x1 - x2) ^ 2 + (y1 - y2) ^ 2).
Proof.
  intros (Hall & (r1 & Hr1 & Hp1 & Hx1 & Hy1) & (r2 & Hr2 & Hp2 & Hx2 & Hy2)).
  set (g := List.filter (fun r => (probe r =? p)%Z) traj).
  assert (forall r, In r g <-> In r traj /\ probe r = p) as Hg.
  { intros r. unfold g. rewrite filter_In, Z.eqb_eq. reflexivity. }
  assert (In r1 g) as G1 by (apply Hg; auto).
  assert (In r2 g) as G2 by (apply Hg; auto).
  assert (forall r, In r g -> (x r = x1 /\ y r = y1) \/ (x r = x2 /\ y r = y2)) as Gall.
  { intros r Hr. apply Hg in Hr as [Hr Hp]. auto. }
  clearbody g. clear Hg Hall Hr1 Hr2.
  destruct g as [|r g]; [destruct G1|].
  unfold diag_size. f_equal. f_equal.
  - apply extent_two_values.
    + intros c Hc. change (x r :: map x g) with (map x (r :: g)) in Hc.
      apply in_map_iff in Hc as (r' & <- & Hr'). destruct (Gall r' Hr'); tauto.
    + rewrite <- Hx1. change (x r :: map x g) with (map x (r :: g)). now apply in_map.
    + rewrite <- Hx2. change (x r :: map x g) with (map x (r :: g)). now apply in_map.
  - apply extent_two_values.
    + intros c Hc. change (y r :: map y g) with (map y (r :: g)) in Hc.
      apply in_map_iff in Hc as (r' & <- & Hr'). destruct (Gall r' Hr'); tauto.
    + rewrite <- Hy1. change (y r :: map y g) with (map y (r :: g)). now apply in_map.
    + rewrite <- Hy2. change (y r :: map y g) with (map y (r :: g)). now apply in_map.
Qed.

Lemma is_not_dirt_two_points traj p x1 y1 x2 y2 threshold mpp :
  visits_exactly traj p x1 y1 x2 y2 ->
  lookup_label p (is_not_dirt traj threshold mpp)
  = Some (if Rlt_dec threshold (sqrt ((x1 - x2) ^ 2 + (y1 - y2) ^ 2))
          then true else false).
Proof.
  intros H. unfold is_not_dirt, groupby_probe. rewrite map_map. cbn [fst snd].
  rewrite (lookup_label_keyed
             (fun k => if Rlt_dec threshold
                            (diag_size (List.filter (fun r => (probe r =? k)%Z) traj))
                       then true else false)).
  - now rewrite (diag_size_two_points traj p x1 y1 x2 y2 H).
  - destruct H as (_ & (r1 & Hr1 & Hp1 & _) & _).
    apply in_sorted_unique. rewrite <- Hp1. now apply in_map.
Qed.

(** C4 (as amended): for a probe whose visited positions are exactly two
    points at distance [d], [is_not_dirt] answers true exactly when
    [d > threshold], whatever [mpp] is; this is the stated condition
    [d * mpp > threshold] when [mpp = 1]. *)
Theorem is_not_dirt_ignores_mpp :
  forall traj p x1 y1 x2 y2 threshold mpp,
    visits_exactly traj p x1 y1 x2 y2 ->
    let d := sqrt ((x1 - x2) ^ 2 + (y1 - y2) ^ 2) in
    (lookup_label p (is_not_dirt traj threshold mpp) = Some true <-> d > threshold) /\
    (lookup_label p (is_not_dirt traj threshold mpp) = Some false <-> ~ d > threshold) /\
    (mpp = 1 ->
     (lookup_label p (is_not_dirt traj threshold mpp) = Some true <-> d * mpp > threshold)).
Proof.
  intros traj p x1 y1 x2 y2 threshold mpp H d.
  rewrite (is_not_dirt_two_points traj p x1 y1 x2 y2 threshold mpp H).
  fold d. destruct (Rlt_dec threshold d) as [Hlt|Hnlt].
  - repeat split; intros; subst; try discriminate; try lra; tauto.
  - repeat split; intros; subst; try discriminate; try lra; try tauto.
Qed.

Lemma two_points_visits : visits_exactly two_points 1 0 0 2 0.
Proof.
  split; [|split].
  - intros r [<-|[<-|[<-|[]]]] _; cbn; auto.
  - exists (Row 0 1 0 0 0). cbn. auto.
  - exists (Row 1 1 1 2 0). cbn. auto 6.
Qed.

Lemma is_not_dirt_ignores_mpp_witness :
  lookup_label 1%Z (is_not_dirt two_points 3 2) = Some false.
Proof.
  destruct (is_not_dirt_ignores_mpp two_points 1%Z 0 0 2 0 3 2 two_points_visits)
    as (_ & H & _).
  apply H. intros Hgt.
  replace ((0 - 2) ^ 2 + (0 - 0) ^ 2) with (2 * 2) in Hgt by ring.
  rewrite sqrt_square in Hgt; lra.
Defined.

(** C4 as stated fails when [mpp] is not 1: the probe that visits (0,0) and
    (2,0) has d = 2, so d * mpp = 4 exceeds the threshold 3 at [mpp = 2],
    and [is_not_dirt] answers false. *)
Lemma is_not_dirt_mpp_counterexample :
  visits_exactly two_points 1 0 0 2 0 /\
  ~ (lookup_label 1%Z (is_not_dirt two_points 3 2) = Some true <->
     sqrt ((0 - 2) ^ 2 + (0 - 0) ^ 2) * 2 > 3).
Proof.
  split; [exact two_points_visits|]. intros [_ H].
  rewrite (is_not_dirt_two_points two_points 1 0 0 2 0 3 2 two_points_visits) in H.
  replace ((0 - 2) ^ 2 + (0 - 0) ^ 2) with (2 * 2) in H by ring.
  rewrite sqrt_square in H by lra.
  destruct (Rlt_dec 3 2) as [Hlt|_]; [lra|].
  assert (Some false = Some true) by (apply H; lra). discriminate.
Qed.

End Dirt.

(** * Two-point correlator *)

Section TwoPoint.
Local Open Scope R_scope.

Lemma separation_nonzero x1 y1 x2 y2 :
  (x1, y1) <> (x2, y2) ->
  0 < sqrt ((x1 - x2) * (x1 - x2) + (y1 - y2) * (y1 - y2)).
Proof.
  intros Hne. apply sqrt_lt_R0.
  destruct (Req_EM_T x1 x2) as [->|Hx].
  - assert (y1 - y2 <> 0) as Hy by (intros E; apply Hne; f_equal; lra).
    pose proof (Rsqr_pos_lt _ Hy) as Hs. unfold Rsqr in Hs. nra.
  - assert (x1 - x2 <> 0) as Hx' by lra.
    pose proof (Rsqr_pos_lt _ Hx') as Hs. pose proof (Rle_0_sqr (y1 - y2)) as Hs'.
    unfold Rsqr in Hs, Hs'. lra.
Qed.

(** The loop body on a frame where both probes have a position and a
    displacement and do not coincide. *)
Lemma tp_pair_defined x1 y1 x2 y2 dx1 dy1 dx2 dy2 :
  (x1, y1) <> (x2, y2) ->
  let Rx := x1 - x2 in
  let Ry := y1 - y2 in
  let R := sqrt (Rx * Rx + Ry * Ry) in
  tp_pair (PCols (Some x1) (Some y1) (Some dx1) (Some dy1))
          (PCols (Some x2) (Some y2) (Some dx2) (Some dy2))
  = (Some R,
     (Some ((dx1 * (Rx / R) + dy1 * (Ry / R)) * (dx2 * (Rx / R) + dy2 * (Ry / R))),
      Some ((dx1 * (Ry / R) + dy1 * - (Rx / R)) * (dx2 * (Ry / R) + dy2 * - (Rx / R))))).
Proof.
  intros Hne Rx Ry R. pose proof (separation_nonzero _ _ _ _ Hne) as HR.
  unfold tp_pair, rdiv, rsqrt, radd, rmul, rsub, ropp, rlift2.
  cbn [px py pdx pdy option_map]. fold Rx Ry R.
  destruct (Req_EM_T R 0) as [E|_]; [unfold R, Rx, Ry in E; lra | reflexivity].
Qed.

(** With one displacement (dx, dy) for both probes, [para] and [perp] are
    the squares of its components along and across the line that joins the
    probes. *)
Lemma same_disp_components Rx Ry dx dy :
  0 < sqrt (Rx * Rx + Ry * Ry) ->
  let R := sqrt (Rx * Rx + Ry * Ry) in
  let para := (dx * (Rx / R) + dy * (Ry / R)) * (dx * (Rx / R) + dy * (Ry / R)) in
  let perp := (dx * (Ry / R) + dy * - (Rx / R)) * (dx * (Ry / R) + dy * - (Rx / R)) in
  para + perp = dx * dx + dy * dy /\
  0 <= para /\ 0 <= perp /\
  (perp = 0 <-> dx * Ry - dy * Rx = 0) /\
  (para = dx * dx + dy * dy <-> dx * Ry - dy * Rx = 0).
Proof.
  intros HR R para perp. fold R in HR.
  assert (R * R = Rx * Rx + Ry * Ry) as HRR.
  { unfold R. apply sqrt_sqrt. nra. }
  assert ((Rx / R) * (Rx / R) + (Ry / R) * (Ry / R) = 1) as Hunit.
  { field_simplify; [|lra]. replace (R ^ 2) with (R * R) by ring.
    rewrite HRR. field. nra. }
  assert (para + perp = dx * dx + dy * dy) as Hsum.
  { unfold para, perp.
    replace ((dx * (Rx / R) + dy * (Ry / R)) * (dx * (Rx / R) + dy * (Ry / R)) +
             (dx * (Ry / R) + dy * - (Rx / R)) * (dx * (Ry / R) + dy * - (Rx / R)))
      with ((dx * dx + dy * dy) * ((Rx / R) * (Rx / R) + (Ry / R) * (Ry / R))) by ring.
    rewrite Hunit. ring. }
  assert (perp = (dx * Ry - dy * Rx) * (dx * Ry - dy * Rx) / (R * R)) as Hperp.
  { unfold perp. field. lra. }
  assert (perp = 0 <-> dx * Ry - dy * Rx = 0) as Hzero.
  { rewrite Hperp. split.
    - intros H. apply (Rmult_eq_compat_r (R * R)) in H.
      unfold Rdiv in H. rewrite Rmult_assoc, Rinv_l, Rmult_1_r, Rmult_0_l in H by nra.
      nra.
    - intros ->. unfold Rdiv. ring. }
  split; [exact Hsum|].
  split; [unfold para; match goal with |- 0 <= ?t * ?t => exact (Rle_0_sqr t) end|].
  split; [unfold perp; match goal with |- 0 <= ?t * ?t => exact (Rle_0_sqr t) end|].
  split; [exact Hzero|]. rewrite <- Hzero. lra.
Qed.

Lemma mapM_keys {A B} (F : A -> result B) (l : list (Z * A)) out :
  mapM (fun g => let* c := F (snd g) in Ok (fst g, c)) l = Ok out ->
  map fst out = map fst l.
Proof.
  revert out. induction l as [|[k a] l IH]; intros out; cbn [mapM rbind].
  - now intros [= <-].
  - cbn [snd fst]. destruct (F a) as [c|e]; cbn [rbind]; [|discriminate].
    destruct (mapM _ l) as [bs|e]; cbn [rbind]; [|discriminate].
    intros [= <-]. cbn. f_equal. now apply IH.
Qed.

Lemma tp_dr_keys traj lagframe dr :
  tp_dr traj lagframe = Ok dr ->
  map fst dr = sorted_unique (map probe traj).
Proof.
  unfold tp_dr. destruct (mapM _ (groupby_probe traj)) as [out|e] eqn:E;
    cbn [rbind]; [|discriminate].
  destruct out as [|o out]; [discriminate|]. intros [= <-].
  rewrite (mapM_keys (fun t => probe_cols t lagframe) _ _ E). unfold groupby_probe. rewrite map_map. cbn [fst].
  apply map_id.
Qed.

Lemma lookup_label_some_in {A} f (s : indexed A) v :
  lookup_label f s = Some v -> In (f, v) s.
Proof.
  induction s as [|[g w] s IH]; cbn [lookup_label]; [discriminate|].
  destruct (Z.eqb_spec f g) as [->|_].
  - intros [= ->]. now left.
  - intros H. right. now apply IH.
Qed.

(** A probe whose columns in [dr] hold a position at a frame is one of the
    probes of [dr], and the frame is in the index of [dr]. *)
Lemma dr_at_defined dr p f v :
  px (dr_at dr p f) = Some v ->
  In p (map fst dr) /\
  In f (sorted_unique (flat_map (fun g => labels (snd g)) dr)).
Proof.
  unfold dr_at. intros Hpx.
  destruct (lookup_label p dr) as [s|] eqn:Es; [|discriminate].
  destruct (lookup_label f s) as [w|] eqn:Ew; [|discriminate].
  apply lookup_label_some_in in Es. apply lookup_label_some_in in Ew. split.
  - apply in_map_iff. exists (p, s). auto.
  - apply in_sorted_unique, in_flat_map. exists (p, s). split; [assumption|].
    cbn [snd]. apply in_map_iff. exists (f, w). auto.
Qed.

Lemma pair_rows_in dr p1 p2 f row :
  In f (sorted_unique (flat_map (fun g => labels (snd g)) dr)) ->
  dropna_row f (tp_pair (dr_at dr p1 f) (dr_at dr p2 f)) = [(f, row)] ->
  In (f, row) (pair_rows dr p1 p2).
Proof.
  intros Hf Hrow. unfold pair_rows. apply in_flat_map. exists f.
  split; [assumption|]. rewrite Hrow. now left.
Qed.

(** The rows of a pair of probes of the table are rows of the result. *)
Lemma _tp_corr_pair_rows traj lagframe dr p1 p2 r :
  tp_dr (set_index_frame traj) lagframe = Ok dr ->
  In p1 (map fst dr) -> In p2 (map fst dr) -> (p1 < p2)%Z ->
  In r (pair_rows dr p1 p2) ->
  exists rows, snd (_tp_corr traj lagframe) = Ok rows /\ In r rows.
Proof.
  intros Hdr H1 H2 Hlt Hr. unfold _tp_corr. cbn [snd]. rewrite Hdr. cbn [rbind].
  rewrite (tp_dr_keys _ _ _ Hdr) in H1, H2.
  set (ids := sorted_unique (map probe (set_index_frame traj))) in *.
  set (D := flat_map _ ids).
  assert (In (pair_rows dr p1 p2) D) as HD.
  { unfold D. apply in_flat_map. exists p1. split; [assumption|].
    apply in_map. apply filter_In. split; [assumption|]. now apply Z.ltb_lt. }
  destruct D as [|d0 D']; [destruct HD|].
  eexists. split; [reflexivity|]. apply in_concat.
  exists (pair_rows dr p1 p2). auto.
Qed.

(** C3 (as amended): on a frame where two distinct probes at different
    positions have one and the same displacement (dx, dy) at the lag, the
    correlator produces one row for the pair, with [R] their distance.  With
    [n] the unit vector along the line that joins the probes and [p] the
    vector [n] turned by a right angle, [para] is the square of the
    component [disp . n] and [perp] the square of the component [disp . p],
    so [para + perp = |disp|^2]; [para = |disp|^2] and [perp = 0] hold
    exactly when the displacement is parallel to that line. *)
Theorem tp_same_displacement traj lagframe dr p1 p2 f x1 y1 x2 y2 dx dy :
  tp_dr (set_index_frame traj) lagframe = Ok dr ->
  (p1 < p2)%Z ->
  dr_at dr p1 f = PCols (Some x1) (Some y1) (Some dx) (Some dy) ->
  dr_at dr p2 f = PCols (Some x2) (Some y2) (Some dx) (Some dy) ->
  (x1, y1) <> (x2, y2) ->
  exists row rows,
    dropna_row f (tp_pair (dr_at dr p1 f) (dr_at dr p2 f)) = [(f, row)] /\
    snd (_tp_corr traj lagframe) = Ok rows /\ In (f, row) rows /\
    tp_R row = sqrt ((x1 - x2) * (x1 - x2) + (y1 - y2) * (y1 - y2)) /\
    (exists n_x n_y,
        n_x = (x1 - x2) / tp_R row /\ n_y = (y1 - y2) / tp_R row /\
        n_x * n_x + n_y * n_y = 1 /\
        tp_para row = (dx * n_x + dy * n_y) * (dx * n_x + dy * n_y) /\
        tp_perp row = (dx * n_y - dy * n_x) * (dx * n_y - dy * n_x)) /\
    tp_para row + tp_perp row = dx * dx + dy * dy /\
    0 <= tp_para row /\ 0 <= tp_perp row /\
    (tp_perp row = 0 <-> dx * (y1 - y2) - dy * (x1 - x2) = 0) /\
    (tp_para row = dx * dx + dy * dy <-> dx * (y1 - y2) - dy * (x1 - x2) = 0).
Proof.
  intros Hdr Hlt Ha Hb Hne.
  pose proof (tp_pair_defined _ _ _ _ dx dy dx dy Hne) as Hp. cbv zeta in Hp.
  pose proof (separation_nonzero _ _ _ _ Hne) as HR.
  pose proof (same_disp_components (x1 - x2) (y1 - y2) dx dy HR) as Hc.
  cbv zeta in Hc.
  destruct (dr_at_defined dr p1 f x1) as [Hp1 Hf]; [now rewrite Ha|].
  destruct (dr_at_defined dr p2 f x2) as [Hp2 _]; [now rewrite Hb|].
  rewrite <- Ha, <- Hb in Hp.
  match type of Hp with
  | _ = (Some ?r, (Some ?pa, Some ?pe)) => exists (TpRow r pa pe);
      assert (dropna_row f (tp_pair (dr_at dr p1 f) (dr_at dr p2 f))
              = [(f, TpRow r pa pe)]) as Hrow by (rewrite Hp; reflexivity)
  end.
  destruct (_tp_corr_pair_rows traj lagframe dr p1 p2 _ Hdr Hp1 Hp2 Hlt
              (pair_rows_in dr p1 p2 f _ Hf Hrow)) as (rows & Hrows & Hin).
  exists rows. split; [exact Hrow|]. split; [exact Hrows|]. split; [exact Hin|].
  cbn [tp_R tp_para tp_perp]. split; [reflexivity|]. split; [|exact Hc].
  set (R := sqrt ((x1 - x2) * (x1 - x2) + (y1 - y2) * (y1 - y2))) in *.
  exists ((x1 - x2) / R), ((y1 - y2) / R).
  split; [reflexivity|]. split; [reflexivity|].
  assert (R * R = (x1 - x2) * (x1 - x2) + (y1 - y2) * (y1 - y2)) as HRR.
  { unfold R. apply sqrt_sqrt.
    pose proof (Rle_0_sqr (x1 - x2)) as Sx. pose proof (Rle_0_sqr (y1 - y2)) as Sy.
    unfold Rsqr in Sx, Sy. lra. }
  clearbody R. assert (R <> 0) as HR0 by lra.
  split.
  - transitivity (((x1 - x2) * (x1 - x2) + (y1 - y2) * (y1 - y2)) / (R * R));
      [field; assumption | rewrite <- HRR; field; assumption].
  - split; ring.
Qed.

Lemma abreast_tp_dr : tp_dr (set_index_frame abreast) 1 = Ok abreast_dr.
Proof. reflexivity. Qed.

Lemma sidestep_tp_dr : tp_dr (set_index_frame sidestep) 1 = Ok sidestep_dr.
Proof. reflexivity. Qed.

Lemma pcols_eq a b c d a' b' c' d' :
  a = a' -> b = b' -> c = c' -> d = d' ->
  PCols (Some a) (Some b) (Some c) (Some d)
  = PCols (Some a') (Some b') (Some c') (Some d').
Proof. now intros -> -> -> ->. Qed.

Lemma oblique_tp_dr : tp_dr (set_index_frame oblique) 1 = Ok oblique_dr.
Proof. reflexivity. Qed.

Lemma sqrt_unit_level : sqrt ((1 - 2) * (1 - 2) + (1 - 1) * (1 - 1)) = 1.
Proof.
  replace ((1 - 2) * (1 - 2) + (1 - 1) * (1 - 1)) with (1 * 1) by ring.
  apply sqrt_square. lra.
Qed.

(** Two probes side by side that both step by (1, 1): the displacement is
    neither along nor across the line that joins them, and [para] and [perp]
    are 1 each where the squared length of the displacement is 2. *)
Lemma tp_same_displacement_witness :
  exists row rows,
    snd (_tp_corr oblique 1) = Ok rows /\ In (1%Z, row) rows /\
    tp_R row = 1 /\ tp_para row = 1 /\ tp_perp row = 1 /\
    1 * 1 + 1 * 1 = 2.
Proof.
  assert ((1, 1) <> (2, 1)) as Hne by (intros [= H]; lra).
  destruct (tp_same_displacement oblique 1 oblique_dr 1 2 1 1 1 2 1 1 1)
    as (row & rows & _ & Hrows & Hin & HR & (n_x & n_y & Hnx & Hny & _ & Hpara & Hperp) & _).
  - exact oblique_tp_dr.
  - reflexivity.
  - apply pcols_eq; lra.
  - apply pcols_eq; lra.
  - exact Hne.
  - rewrite sqrt_unit_level in HR. rewrite HR in Hnx, Hny.
    exists row, rows. split; [exact Hrows|]. split; [exact Hin|].
    split; [exact HR|].
    split; [rewrite Hpara, Hnx, Hny; field|].
    split; [rewrite Hperp, Hnx, Hny; field | ring].
Defined.

(** Evaluation of the table functions on a sample: the list structure is
    computed, the real arithmetic is left to [field] and [lra]. *)
Ltac tp_eval :=
  lazy -[Rplus Rminus Rmult Rdiv Ropp Rinv sqrt IZR Req_EM_T Req_dec_T].

Lemma tp_row_eq a b c a' b' c' :
  a = a' -> b = b' -> c = c' -> TpRow a b c = TpRow a' b' c'.
Proof. now intros -> -> ->. Qed.

Lemma sqrt_unit_x : sqrt ((0 - 1) * (0 - 1) + (1 - 1) * (1 - 1)) = 1.
Proof.
  replace ((0 - 1) * (0 - 1) + (1 - 1) * (1 - 1)) with (1 * 1) by ring.
  apply sqrt_square. lra.
Qed.

Lemma sidestep_tp_corr :
  snd (_tp_corr sidestep 1) = Ok [(1%Z, TpRow 1 0 1)].
Proof.
  tp_eval. rewrite sqrt_unit_x.
  destruct (Req_dec_T 1 0) as [E|_]; [lra|].
  do 3 f_equal. apply tp_row_eq; field.
Qed.

(** C3 as stated fails when the common displacement is not along the line
    that joins the probes: two probes side by side on the x axis that both
    step by (0, 1) give the row (R, para, perp) = (1, 0, 1) at frame 1, and
    not [para = 1], [perp = 0]. *)
Lemma tp_same_displacement_counterexample :
  snd (_tp_corr sidestep 1) = Ok [(1%Z, TpRow 1 0 1)] /\
  ~ same_disp_claim sidestep 1.
Proof.
  split; [exact sidestep_tp_corr|].
  intros H.
  assert ((0, 1) <> (1, 1)) as Hne by (intros [= E]; lra).
  assert (dr_at sidestep_dr 1 1 = PCols (Some 0) (Some 1) (Some 0) (Some 1)) as Ha
    by (apply pcols_eq; lra).
  assert (dr_at sidestep_dr 2 1 = PCols (Some 1) (Some 1) (Some 0) (Some 1)) as Hb
    by (apply pcols_eq; lra).
  destruct (H sidestep_dr 1%Z 2%Z 1%Z 0 1 1 1 0 1 sidestep_tp_dr eq_refl Ha Hb Hne)
    as (R0 & HR).
  rewrite Ha, Hb, (tp_pair_defined _ _ _ _ 0 1 0 1 Hne) in HR.
  cbn [dropna_row] in HR. injection HR as _ _ Hperp.
  pose proof (same_disp_components (0 - 1) (1 - 1) 0 1
                (separation_nonzero _ _ _ _ Hne)) as (_ & _ & _ & Hz & _).
  cbv zeta in Hz. apply Hz in Hperp. lra.
Qed.

Lemma scale_rows_1 rows : scale_rows 1 1 1 rows = rows.
Proof.
  unfold scale_rows. rewrite <- (map_id rows) at 2. apply map_ext.
  intros [r pa pe]. cbn. now rewrite !Rmult_1_r.
Qed.

Lemma scale_rows_scale a b c a' b' c' rows :
  scale_rows a' b' c' (scale_rows a b c rows)
  = scale_rows (a * a') (b * b') (c * c') rows.
Proof.
  unfold scale_rows. rewrite map_map. apply map_ext. intros [r pa pe]. cbn.
  now rewrite !Rmult_assoc.
Qed.

Lemma tp_corr_scales traj mpp fps lagframes :
  snd (tp_corr traj mpp fps lagframes)
  = match snd (tp_corr traj 1 fps lagframes) with
    | Ok rows => Ok (scale_rows mpp mpp mpp rows)
    | Raise e => Raise e
    end.
Proof.
  unfold tp_corr. destruct (tp_corr_loop traj lagframes) as [t' [[|d ds]|e]];
    cbn [snd]; try reflexivity.
  fold (scale_rows mpp mpp mpp (map snd (concat (d :: ds)))).
  fold (scale_rows 1 1 1 (map snd (concat (d :: ds)))).
  now rewrite scale_rows_1.
Qed.

Lemma sqrt_unit_x' : sqrt ((1 - 2) * (1 - 2) + (0 - 0) * (0 - 0)) = 1.
Proof.
  replace ((1 - 2) * (1 - 2) + (0 - 0) * (0 - 0)) with (1 * 1) by ring.
  apply sqrt_square. lra.
Qed.

Lemma abreast_tp_corr mpp :
  snd (tp_corr abreast mpp 1 [1%Z]) = Ok [TpRow mpp mpp 0].
Proof.
  tp_eval. rewrite sqrt_unit_x'.
  destruct (Req_dec_T 1 0) as [E|_]; [lra|].
  f_equal. f_equal. apply tp_row_eq; field.
Qed.

(** C6: [tp_corr] multiplies its whole table by [mpp] once, so the
    products [para] and [perp] scale linearly in [mpp] like [R], not with
    its square.  For two probes side by side that both step by (1, 0) the
    row is (R, para, perp) = (1, 1, 0) at [mpp = 1] and (2, 2, 0) at
    [mpp = 2], where scaling [para] by the square would give 4. *)
Theorem tp_corr_scales_linearly :
  (forall traj mpp fps lagframes,
      snd (tp_corr traj mpp fps lagframes)
      = match snd (tp_corr traj 1 fps lagframes) with
        | Ok rows => Ok (scale_rows mpp mpp mpp rows)
        | Raise e => Raise e
        end) /\
  snd (tp_corr abreast 1 1 [1%Z]) = Ok [TpRow 1 1 0] /\
  snd (tp_corr abreast 2 1 [1%Z]) = Ok [TpRow 2 2 0] /\
  snd (tp_corr abreast 2 1 [1%Z])
  <> Ok (scale_rows 2 (2 * 2) (2 * 2) [TpRow 1 1 0]).
Proof.
  split; [exact tp_corr_scales|]. split; [apply abreast_tp_corr|].
  split; [apply abreast_tp_corr|].
  rewrite abreast_tp_corr. cbn [scale_rows map tp_R tp_para tp_perp].
  intros [= H1 H2]. lra.
Qed.

End TwoPoint.

(** * Ensemble MSD *)

Section Ensemble.
Local Open Scope Q_scope.

Lemma reindex_forall {A} (P : A -> Prop) (fill : A) (s d : indexed A) new_labels :
  P fill -> Forall (fun r => P (snd r)) s ->
  reindex fill s new_labels = Ok d -> Forall (fun r => P (snd r)) d.
Proof.
  intros Hfill Hs. unfold reindex. destruct (unique_labels _); [|discriminate].
  intros [= <-]. apply List.Forall_forall. intros r Hr.
  apply in_map_iff in Hr as (f & <- & _). cbn [snd].
  destruct (lookup_label f s) as [v|] eqn:E; [|assumption].
  apply lookup_label_some_in in E.
  rewrite List.Forall_forall in Hs. exact (Hs _ E).
Qed.

Lemma densify_forall {A} (P : A -> Prop) (fill : A) (pos d : indexed A) :
  P fill -> Forall (fun r => P (snd r)) pos ->
  densify fill pos = Ok d -> Forall (fun r => P (snd r)) d.
Proof.
  intros Hfill Hs. destruct pos as [|[f0 v0] pos']; [discriminate|].
  rewrite densify_cons. now apply reindex_forall.
Qed.

Lemma nth_forall {A} (P : A -> Prop) (l : list A) d i :
  P d -> Forall P l -> P (nth i l d).
Proof.
  intros Hd Hl. destruct (nth_in_or_default i l d) as [H| ->]; [|assumption].
  rewrite List.Forall_forall in Hl. auto.
Qed.

Lemma shift_forall {A} (P : A -> Prop) (fill : A) lt (s : indexed A) :
  P fill -> Forall (fun r => P (snd r)) s ->
  Forall (fun r => P (snd r)) (shift fill lt s).
Proof.
  intros Hfill Hs. unfold shift. apply List.Forall_forall. intros r Hr.
  apply in_map_iff in Hr as (i & <- & _). cbn [snd].
  destruct (0 <=? Z.of_nat i - lt)%Z; [|assumption].
  apply (nth_forall (fun r => P (snd r))); assumption.
Qed.

Lemma psub_paired a b : paired a -> paired b -> paired (psub a b).
Proof. destruct a as [[?|] [?|]], b as [[?|] [?|]]; cbn; tauto. Qed.

Lemma zip_rows_paired (a b : indexed (cell * cell)) :
  Forall (fun r => paired (snd r)) a -> Forall (fun r => paired (snd r)) b ->
  Forall (fun r => paired (snd r)) (zip_rows psub a b).
Proof.
  intros Ha. revert b. induction Ha as [|[l u] a Hu Ha IH]; intros b Hb; [constructor|].
  destruct Hb as [|[l' v] b Hv Hb]; [constructor|].
  cbn [zip_rows]. constructor; [now apply psub_paired | now apply IH].
Qed.

Lemma pos_of_paired traj : Forall (fun r => paired (snd r)) (pos_of traj).
Proof. unfold pos_of. apply List.Forall_forall. intros r Hr.
  apply in_map_iff in Hr as (r' & <- & _). exact I. Qed.

Lemma displacement_paired pos lt :
  Forall (fun r => paired (snd r)) pos ->
  Forall (fun r => paired (snd r)) (displacement pos lt).
Proof.
  intros H. apply zip_rows_paired; [assumption|].
  apply (shift_forall paired); [exact I | assumption].
Qed.

Lemma count_paired (d : indexed (cell * cell)) :
  Forall (fun r => paired (snd r)) d -> count (xs_of d) = count (ys_of d).
Proof.
  unfold count, xs_of, ys_of, somes.
  induction 1 as [|[l [[u|] [v|]]] d Hp _ IH]; cbn in *;
    rewrite ?length_app in *; cbn; try tauto; lia.
Qed.

Lemma somes_squares l : somes (squares l) = map (fun v => v * v) (somes l).
Proof.
  unfold somes, squares. induction l as [|[v|] l IH]; cbn; [reflexivity| |assumption].
  now rewrite IH.
Qed.

Lemma count_squares l : count (squares l) = count l.
Proof. unfold count. now rewrite somes_squares, length_map. Qed.

Lemma mean_skipna_some l v : mean_skipna l = Some v -> (0 < count l)%nat.
Proof.
  unfold mean_skipna, count. destruct (somes l); [discriminate|]. cbn. lia.
Qed.

(** Where the sum of nothing is missing, a row with an MSD value rests on
    at least one displacement. *)
Lemma msd_col_count {pd : pandas} pos mpp fps lts detail lt v :
  sum_of_nothing_is_zero = false ->
  Forall (fun r => paired (snd r)) pos ->
  msd_col (msd_row_at pos mpp fps lts detail lt) = Some v ->
  (0 < count (xs_of (displacement pos lt)))%nat.
Proof.
  intros Hnan Hp. cbn [msd_col msd_row_at]. set (d := displacement pos lt).
  pose proof (count_paired d (displacement_paired pos lt Hp)) as Hc.
  unfold cscale, sum_skipna.
  destruct (mean_skipna (squares (xs_of d))) as [a|] eqn:Ex.
  - intros _. apply mean_skipna_some in Ex. now rewrite count_squares in Ex.
  - destruct (mean_skipna (squares (ys_of d))) as [b|] eqn:Ey.
    + intros _. apply mean_skipna_some in Ey. rewrite count_squares in Ey. lia.
    + cbn [somes flat_map app]. rewrite Hnan. discriminate.
Qed.

Lemma lookup_label_combine (keys vals : list Z) k z :
  lookup_label k (combine keys vals) = Some z -> In z vals.
Proof.
  intros H. apply lookup_label_some_in in H. eapply in_combine_r; eassumption.
Qed.

(** A sample count is never negative. *)
Lemma N_of_nonneg {pd : pandas} pos mpp fps lts lt n :
  (forall z, In z lts -> (1 <= z)%Z) ->
  N_of (msd_row_at pos mpp fps lts true lt) = Some n -> 0 <= n.
Proof.
  intros Hlts. unfold N_of. cbn [N msd_row_at]. unfold lagtimes_series.
  destruct (lookup_label lt (combine _ lts)) as [z|] eqn:E; cbn [option_map cdiv cscale];
    [|discriminate].
  apply lookup_label_combine in E. apply Hlts in E.
  destruct (Qeq_bool (inject_Z z) 0); [discriminate|]. cbn [option_map].
  intros [= <-].
  assert (0 <= inject_Z (Z.of_nat (count (xs_of (displacement pos lt))))) as H1.
  { change 0 with (inject_Z 0). rewrite <- Zle_Qle. lia. }
  assert (0 < inject_Z z) as H2.
  { change 0 with (inject_Z 0). rewrite <- Zlt_Qlt. lia. }
  apply Qmult_le_0_compat; [discriminate|].
  apply Qle_shift_div_l; [assumption|]. now rewrite Qmult_0_l.
Qed.

(** The sample count of a row that rests on a displacement is positive. *)
Lemma N_of_positive {pd : pandas} pos mpp fps lts lt n :
  (forall z, In z lts -> (1 <= z)%Z) ->
  (0 < count (xs_of (displacement pos lt)))%nat ->
  N_of (msd_row_at pos mpp fps lts true lt) = Some n -> 0 < n.
Proof.
  intros Hlts Hc. unfold N_of. cbn [N msd_row_at]. unfold lagtimes_series.
  destruct (lookup_label lt (combine _ lts)) as [z|] eqn:E; cbn [option_map cdiv cscale];
    [|discriminate].
  apply lookup_label_combine in E. apply Hlts in E.
  destruct (Qeq_bool (inject_Z z) 0); [discriminate|]. cbn [option_map].
  intros [= <-].
  assert (0 < inject_Z (Z.of_nat (count (xs_of (displacement pos lt))))) as H1.
  { change 0 with (inject_Z 0). rewrite <- Zlt_Qlt. lia. }
  assert (0 < inject_Z z) as H2.
  { change 0 with (inject_Z 0). rewrite <- Zlt_Qlt. lia. }
  apply Qmult_lt_0_compat; [reflexivity|].
  apply Qlt_shift_div_l; [assumption|]. now rewrite Qmult_0_l.
Qed.

(** The shape of what [msd] returns: rows of distinct lags, each the row
    of its lag over the densified positions. *)
Lemma msd_rows_shape {pd : pandas} traj mpp fps m detail rows :
  msd traj mpp fps m detail = Ok rows ->
  List.NoDup (map lag rows) /\
  exists pos,
    Forall (fun r => paired (snd r)) pos /\
    forall r, In r rows ->
      r = msd_row_at pos mpp fps (lagtimes traj m) detail (lag r).
Proof.
  intros H. split.
  - destruct (msd_rows_lags _ _ _ _ _ _ H) as [E| ->]; [|constructor].
    rewrite E, lagtimes_arange, removelast_arange. apply NoDup_arange.
  - unfold msd in H.
    destruct (densify nan2 (pos_of traj)) as [pos|e] eqn:Ed; [|discriminate].
    cbn [rbind] in H. exists pos. split.
    { apply (densify_forall paired nan2 (pos_of traj)); [exact I | apply pos_of_paired | assumption]. }
    destruct (lagtimes traj m) as [|l0 lts] eqn:E; [discriminate|].
    injection H as <-. intros r Hr.
    destruct pos as [|p pos]; [destruct Hr|].
    apply in_removelast in Hr.
    change (In r (map (msd_row_at (p :: pos) mpp fps (l0 :: lts) detail) (l0 :: lts))) in Hr.
    apply in_map_iff in Hr as (lt & <- & _). reflexivity.
Qed.

Lemma msd_row_N_positive {pd : pandas} traj mpp fps m rows r v n :
  sum_of_nothing_is_zero = false ->
  msd traj mpp fps m true = Ok rows -> In r rows ->
  msd_col r = Some v -> N_of r = Some n -> 0 < n.
Proof.
  intros Hnan H Hr Hv Hn.
  destruct (msd_rows_shape _ _ _ _ _ _ H) as (_ & pos & Hp & Hs).
  specialize (Hs r Hr). rewrite Hs in Hv, Hn.
  apply (N_of_positive pos mpp fps (lagtimes traj m) (lag r)).
  - intros z Hz. apply in_lagtimes in Hz. lia.
  - apply (msd_col_count pos mpp fps (lagtimes traj m) true (lag r) v Hnan Hp Hv).
  - exact Hn.
Qed.

Lemma msd_row_N_nonneg {pd : pandas} traj mpp fps m rows r n :
  msd traj mpp fps m true = Ok rows -> In r rows ->
  N_of r = Some n -> 0 <= n.
Proof.
  intros H Hr Hn.
  destruct (msd_rows_shape _ _ _ _ _ _ H) as (_ & pos & Hp & Hs).
  specialize (Hs r Hr). rewrite Hs in Hn.
  apply (N_of_nonneg pos mpp fps (lagtimes traj m) (lag r)); [|exact Hn].
  intros z Hz. apply in_lagtimes in Hz. lia.
Qed.

Lemma filter_no_lag rows l :
  ~ In l (map lag rows) -> List.filter (fun r => (lag r =? l)%Z) rows = [].
Proof.
  induction rows as [|a rows IH]; [reflexivity|]. cbn [map List.filter]. intros H.
  destruct (Z.eqb_spec (lag a) l) as [E|_].
  - exfalso. apply H. now left.
  - apply IH. intros Hin. apply H. now right.
Qed.

Lemma row_at_no_lag rows l :
  ~ In l (map lag rows) -> row_at l rows = None.
Proof.
  unfold row_at. induction rows as [|a rows IH]; [reflexivity|]. cbn [map find]. intros H.
  destruct (Z.eqb_spec (lag a) l) as [E|_].
  - exfalso. apply H. now left.
  - apply IH. intros Hin. apply H. now right.
Qed.

Lemma filter_row_at rows l :
  List.NoDup (map lag rows) ->
  List.filter (fun r => (lag r =? l)%Z) rows
  = match row_at l rows with Some r => [r] | None => [] end.
Proof.
  unfold row_at. induction rows as [|a rows IH]; [reflexivity|].
  cbn [map List.filter find]. intros Hnd. inversion Hnd as [|? ? Hn Hnd']; subst.
  destruct (Z.eqb_spec (lag a) l) as [E|_].
  - subst l. now rewrite (filter_no_lag rows (lag a) Hn).
  - now apply IH.
Qed.

Lemma rows_at_chosen l per :
  (forall g, In g per -> List.NoDup (map lag (snd g))) ->
  rows_at l per = chosen_rows l per.
Proof.
  unfold rows_at, chosen_rows. induction per as [|g per IH]; [reflexivity|].
  intros H. cbn [flat_map]. rewrite filter_row_at by (apply H; now left).
  f_equal. apply IH. intros g' Hg'. apply H. now right.
Qed.

Lemma mapM_in {A B} (F : A -> result B) l out b :
  mapM F l = Ok out -> In b out -> exists a, In a l /\ F a = Ok b.
Proof.
  revert out. induction l as [|a l IH]; intros out; cbn [mapM rbind].
  - intros [= <-] [].
  - destruct (F a) as [b0|e] eqn:Ea; cbn [rbind]; [|discriminate].
    destruct (mapM F l) as [bs|e]; cbn [rbind]; [|discriminate].
    intros [= <-] [<-|Hb].
    + exists a. split; [now left | assumption].
    + destruct (IH bs eq_refl Hb) as (a' & Ha' & E). exists a'. split; [now right | assumption].
Qed.

Lemma probe_msds_in {pd : pandas} traj mpp fps m detail per g :
  probe_msds traj mpp fps m detail = Ok per -> In g per ->
  exists ptraj, msd ptraj mpp fps m detail = Ok (snd g).
Proof.
  intros H Hg. unfold probe_msds in H.
  destruct (mapM_in _ _ _ _ H Hg) as ([p ptraj] & _ & E). cbn [fst snd] in E.
  exists ptraj. destruct (msd ptraj mpp fps m detail) as [rows|e]; [|discriminate].
  cbn [rbind] in E. injection E as <-. reflexivity.
Qed.

Lemma row_at_some l rows r : row_at l rows = Some r -> In r rows /\ lag r = l.
Proof.
  unfold row_at. intros H. apply find_some in H as [Hin E].
  split; [assumption | now apply Z.eqb_eq].
Qed.

(** The columns of the chosen rows, when every probe has its values. *)
Lemma chosen_columns l per vw :
  probe_values l per vw ->
  map (fun r => cmul (msd_col r) (N_of r)) (chosen_rows l per)
  = map Some (map (fun p => fst p * snd p) vw) /\
  map N_of (chosen_rows l per) = map Some (map snd vw) /\
  Forall2 (fun g r => In r (snd g) /\ lag r = l) per (chosen_rows l per) /\
  Forall2 (fun r p => msd_col r = Some (fst p) /\ N_of r = Some (snd p))
          (chosen_rows l per) vw.
Proof.
  unfold probe_values, chosen_rows.
  induction 1 as [|g [v w] per vw [Hv Hw] _ IH]; [repeat split; constructor|].
  cbn [fst snd] in Hv, Hw. unfold msd_at in Hv. unfold N_at in Hw.
  destruct IH as (IH1 & IH2 & IH3 & IH4). cbn [flat_map].
  destruct (row_at l (snd g)) as [r|] eqn:Er; [|discriminate].
  cbn [app map fst snd]. rewrite IH1, IH2, Hv, Hw. cbn [cmul clift2].
  repeat split; try reflexivity; constructor; auto using row_at_some.
Qed.

Lemma somes_map_some qs : somes (map Some qs) = qs.
Proof. unfold somes. induction qs as [|q qs IH]; cbn; [reflexivity | now rewrite IH]. Qed.

Lemma mean_skipna_map_some q qs :
  mean_skipna (Some q :: map Some qs)
  = Some (qsum (q :: qs) / inject_Z (Z.of_nat (length (q :: qs)))).
Proof.
  change (Some q :: map Some qs) with (map Some (q :: qs)).
  unfold mean_skipna. now rewrite somes_map_some.
Qed.

Lemma qsum_positive q qs : Forall (fun v => 0 < v) (q :: qs) -> 0 < qsum (q :: qs).
Proof.
  revert q. induction qs as [|q' qs IH]; intros q H; inversion H as [|? ? Hq Hqs]; subst.
  - cbn. now rewrite Qplus_0_r.
  - change (0 < q + qsum (q' :: qs)). specialize (IH q' Hqs).
    apply Qlt_trans with (0 + qsum (q' :: qs)).
    + now rewrite Qplus_0_l.
    + apply Qplus_lt_l. assumption.
Qed.

Lemma ceq_trans a b c : ceq a b -> ceq b c -> ceq a c.
Proof.
  destruct a, b, c; cbn; try tauto. intros H1 H2. now rewrite H1.
Qed.

(** Lines 142-143 on a group in which every row has a value and a weight:
    the sum of the weighted values over the sum of the weights, missing when
    the weights add up to 0. *)
Lemma weighted_quotient (col : msd_row -> cell) rows (vw : list (Q * Q)) :
  rows <> [] ->
  Forall2 (fun r p => col r = Some (fst p) /\ N_of r = Some (snd p)) rows vw ->
  ceq (weighted col rows)
      (cdiv (Some (qsum (map (fun p => fst p * snd p) vw)))
            (Some (qsum (map snd vw)))).
Proof.
  intros Hne H2.
  assert (map (fun r => cmul (col r) (N_of r)) rows
          = map Some (map (fun p => fst p * snd p) vw) /\
          map N_of rows = map Some (map snd vw)) as [E1 E2].
  { clear Hne. induction H2 as [|r [v w] rows vw [Hv Hw] _ [IH1 IH2]]; [split; reflexivity|].
    cbn [map fst snd] in *. rewrite Hv, Hw, IH1, IH2. split; reflexivity. }
  unfold weighted. rewrite E1, E2.
  destruct vw as [|p vw]; [inversion H2; subst; congruence|].
  cbn [map]. rewrite !mean_skipna_map_some. cbn [length].
  rewrite !length_map.
  set (k := inject_Z (Z.of_nat (S (length vw)))).
  assert (0 < k) as Hk.
  { unfold k. change 0 with (inject_Z 0). rewrite <- Zlt_Qlt. lia. }
  assert (~ k == 0) as Hk0.
  { intros E. rewrite E in Hk. exact (Qlt_irrefl _ Hk). }
  set (S1 := qsum (fst p * snd p :: map (fun p => fst p * snd p) vw)).
  set (S2 := qsum (snd p :: map snd vw)).
  unfold cdiv.
  destruct (Qeq_bool (S2 / k) 0) eqn:Eb; destruct (Qeq_bool S2 0) eqn:Eb'.
  - exact I.
  - apply Qeq_bool_iff in Eb. apply Qeq_bool_neq in Eb'. exfalso. apply Eb'.
    rewrite <- (Qmult_div_r S2 k Hk0). unfold Qdiv in *.
    rewrite Qmult_assoc, (Qmult_comm k S2), <- Qmult_assoc, (Qmult_comm k (/ k)),
            Qmult_assoc, Eb. ring.
  - apply Qeq_bool_iff in Eb'. apply Qeq_bool_neq in Eb. exfalso. apply Eb.
    rewrite Eb'. unfold Qdiv. ring.
  - apply Qeq_bool_neq in Eb'. cbn [ceq]. field. split; assumption.
Qed.

(** Where the weights add up to a positive number: the weighted mean. *)
Lemma weighted_defined (col : msd_row -> cell) rows (vw : list (Q * Q)) :
  rows <> [] ->
  Forall2 (fun r p => col r = Some (fst p) /\ N_of r = Some (snd p)) rows vw ->
  0 < qsum (map snd vw) ->
  ceq (weighted col rows) (Some (weighted_mean vw)).
Proof.
  intros Hne H2 Hpos.
  eapply ceq_trans; [exact (weighted_quotient col rows vw Hne H2)|].
  unfold cdiv, weighted_mean.
  destruct (Qeq_bool (qsum (map snd vw)) 0) eqn:Eb; [|cbn [ceq]; reflexivity].
  apply Qeq_bool_iff in Eb. rewrite Eb in Hpos. now apply Qlt_irrefl in Hpos.
Qed.

Lemma qsum_positive_all (vw : list (Q * Q)) :
  vw <> [] -> Forall (fun p => 0 < snd p) vw -> 0 < qsum (map snd vw).
Proof.
  intros Hne Hpos. destruct vw as [|p vw]; [congruence|].
  apply (qsum_positive (snd p) (map snd vw)).
  change (Forall (fun v => 0 < v) (map snd (p :: vw))).
  apply Forall_map. exact Hpos.
Qed.

(** Where the sum of nothing is missing, a probe with an MSD value at a
    lag has a positive sample count there. *)
Lemma probe_values_positive {pd : pandas} traj mpp fps m per l vw :
  sum_of_nothing_is_zero = false ->
  probe_msds traj mpp fps m true = Ok per ->
  probe_values l per vw -> Forall (fun p => 0 < snd p) vw.
Proof.
  intros Hnan Hper Hv.
  assert (forall g, In g per -> exists ptraj, msd ptraj mpp fps m true = Ok (snd g)) as Hin
    by (intros g Hg; exact (probe_msds_in _ _ _ _ _ _ g Hper Hg)).
  clear Hper. induction Hv as [|g [v w] per vw [Hv Hw] _ IH]; [constructor|].
  constructor.
  - cbn [fst snd] in *. unfold msd_at in Hv. unfold N_at in Hw.
    destruct (row_at l (snd g)) as [r|] eqn:Er; [|discriminate].
    apply row_at_some in Er as [Hr _].
    destruct (Hin g (or_introl eq_refl)) as (ptraj & Hmsd).
    exact (msd_row_N_positive _ _ _ _ _ r v w Hnan Hmsd Hr Hv Hw).
  - apply IH. intros g' Hg'. apply Hin. now right.
Qed.

Lemma probe_values_lagt {pd : pandas} traj mpp fps m per l vw :
  probe_msds traj mpp fps m true = Ok per ->
  ~ fps == 0 ->
  probe_values l per vw ->
  Forall2 (fun r p => lagt r = Some (fst p) /\ N_of r = Some (snd p))
          (chosen_rows l per)
          (map (fun p => (inject_Z l / fps, snd p)) vw).
Proof.
  intros Hper Hfps Hv.
  assert (forall g, In g per -> exists ptraj, msd ptraj mpp fps m true = Ok (snd g)) as Hin
    by (intros g Hg; exact (probe_msds_in _ _ _ _ _ _ g Hper Hg)).
  clear Hper. unfold chosen_rows.
  induction Hv as [|g [v w] per vw [Hv Hw] _ IH]; [constructor|].
  cbn [fst snd flat_map map] in *. unfold msd_at in Hv. unfold N_at in Hw.
  destruct (row_at l (snd g)) as [r|] eqn:Er; [|discriminate].
  apply row_at_some in Er as [Hr Hl]. cbn [app]. constructor.
  - cbn [fst snd]. split; [|assumption].
    destruct (Hin g (or_introl eq_refl)) as (ptraj & Hmsd).
    destruct (msd_rows_shape _ _ _ _ _ _ Hmsd) as (_ & pos & _ & Hs).
    rewrite (Hs r Hr). cbn [lagt msd_row_at cdiv]. rewrite Hl.
    destruct (Qeq_bool fps 0) eqn:Eb; [|reflexivity].
    apply Qeq_bool_iff in Eb. contradiction.
  - apply IH. intros g' Hg'. apply Hin. now right.
Qed.

Lemma qsum_scale c (ws : list Q) : qsum (map (fun w => c * w) ws) == c * qsum ws.
Proof.
  induction ws as [|w ws IH]; cbn [map qsum fold_right]; [ring|].
  fold (qsum (map (fun w => c * w) ws)). fold (qsum ws). rewrite IH. ring.
Qed.

Lemma weighted_mean_constant c (vw : list (Q * Q)) :
  0 < qsum (map snd vw) ->
  weighted_mean (map (fun p => (c, snd p)) vw) == c.
Proof.
  intros Hpos. unfold weighted_mean. rewrite !map_map. cbn [fst snd].
  rewrite <- (map_map snd (fun w => c * w)), qsum_scale.
  change (map (fun x0 : Q * Q => snd x0) vw) with (map snd vw).
  set (S := qsum (map snd vw)) in *.
  field. intros E. rewrite E in Hpos. exact (Qlt_irrefl _ Hpos).
Qed.

(** C1: at a lag where every probe has an MSD value and a sample count,
    the MSD of the row [emsd] returns for the lag is the mean of the
    per-probe values weighted by the per-probe counts,
    sum(m_i * N_i) / sum(N_i); for two probes, (m1*N1 + m2*N2) / (N1 + N2).
    The row is in the result of [emsd], with or without detail, under the
    lag time lag / fps.  Under a pandas that sums nothing to 0 a probe
    without a displacement at the lag has the value 0 and the count 0
    there; the counts then have to add up to a positive number, and where
    they add up to 0 the MSD of the row is missing, as the quotient is. *)
Theorem emsd_weighted_mean {pd : pandas} :
  forall traj mpp fps m per l vw,
    probe_msds (set_index_frame traj) mpp fps m true = Ok per ->
    per <> [] ->
    probe_values l per vw ->
    let row := emsd_row_at per l in
    (sum_of_nothing_is_zero = false \/ 0 < qsum (map snd vw) ->
     ceq (e_msd row) (Some (weighted_mean vw)) /\
     (forall m1 N1 m2 N2,
         vw = [(m1, N1); (m2, N2)] ->
         ceq (e_msd row) (Some ((m1 * N1 + m2 * N2) / (N1 + N2)))) /\
     (~ fps == 0 -> ceq (e_lagt row) (Some (inject_Z l / fps)))) /\
    ceq (e_msd row)
        (cdiv (Some (qsum (map (fun p => fst p * snd p) vw)))
              (Some (qsum (map snd vw)))) /\
    (exists s, snd (emsd traj mpp fps m false) = Ok (EmsdSeries s) /\
               In (e_lagt row, e_msd row) s) /\
    (exists rows, snd (emsd traj mpp fps m true) = Ok (EmsdFrame rows) /\
                  In row rows).
Proof.
  intros traj mpp fps m per l vw Hper Hne Hv row.
  assert (forall g, In g per -> List.NoDup (map lag (snd g))) as Hnd.
  { intros g Hg. destruct (probe_msds_in _ _ _ _ _ _ g Hper Hg) as (ptraj & Hmsd).
    now destruct (msd_rows_shape _ _ _ _ _ _ Hmsd). }
  pose proof (rows_at_chosen l per Hnd) as Hrows.
  destruct (chosen_columns l per vw Hv) as (_ & _ & Hmem & Hcols).
  assert (chosen_rows l per <> []) as Hcne.
  { destruct Hmem; [congruence | discriminate]. }
  assert (vw <> []) as Hvne.
  { destruct Hv; [congruence | discriminate]. }
  assert (In l (all_lags per)) as Hl.
  { unfold all_lags. apply in_sorted_unique.
    destruct Hmem as [|g r per' ch' [Hr Hlag] _]; [congruence|].
    apply in_flat_map. exists g. split; [now left|].
    rewrite <- Hlag. now apply in_map. }
  split; [|split; [|split]].
  - intros Hcond.
    assert (0 < qsum (map snd vw)) as Hsum.
    { destruct Hcond as [Hnan|Hsum]; [|exact Hsum].
      apply qsum_positive_all; [exact Hvne|].
      exact (probe_values_positive _ _ _ _ _ _ _ Hnan Hper Hv). }
    assert (ceq (e_msd row) (Some (weighted_mean vw))) as Hmsd.
    { unfold row. cbn [e_msd emsd_row_at]. rewrite Hrows.
      now apply weighted_defined. }
    split; [exact Hmsd|]. split.
    + intros m1 N1 m2 N2 ->. eapply ceq_trans; [exact Hmsd|].
      unfold weighted_mean. cbn [ceq map qsum fold_right fst snd].
      now rewrite !Qplus_0_r.
    + intros Hfps. unfold row. cbn [e_lagt emsd_row_at]. rewrite Hrows.
      eapply ceq_trans.
      * apply weighted_defined;
          [exact Hcne | exact (probe_values_lagt _ _ _ _ _ _ _ Hper Hfps Hv) |].
        rewrite map_map. cbn [snd]. exact Hsum.
      * cbn [ceq]. apply weighted_mean_constant. exact Hsum.
  - unfold row. cbn [e_msd emsd_row_at]. rewrite Hrows.
    now apply weighted_quotient.
  - unfold emsd. cbn [snd]. rewrite Hper. cbn [rbind].
    destruct per as [|g per']; [congruence|]. eexists. split; [reflexivity|].
    apply in_map_iff. exists row. split; [reflexivity|]. now apply in_map.
  - unfold emsd. cbn [snd]. rewrite Hper. cbn [rbind].
    destruct per as [|g per']; [congruence|]. eexists. split; [reflexivity|].
    now apply in_map.
Qed.

Lemma emsd_weighted_mean_witness :
  (exists per,
      probe_msds (pd := sums_nothing_to_nan) (set_index_frame two_probes) 1 1 5 true
      = Ok per /\
      ceq (e_msd (emsd_row_at per 1))
          (Some (((16 # 4) * (4 # 2) + (4 # 4) * (4 # 2)) / ((4 # 2) + (4 # 2)))) /\
      ceq (e_msd (emsd_row_at per 1)) (Some (5 # 2))) /\
  (exists per,
      probe_msds (pd := sums_nothing_to_zero) (set_index_frame two_probes) 1 1 5 true
      = Ok per /\
      ceq (e_msd (emsd_row_at per 1))
          (Some (((16 # 4) * (4 # 2) + (4 # 4) * (4 # 2)) / ((4 # 2) + (4 # 2)))) /\
      ceq (e_msd (emsd_row_at per 1)) (Some (5 # 2))).
Proof.
  split.
  - destruct (probe_msds (pd := sums_nothing_to_nan)
                (set_index_frame two_probes) 1 1 5 true) as [per|e] eqn:Hper;
      [|vm_compute in Hper; discriminate].
    exists per. split; [reflexivity|].
    pose proof Hper as Hlit. vm_compute in Hlit. injection Hlit as Hlit.
    assert (per <> []) as Hne by (rewrite <- Hlit; discriminate).
    assert (probe_values 1 per [(16 # 4, 4 # 2); (4 # 4, 4 # 2)]) as Hv
      by (rewrite <- Hlit; repeat constructor).
    destruct (emsd_weighted_mean (pd := sums_nothing_to_nan)
                two_probes 1 1 5 per 1 _ Hper Hne Hv) as (Hc & _).
    destruct Hc as (_ & H2 & _); [left; reflexivity|].
    specialize (H2 _ _ _ _ eq_refl). split; [exact H2|].
    eapply ceq_trans; [exact H2|]. reflexivity.
  - destruct (probe_msds (pd := sums_nothing_to_zero)
                (set_index_frame two_probes) 1 1 5 true) as [per|e] eqn:Hper;
      [|vm_compute in Hper; discriminate].
    exists per. split; [reflexivity|].
    pose proof Hper as Hlit. vm_compute in Hlit. injection Hlit as Hlit.
    assert (per <> []) as Hne by (rewrite <- Hlit; discriminate).
    assert (probe_values 1 per [(16 # 4, 4 # 2); (4 # 4, 4 # 2)]) as Hv
      by (rewrite <- Hlit; repeat constructor).
    destruct (emsd_weighted_mean (pd := sums_nothing_to_zero)
                two_probes 1 1 5 per 1 _ Hper Hne Hv) as (Hc & _).
    destruct Hc as (_ & H2 & _); [right; reflexivity|].
    specialize (H2 _ _ _ _ eq_refl). split; [exact H2|].
    eapply ceq_trans; [exact H2|]. reflexivity.
Defined.

End Ensemble.

(** * Further properties: reindexing and displacements *)

Lemma lookup_label_unique {A} f v (s : indexed A) :
  List.NoDup (labels s) -> In (f, v) s -> lookup_label f s = Some v.
Proof.
  induction s as [|[g w] s IH]; [intros _ []|].
  cbn [labels map fst lookup_label]. intros Hnd Hin.
  inversion Hnd as [|? ? Hn Hs]; subst.
  destruct Hin as [[= -> ->]|Hin]; [now rewrite Z.eqb_refl|].
  destruct (Z.eqb_spec f g) as [->|_]; [|now apply IH].
  exfalso. apply Hn. change (In (fst (g, v)) (map fst s)). now apply in_map.
Qed.

Lemma lookup_label_keyed_none {B} (h : Z -> B) keys f :
  ~ In f keys -> lookup_label f (map (fun k => (k, h k)) keys) = None.
Proof.
  intros H. apply lookup_label_notin. unfold labels. rewrite map_map. cbn [fst].
  now rewrite map_id.
Qed.

Lemma densify_ok {A} (fill : A) (pos : indexed A) :
  pos <> [] -> List.NoDup (labels pos) ->
  densify fill pos
  = Ok (map (fun f => (f, at_label fill pos f))
            (arange (first_label pos) (1 + last_label pos))).
Proof.
  intros Hne Hnd. destruct pos as [|[f0 v0] pos']; [congruence|].
  rewrite densify_cons. unfold reindex.
  apply unique_labels_NoDup in Hnd. rewrite Hnd. reflexivity.
Qed.

Lemma densify_ok_inv {A} (fill : A) (pos d : indexed A) :
  densify fill pos = Ok d -> pos <> [] /\ List.NoDup (labels pos).
Proof.
  destruct pos as [|[f0 v0] pos']; [discriminate|].
  rewrite densify_cons. unfold reindex.
  destruct (unique_labels _) eqn:E; [|discriminate].
  intros _. split; [discriminate | now apply unique_labels_NoDup].
Qed.

(** X1: the frame reindexing step returns a series exactly when the input
    has a row and no label twice.  The series then has one row for every
    integer from the first to the last label of the input: the row the input
    holds at that label, or the missing row; a row of the input whose label
    lies outside that range is not in it. *)
Theorem densify_observed_and_gaps :
  forall (A : Type) (fill : A) (pos : indexed A),
    ((exists d, densify fill pos = Ok d) <->
     pos <> [] /\ List.NoDup (labels pos)) /\
    (forall d, densify fill pos = Ok d ->
       length d = Z.to_nat (1 + last_label pos - first_label pos) /\
       (forall f v, In (f, v) pos ->
          (first_label pos <= f <= last_label pos)%Z ->
          lookup_label f d = Some v) /\
       (forall f, (first_label pos <= f <= last_label pos)%Z ->
          ~ In f (labels pos) -> lookup_label f d = Some fill) /\
       (forall f, ~ (first_label pos <= f <= last_label pos)%Z ->
          lookup_label f d = None)).
Proof.
  intros A fill pos. split.
  - split.
    + intros [d Hd]. now apply densify_ok_inv in Hd.
    + intros [Hne Hnd]. eexists. now apply densify_ok.
  - intros d Hd. destruct (densify_ok_inv _ _ _ Hd) as [Hne Hnd].
    rewrite (densify_ok fill pos Hne Hnd) in Hd. injection Hd as <-.
    split; [|split; [|split]].
    + now rewrite length_map, arange_length.
    + intros f v Hin Hf.
      rewrite (lookup_label_keyed (at_label fill pos)) by (apply in_arange; lia).
      unfold at_label. now rewrite (lookup_label_unique f v pos Hnd Hin).
    + intros f Hf Hnin.
      rewrite (lookup_label_keyed (at_label fill pos)) by (apply in_arange; lia).
      unfold at_label. now rewrite (lookup_label_notin f pos Hnin).
    + intros f Hf. apply lookup_label_keyed_none. rewrite in_arange. lia.
Qed.

Lemma densify_observed_and_gaps_witness :
  exists d,
    densify nan2 (pos_of gapped) = Ok d /\
    length d = 11%nat /\
    lookup_label 10 d = Some (Some 1%Q, Some 0%Q) /\
    lookup_label 5 d = Some nan2 /\
    lookup_label 11 d = None.
Proof.
  destruct (densify_observed_and_gaps _ nan2 (pos_of gapped)) as [[_ Hok] H].
  destruct Hok as [d Hd].
  { split; [discriminate|]. repeat constructor; cbn; intuition discriminate. }
  exists d. destruct (H d Hd) as (Hlen & Hobs & Hgap & Hout).
  split; [exact Hd|]. split; [exact Hlen|]. split; [|split].
  - apply Hobs; [right; left; reflexivity | cbn; lia].
  - apply Hgap; [cbn; lia | cbn; intuition discriminate].
  - apply Hout. cbn. lia.
Defined.

Lemma nth_arange a b i d :
  (i < Z.to_nat (b - a))%nat -> nth i (arange a b) d = (a + Z.of_nat i)%Z.
Proof.
  intros Hi. unfold arange.
  rewrite (nth_indep _ d (a + Z.of_nat 0)%Z) by now rewrite length_map, length_seq.
  rewrite (map_nth (fun i => (a + Z.of_nat i)%Z)), seq_nth by assumption.
  reflexivity.
Qed.

Lemma nth_consecutive {A} (d : indexed A) a b i dflt :
  labels d = arange a b -> (i < length d)%nat ->
  nth i d dflt = ((a + Z.of_nat i)%Z, snd (nth i d dflt)).
Proof.
  intros Hl Hi. rewrite (surjective_pairing (nth i d dflt)) at 1. f_equal.
  rewrite <- (map_nth fst). change (map fst d) with (labels d). rewrite Hl.
  apply nth_arange. rewrite <- arange_length, <- Hl, length_labels. exact Hi.
Qed.

Lemma lookup_label_consecutive {A} (fill : A) (d : indexed A) a b (j : Z) :
  labels d = arange a b ->
  at_label fill d (a + j)
  = if (0 <=? j)%Z then snd (nth (Z.to_nat j) d (0%Z, fill)) else fill.
Proof.
  intros Hl. unfold at_label.
  assert (List.NoDup (labels d)) as Hnd by (rewrite Hl; apply NoDup_arange).
  assert (length d = Z.to_nat (b - a)) as Hlen
    by now rewrite <- length_labels, Hl, arange_length.
  destruct (Z.leb_spec 0 j) as [Hj|Hj].
  - destruct (Nat.lt_ge_cases (Z.to_nat j) (length d)) as [Hlt|Hge].
    + rewrite (lookup_label_unique (a + j) (snd (nth (Z.to_nat j) d (0%Z, fill))) d Hnd);
        [reflexivity|].
      replace (a + j)%Z with (a + Z.of_nat (Z.to_nat j))%Z by lia.
      rewrite <- (nth_consecutive d a b (Z.to_nat j) (0%Z, fill) Hl Hlt).
      now apply nth_In.
    + rewrite (nth_overflow d (0%Z, fill) Hge). cbn [snd].
      rewrite lookup_label_notin; [reflexivity|].
      rewrite Hl, in_arange. lia.
  - rewrite lookup_label_notin; [reflexivity|]. rewrite Hl, in_arange. lia.
Qed.

(** On a series over consecutive labels, [shift] moves the row of label
    [f - lt] to label [f]. *)
Lemma shift_consecutive {A} (fill : A) lt (d : indexed A) a b :
  labels d = arange a b ->
  shift fill lt d = map (fun f => (f, at_label fill d (f - lt))) (arange a b).
Proof.
  intros Hl. unfold shift.
  assert (length d = Z.to_nat (b - a)) as Hlen
    by now rewrite <- length_labels, Hl, arange_length.
  unfold arange at 1. rewrite map_map, Hlen. apply map_ext_in.
  intros i Hi. apply in_seq in Hi.
  rewrite (nth_consecutive d a b i (0%Z, fill) Hl) by lia. cbn [fst]. f_equal.
  replace (a + Z.of_nat i - lt)%Z with (a + (Z.of_nat i - lt))%Z by lia.
  now rewrite (lookup_label_consecutive fill d a b _ Hl).
Qed.

Lemma keyed_by_labels {A} (fill : A) (d : indexed A) :
  List.NoDup (labels d) ->
  d = map (fun f => (f, at_label fill d f)) (labels d).
Proof. intros Hnd. symmetry. now apply reindex_own_labels. Qed.

Lemma zip_rows_keyed {A B C} (g : A -> B -> C) (h1 : Z -> A) (h2 : Z -> B) keys :
  zip_rows g (map (fun k => (k, h1 k)) keys) (map (fun k => (k, h2 k)) keys)
  = map (fun k => (k, g (h1 k) (h2 k))) keys.
Proof.
  induction keys as [|k keys IH]; [reflexivity|]. cbn [map zip_rows]. now rewrite IH.
Qed.

(** The rows of a displacement, frame by frame; used for the sample
    counts below as well. *)
Lemma displacement_rows :
  forall (pos d : indexed (cell * cell)) (lt : Z),
    densify nan2 pos = Ok d ->
    displacement d lt
    = map (fun f => (f, psub (at_label nan2 d f) (at_label nan2 d (f - lt))))
          (arange (first_label pos) (1 + last_label pos)) /\
    (forall f, ~ (first_label pos <= f <= last_label pos)%Z ->
               at_label nan2 d f = nan2) /\
    (forall u, psub u nan2 = nan2 /\ psub nan2 u = nan2).
Proof.
  intros pos d lt Hd. pose proof (densify_labels _ _ _ Hd) as Hl.
  fold (first_label pos) (last_label pos) in Hl.
  split; [|split].
  - unfold displacement.
    rewrite (shift_consecutive nan2 lt d _ _ Hl).
    rewrite (keyed_by_labels nan2 d) at 1 by (rewrite Hl; apply NoDup_arange).
    rewrite Hl. apply zip_rows_keyed.
  - intros f Hf. unfold at_label. rewrite lookup_label_notin; [reflexivity|].
    rewrite Hl, in_arange. lia.
  - intros [[u|] [v|]]; split; reflexivity.
Qed.

(** X2: over the densified series of a trajectory, the displacement at lag
    [lt] has one row per frame from the first to the last, the position at
    the frame minus the position [lt] frames earlier.  A position outside
    the range is missing, and the difference is missing when either position
    is. *)
Theorem displacement_at_frame :
  forall (pos d : indexed (cell * cell)) (lt : Z),
    densify nan2 pos = Ok d ->
    displacement d lt
    = map (fun f => (f, psub (at_label nan2 d f) (at_label nan2 d (f - lt))))
          (arange (first_label pos) (1 + last_label pos)) /\
    (forall f, ~ (first_label pos <= f <= last_label pos)%Z ->
               at_label nan2 d f = nan2) /\
    (forall u, psub u nan2 = nan2 /\ psub nan2 u = nan2).
Proof. exact displacement_rows. Qed.

Lemma displacement_at_frame_witness :
  exists d,
    densify nan2 (pos_of line5) = Ok d /\
    lookup_label 3 (displacement d 2) = Some (Some (3 - 1)%Q, Some (0 - 0)%Q) /\
    lookup_label 1 (displacement d 2) = Some nan2.
Proof.
  destruct (densify nan2 (pos_of line5)) as [d|e] eqn:Hd;
    [|vm_compute in Hd; discriminate].
  exists d. split; [reflexivity|].
  destruct (displacement_at_frame (pos_of line5) d 2 Hd) as (E & _ & _).
  rewrite E. vm_compute in Hd. injection Hd as <-. split; reflexivity.
Defined.

(** * Further properties: [msd] *)

Lemma labels_pos_of traj : labels (pos_of traj) = map idx traj.
Proof. unfold labels, pos_of. rewrite map_map. reflexivity. Qed.

Lemma pos_of_nil traj : pos_of traj = [] -> traj = [].
Proof. destruct traj; [reflexivity | discriminate]. Qed.

Lemma densify_duplicates {A} (fill : A) (pos : indexed A) :
  pos <> [] -> ~ List.NoDup (labels pos) -> densify fill pos = Raise ReindexError.
Proof.
  intros Hne Hd. destruct pos as [|[f0 v0] pos']; [congruence|].
  rewrite densify_cons. unfold reindex.
  destruct (unique_labels _) eqn:E; [|reflexivity].
  apply unique_labels_NoDup in E. contradiction.
Qed.

Lemma length_removelast {A} (l : list A) :
  length (removelast l) = (length l - 1)%nat.
Proof.
  induction l as [|a [|b l] IH]; [reflexivity | reflexivity |].
  change (S (length (removelast (b :: l))) = (S (S (length l)) - 1)%nat).
  rewrite IH. cbn [length]. lia.
Qed.

Lemma lagtimes_nil traj m :
  traj <> [] -> (lagtimes traj m = [] <-> (m <= 0)%Z).
Proof.
  intros Hne. rewrite lagtimes_arange. unfold clamp_lagtime.
  assert (1 <= Z.of_nat (length traj))%Z by (destruct traj; [congruence | cbn [length]; lia]).
  split.
  - intros E. apply (f_equal (@length Z)) in E. rewrite arange_length in E.
    cbn [length] in E. lia.
  - intros Hm. apply arange_empty. lia.
Qed.

(** The cases of [msd]; [imsd] and [emsd] go through them probe by
    probe. *)
Lemma msd_cases {pd : pandas} :
  forall traj mpp fps m detail,
    (traj = [] -> msd traj mpp fps m detail = Raise IndexError) /\
    (traj <> [] -> ~ List.NoDup (map idx traj) ->
     msd traj mpp fps m detail = Raise ReindexError) /\
    (traj <> [] -> List.NoDup (map idx traj) -> (m <= 0)%Z ->
     msd traj mpp fps m detail = Raise ConcatError) /\
    (traj <> [] -> List.NoDup (map idx traj) -> (1 <= m)%Z ->
     exists rows,
       msd traj mpp fps m detail = Ok rows /\
       ((first_label (pos_of traj) <= last_label (pos_of traj))%Z ->
        length rows = Z.to_nat (Z.min m (Z.of_nat (length traj)) - 1))).
Proof.
  intros traj mpp fps m detail. split; [|split; [|split]].
  - intros ->. reflexivity.
  - intros Hne Hd. unfold msd. rewrite densify_duplicates; [reflexivity| |].
    + intros E. apply Hne. now apply pos_of_nil.
    + now rewrite labels_pos_of.
  - intros Hne Hnd Hm. unfold msd. rewrite densify_ok.
    + cbn [rbind]. apply (lagtimes_nil traj m Hne) in Hm. now rewrite Hm.
    + intros E. apply Hne. now apply pos_of_nil.
    + now rewrite labels_pos_of.
  - intros Hne Hnd Hm.
    assert (pos_of traj <> []) as Hpne by (intros E; apply Hne; now apply pos_of_nil).
    assert (List.NoDup (labels (pos_of traj))) as Hpnd by now rewrite labels_pos_of.
    destruct (msd traj mpp fps m detail) as [rows|e] eqn:E.
    + exists rows. split; [reflexivity|]. intros Hle.
      pose proof (msd_rows_lags_ascending _ _ _ _ _ _ E Hle) as Hl.
      apply (f_equal (@length Z)) in Hl. rewrite length_map, arange_length in Hl.
      rewrite Hl. unfold clamp_lagtime. reflexivity.
    + exfalso. unfold msd in E. rewrite (densify_ok nan2 _ Hpne Hpnd) in E.
      cbn [rbind] in E. destruct (lagtimes traj m) as [|l0 lts] eqn:El; [|discriminate].
      apply (lagtimes_nil traj m Hne) in El. lia.
Qed.

(** X3: the outcome of [msd].  An empty table fails on [index[0]], a table
    whose index has a label twice fails in the reindexing, and a
    [max_lagtime] below 1 leaves nothing to concatenate; in every other case
    [msd] returns a table, of min(max_lagtime, number of records) - 1 rows
    when the index does not descend from its first to its last label. *)
Theorem msd_outcome {pd : pandas} :
  forall traj mpp fps m detail,
    (traj = [] -> msd traj mpp fps m detail = Raise IndexError) /\
    (traj <> [] -> ~ List.NoDup (map idx traj) ->
     msd traj mpp fps m detail = Raise ReindexError) /\
    (traj <> [] -> List.NoDup (map idx traj) -> (m <= 0)%Z ->
     msd traj mpp fps m detail = Raise ConcatError) /\
    (traj <> [] -> List.NoDup (map idx traj) -> (1 <= m)%Z ->
     exists rows,
       msd traj mpp fps m detail = Ok rows /\
       ((first_label (pos_of traj) <= last_label (pos_of traj))%Z ->
        length rows = Z.to_nat (Z.min m (Z.of_nat (length traj)) - 1))).
Proof. exact msd_cases. Qed.

Section UnderZeroSum.
Local Existing Instance sums_nothing_to_zero.

Lemma msd_outcome_witness :
  msd gapped 1 1 0 false = Raise ConcatError /\
  exists rows, msd gapped 1 1 100 false = Ok rows /\ length rows = 1%nat.
Proof.
  assert (gapped <> []) as Hne by discriminate.
  assert (List.NoDup (map idx gapped)) as Hnd
    by (repeat constructor; cbn; intuition discriminate).
  destruct (msd_outcome gapped 1 1 0 false) as (_ & _ & H0 & _).
  destruct (msd_outcome gapped 1 1 100 false) as (_ & _ & _ & H1).
  split; [apply H0; [exact Hne | exact Hnd | lia]|].
  destruct (H1 Hne Hnd) as (rows & E & Hlen); [lia|].
  exists rows. split; [exact E|]. apply Hlen. cbn. lia.
Defined.

End UnderZeroSum.

Section MsdRows.
Local Open Scope Q_scope.

Lemma mean_skipna_none l : mean_skipna l = None <-> count l = 0%nat.
Proof.
  unfold mean_skipna, count. destruct (somes l); cbn; split; intros; try reflexivity; discriminate.
Qed.

Lemma Qsquare_nonneg (v : Q) : 0 <= v * v.
Proof.
  destruct v as [n d]. unfold Qle. cbn. rewrite Z.mul_1_r. apply Z.square_nonneg.
Qed.

Lemma qsum_squares_nonneg (l : list Q) : 0 <= qsum (map (fun v => v * v) l).
Proof.
  induction l as [|v l IH]; cbn [map qsum fold_right]; [apply Qle_refl|].
  fold (qsum (map (fun v => v * v) l)). pose proof (Qsquare_nonneg v). Lqa.lra.
Qed.

Lemma mean_squares_nonneg l v : mean_skipna (squares l) = Some v -> 0 <= v.
Proof.
  unfold mean_skipna. rewrite somes_squares.
  destruct (somes l) as [|q qs]; [discriminate|]. intros [= <-].
  apply Qle_shift_div_l.
  - change 0 with (inject_Z 0). rewrite <- Zlt_Qlt. cbn [length map]. lia.
  - rewrite Qmult_0_l. apply (qsum_squares_nonneg (q :: qs)).
Qed.

Lemma cscale_square_nonneg k c v :
  (forall u, c = Some u -> 0 <= u) -> cscale (k * k) c = Some v -> 0 <= v.
Proof.
  destruct c as [u|]; [|discriminate]. intros H [= <-].
  specialize (H u eq_refl). apply Qmult_le_0_compat; [apply Qsquare_nonneg | exact H].
Qed.

(** The statistics of one lag over a paired series. *)
Lemma msd_row_at_columns {pd : pandas} pos mpp fps lts detail lt :
  Forall (fun r => paired (snd r)) pos ->
  let r := msd_row_at pos mpp fps lts detail lt in
  (mean_x r = None <-> mean_x2 r = None) /\
  (mean_y r = None <-> mean_x2 r = None) /\
  (mean_y2 r = None <-> mean_x2 r = None) /\
  (forall v, mean_x2 r = Some v -> 0 <= v) /\
  (forall v, mean_y2 r = Some v -> 0 <= v) /\
  (forall v, msd_col r = Some v -> 0 <= v) /\
  (mean_x2 r <> None -> ceq (msd_col r) (cadd (mean_x2 r) (mean_y2 r))) /\
  (mean_x2 r = None ->
   if sum_of_nothing_is_zero then ceq (msd_col r) (Some 0)
   else msd_col r = None).
Proof.
  intros Hp r. unfold r. cbn [msd_col mean_x mean_y mean_x2 mean_y2 msd_row_at].
  set (d := displacement pos lt).
  pose proof (count_paired d (displacement_paired pos lt Hp)) as Hc.
  pose proof (mean_skipna_none (xs_of d)) as Hx.
  pose proof (mean_skipna_none (ys_of d)) as Hy.
  pose proof (mean_skipna_none (squares (xs_of d))) as Hx2.
  pose proof (mean_skipna_none (squares (ys_of d))) as Hy2.
  rewrite count_squares in Hx2, Hy2.
  pose proof (mean_squares_nonneg (xs_of d)) as Nx.
  pose proof (mean_squares_nonneg (ys_of d)) as Ny.
  destruct (mean_skipna (xs_of d)) as [mx|];
    destruct (mean_skipna (ys_of d)) as [my|];
    destruct (mean_skipna (squares (xs_of d))) as [a|];
    destruct (mean_skipna (squares (ys_of d))) as [b|];
    try (exfalso;
         first [ assert (count (xs_of d) = 0%nat) as E by intuition congruence
               | assert (count (ys_of d) = 0%nat) as E by intuition congruence ];
         rewrite ?E, <- ?Hc, ?E in *; intuition congruence).
  - specialize (Nx a eq_refl). specialize (Ny b eq_refl).
    cbn [sum_skipna somes flat_map app qsum fold_right cscale option_map cadd clift2 ceq].
    pose proof (Qsquare_nonneg mpp) as Hk.
    pose proof (Qmult_le_0_compat _ _ Hk Nx) as Ha.
    pose proof (Qmult_le_0_compat _ _ Hk Ny) as Hb.
    repeat split; intros; try discriminate; try congruence;
      try (injection H as <-;
           first [ exact Ha | exact Hb
                 | apply Qmult_le_0_compat; [exact Hk | Lqa.lra] ]).
    ring.
  - cbn [sum_skipna somes flat_map app cscale option_map].
    repeat split; intros; try discriminate; try congruence.
    + destruct sum_of_nothing_is_zero; cbn [cscale option_map] in H; [|discriminate].
      injection H as <-. rewrite Qmult_0_r. apply Qle_refl.
    + destruct sum_of_nothing_is_zero; cbn [cscale option_map ceq]; [ring | reflexivity].
Qed.

(** The statistics of one row of [msd]. *)
Lemma msd_row_columns {pd : pandas} :
  forall traj mpp fps m detail rows r,
    msd traj mpp fps m detail = Ok rows -> In r rows ->
    (mean_x r = None <-> mean_x2 r = None) /\
    (mean_y r = None <-> mean_x2 r = None) /\
    (mean_y2 r = None <-> mean_x2 r = None) /\
    (forall v, mean_x2 r = Some v -> 0 <= v) /\
    (forall v, mean_y2 r = Some v -> 0 <= v) /\
    (forall v, msd_col r = Some v -> 0 <= v) /\
    (mean_x2 r <> None -> ceq (msd_col r) (cadd (mean_x2 r) (mean_y2 r))) /\
    (mean_x2 r = None ->
     if sum_of_nothing_is_zero then ceq (msd_col r) (Some 0)
     else msd_col r = None).
Proof.
  intros traj mpp fps m detail rows r H Hr.
  destruct (msd_rows_shape _ _ _ _ _ _ H) as (_ & pos & Hp & Hs).
  rewrite (Hs r Hr). apply msd_row_at_columns. exact Hp.
Qed.

(** X4: in every row [msd] returns, the statistics <x>, <y>, <x^2> and
    <y^2> are defined together or missing together, and <x^2>, <y^2> and msd
    are never negative.  Where they are defined, the column msd is the sum
    of <x^2> and <y^2>.  Where they are missing, the column msd is 0 under
    a pandas that sums nothing to 0, and missing under the others. *)
Theorem msd_columns {pd : pandas} :
  forall traj mpp fps m detail rows r,
    msd traj mpp fps m detail = Ok rows -> In r rows ->
    (mean_x r = None <-> mean_x2 r = None) /\
    (mean_y r = None <-> mean_x2 r = None) /\
    (mean_y2 r = None <-> mean_x2 r = None) /\
    (forall v, mean_x2 r = Some v -> 0 <= v) /\
    (forall v, mean_y2 r = Some v -> 0 <= v) /\
    (forall v, msd_col r = Some v -> 0 <= v) /\
    (mean_x2 r <> None -> ceq (msd_col r) (cadd (mean_x2 r) (mean_y2 r))) /\
    (mean_x2 r = None ->
     if sum_of_nothing_is_zero then ceq (msd_col r) (Some 0)
     else msd_col r = None).
Proof. exact msd_row_columns. Qed.

(** The probe seen at frames 0 and 10 has no displacement at lag 1: its
    row has no <x^2>, and as msd the value 0 or no value, by the pandas. *)
Lemma msd_columns_witness :
  (exists r,
      msd (pd := sums_nothing_to_zero) gapped 1 1 100 false = Ok [r] /\
      mean_x2 r = None /\ ceq (msd_col r) (Some 0)) /\
  (exists r,
      msd (pd := sums_nothing_to_nan) gapped 1 1 100 false = Ok [r] /\
      mean_x2 r = None /\ msd_col r = None) /\
  (exists r rows,
      msd (pd := sums_nothing_to_zero) line5 1 1 3 false = Ok (r :: rows) /\
      ceq (msd_col r) (cadd (mean_x2 r) (mean_y2 r))).
Proof.
  split; [|split].
  - destruct (msd (pd := sums_nothing_to_zero) gapped 1 1 100 false)
      as [[|r [|r' rows]]|e] eqn:E; try (vm_compute in E; discriminate).
    exists r. split; [reflexivity|].
    assert (mean_x2 r = None) as Hx by (vm_compute in E; now injection E as <-).
    split; [exact Hx|].
    destruct (msd_columns (pd := sums_nothing_to_zero) gapped 1 1 100 false
                [r] r E (or_introl eq_refl)) as (_ & _ & _ & _ & _ & _ & _ & H).
    exact (H Hx).
  - destruct (msd (pd := sums_nothing_to_nan) gapped 1 1 100 false)
      as [[|r [|r' rows]]|e] eqn:E; try (vm_compute in E; discriminate).
    exists r. split; [reflexivity|].
    assert (mean_x2 r = None) as Hx by (vm_compute in E; now injection E as <-).
    split; [exact Hx|].
    destruct (msd_columns (pd := sums_nothing_to_nan) gapped 1 1 100 false
                [r] r E (or_introl eq_refl)) as (_ & _ & _ & _ & _ & _ & _ & H).
    exact (H Hx).
  - destruct (msd (pd := sums_nothing_to_zero) line5 1 1 3 false)
      as [[|r rows]|e] eqn:E; try (vm_compute in E; discriminate).
    exists r, rows. split; [reflexivity|].
    assert (mean_x2 r <> None) as Hx
      by (vm_compute in E; injection E as <- _; discriminate).
    destruct (msd_columns (pd := sums_nothing_to_zero) line5 1 1 3 false
                (r :: rows) r E (or_introl eq_refl)) as (_ & _ & _ & _ & _ & _ & H & _).
    exact (H Hx).
Defined.

End MsdRows.

Section MsdCounts.
Local Open Scope Q_scope.

Lemma msd_rows_in {pd : pandas} traj mpp fps m detail rows pos r :
  msd traj mpp fps m detail = Ok rows ->
  densify nan2 (pos_of traj) = Ok pos ->
  In r rows ->
  r = msd_row_at pos mpp fps (lagtimes traj m) detail (lag r) /\
  (1 <= lag r < clamp_lagtime traj m)%Z.
Proof.
  intros H Hd Hr. split.
  - unfold msd in H. rewrite Hd in H. cbn [rbind] in H.
    destruct (lagtimes traj m) as [|l0 lts] eqn:E; [discriminate|].
    injection H as <-. destruct pos as [|p pos]; [destruct Hr|].
    apply in_removelast in Hr.
    change (In r (map (msd_row_at (p :: pos) mpp fps (l0 :: lts) detail) (l0 :: lts))) in Hr.
    apply in_map_iff in Hr as (lt & <- & _). reflexivity.
  - destruct (msd_rows_lags _ _ _ _ _ _ H) as [E| ->]; [|destruct Hr].
    assert (In (lag r) (map lag rows)) as Hin by (apply in_map; assumption).
    rewrite E, lagtimes_arange, removelast_arange in Hin.
    apply in_arange in Hin. lia.
Qed.

Lemma combine_map_self {A B} (f : A -> B) (l : list A) :
  combine l (map f l) = map (fun k => (k, f k)) l.
Proof. induction l as [|a l IH]; [reflexivity|]. cbn. now rewrite IH. Qed.

Lemma arange_shift a b c :
  arange (a + c) (b + c) = map (fun k => (k + c)%Z) (arange a b).
Proof.
  unfold arange. rewrite map_map.
  replace (b + c - (a + c))%Z with (b - a)%Z by lia.
  apply map_ext. intros i. lia.
Qed.

(** [Series(lagtimes)] holds the lag [k + 1] under the label [k]. *)
Lemma lagtimes_series_lookup traj m lt :
  lookup_label lt (lagtimes_series (lagtimes traj m))
  = if ((0 <=? lt) && (lt <? clamp_lagtime traj m))%Z then Some (lt + 1)%Z else None.
Proof.
  unfold lagtimes_series. rewrite lagtimes_arange, arange_length.
  set (c := clamp_lagtime traj m).
  replace (1 + c - 1)%Z with c by lia.
  assert (arange 0 (Z.of_nat (Z.to_nat c)) = arange 0 c) as ->.
  { destruct (Z_le_gt_dec 0 c); [f_equal; lia|]. rewrite !arange_empty by lia. reflexivity. }
  replace (arange 1 (1 + c)) with (arange (0 + 1) (c + 1)) by (f_equal; lia).
  rewrite arange_shift, combine_map_self.
  destruct (Z.leb_spec 0 lt) as [H0|H0]; destruct (Z.ltb_spec lt c) as [H1|H1]; cbn [andb].
  - apply (lookup_label_keyed (fun k => (k + 1)%Z)). apply in_arange. lia.
  - apply lookup_label_keyed_none. rewrite in_arange. lia.
  - apply lookup_label_keyed_none. rewrite in_arange. lia.
  - apply lookup_label_keyed_none. rewrite in_arange. lia.
Qed.

Lemma Qeq_bool_inject_Z_pos z : (0 < z)%Z -> Qeq_bool (inject_Z z) 0 = false.
Proof.
  intros Hz. destruct (Qeq_bool (inject_Z z) 0) eqn:E; [|reflexivity].
  apply Qeq_bool_iff in E. unfold Qeq in E. cbn in E. lia.
Qed.

(** The sample count of one row of [msd]. *)
Lemma msd_row_sample_count {pd : pandas} :
  forall traj mpp fps m detail rows pos r,
    msd traj mpp fps m detail = Ok rows ->
    densify nan2 (pos_of traj) = Ok pos ->
    In r rows ->
    N r = if detail
          then Some (Some (2 * (inject_Z (Z.of_nat (count (xs_of (displacement pos (lag r)))))
                                / inject_Z (lag r + 1))))
          else None.
Proof.
  intros traj mpp fps m detail rows pos r H Hd Hr.
  destruct (msd_rows_in _ _ _ _ _ _ _ _ H Hd Hr) as [E Hl]. rewrite E at 1.
  cbn [N msd_row_at]. destruct detail; [|reflexivity].
  rewrite lagtimes_series_lookup.
  destruct (Z.leb_spec 0 (lag r)) as [_|]; [|lia].
  destruct (Z.ltb_spec (lag r) (clamp_lagtime traj m)) as [_|]; [|lia].
  cbn [andb option_map cdiv]. rewrite Qeq_bool_inject_Z_pos by lia. reflexivity.
Qed.

(** X5: the column N of [msd(..., detail=True)].  At lag l it is twice the
    number of frames that have a displacement at that lag, divided by
    l + 1: the division pairs the count of lag l with the entry of
    [Series(lagtimes)] under the label l, which is the next lag.  Without
    detail the column is absent. *)
Theorem msd_sample_count {pd : pandas} :
  forall traj mpp fps m detail rows pos r,
    msd traj mpp fps m detail = Ok rows ->
    densify nan2 (pos_of traj) = Ok pos ->
    In r rows ->
    N r = if detail
          then Some (Some (2 * (inject_Z (Z.of_nat (count (xs_of (displacement pos (lag r)))))
                                / inject_Z (lag r + 1))))
          else None.
Proof. exact msd_row_sample_count. Qed.

Section UnderZeroSum.
Local Existing Instance sums_nothing_to_zero.

Lemma msd_sample_count_witness :
  exists rows r,
    msd line5 1 1 5 true = Ok rows /\ In r rows /\ lag r = 1%Z /\
    N r = Some (Some (2 * (inject_Z 4 / inject_Z 2))).
Proof.
  destruct (msd line5 1 1 5 true) as [rows|e] eqn:E; [|vm_compute in E; discriminate].
  destruct (densify nan2 (pos_of line5)) as [pos|e] eqn:Hd; [|vm_compute in Hd; discriminate].
  destruct rows as [|r rows]; [vm_compute in E; discriminate|].
  exists (r :: rows), r. split; [reflexivity|]. split; [now left|].
  assert (lag r = 1%Z) as Hl by (vm_compute in E; injection E as <- _; reflexivity).
  split; [exact Hl|].
  rewrite (msd_sample_count line5 1 1 5 true (r :: rows) pos r E Hd (or_introl eq_refl)).
  rewrite Hl. vm_compute in Hd. injection Hd as <-. reflexivity.
Defined.

End UnderZeroSum.

End MsdCounts.

Section MsdGapFree.
Local Open Scope Q_scope.

Lemma arange_app a b c :
  (a <= b <= c)%Z -> arange a c = arange a b ++ arange b c.
Proof.
  intros H. remember (Z.to_nat (b - a)) as n eqn:En.
  revert a H En. induction n as [|n IH]; intros a H En.
  - assert (a = b) as -> by lia. now rewrite (arange_empty b b) by lia.
  - rewrite (arange_cons a c), (arange_cons a b) by lia.
    cbn [app]. f_equal. apply IH; lia.
Qed.

Lemma count_app l1 l2 : count (l1 ++ l2) = (count l1 + count l2)%nat.
Proof. unfold count, somes. now rewrite flat_map_app, length_app. Qed.

Lemma count_map_none {A} (g : A -> cell) l :
  (forall f, In f l -> g f = None) -> count (map g l) = 0%nat.
Proof.
  induction l as [|a l IH]; [reflexivity|]. intros H.
  change (map g (a :: l)) with ([g a] ++ map g l). rewrite count_app, IH.
  - rewrite (H a (or_introl eq_refl)). reflexivity.
  - intros f Hf. apply H. now right.
Qed.

Lemma count_map_some {A} (g : A -> cell) l :
  (forall f, In f l -> g f <> None) -> count (map g l) = length l.
Proof.
  induction l as [|a l IH]; [reflexivity|]. intros H.
  change (map g (a :: l)) with ([g a] ++ map g l). rewrite count_app, IH.
  - pose proof (H a (or_introl eq_refl)) as Ha. destruct (g a); [reflexivity | congruence].
  - intros f Hf. apply H. now right.
Qed.

Lemma at_label_pos_of traj f :
  In f (labels (pos_of traj)) ->
  exists u v, at_label nan2 (pos_of traj) f = (Some u, Some v).
Proof.
  intros Hf. unfold at_label.
  destruct (lookup_label_in f (pos_of traj) Hf) as (w & -> & Hin).
  unfold pos_of in Hin. apply in_map_iff in Hin as (r & [= _ <-] & _). eauto.
Qed.

(** The number of displacements of a gap-free trajectory of [n] frames at
    lag [lt]. *)
Lemma count_gap_free traj lt :
  traj <> [] -> consecutive (pos_of traj) ->
  (0 <= lt <= Z.of_nat (length traj))%Z ->
  Z.of_nat (count (xs_of (displacement (pos_of traj) lt)))
  = (Z.of_nat (length traj) - lt)%Z.
Proof.
  intros Hne Hc Hlt.
  assert (pos_of traj <> []) as Hpne by (intros E; apply Hne; now apply pos_of_nil).
  pose proof (densify_consecutive nan2 (pos_of traj) Hpne Hc) as Hd.
  destruct (displacement_rows (pos_of traj) (pos_of traj) lt Hd) as (E & Hout & _).
  unfold consecutive in Hc. fold (first_label (pos_of traj)) in Hc.
  set (a := first_label (pos_of traj)) in *.
  assert (length (pos_of traj) = length traj) as Hlen by (unfold pos_of; apply length_map).
  rewrite Hlen in Hc.
  assert (1 <= Z.of_nat (length traj))%Z as Hn
    by (destruct traj; [congruence | cbn [length]; lia]).
  assert (1 + last_label (pos_of traj) = a + Z.of_nat (length traj))%Z as Hlast.
  { unfold last_label. rewrite Hc, last_arange by lia. lia. }
  rewrite E, Hlast. unfold xs_of. rewrite map_map. cbn [snd].
  rewrite (arange_app a (a + lt) (a + Z.of_nat (length traj))) by lia.
  rewrite map_app, count_app, count_map_none, count_map_some.
  - rewrite arange_length. lia.
  - intros f Hf. apply in_arange in Hf.
    destruct (at_label_pos_of traj f) as (u & v & ->); [rewrite Hc, in_arange; lia|].
    destruct (at_label_pos_of traj (f - lt)) as (u' & v' & ->);
      [rewrite Hc, in_arange; lia|].
    discriminate.
  - intros f Hf. apply in_arange in Hf.
    rewrite (Hout (f - lt)%Z) by (fold a; lia).
    now destruct (at_label nan2 (pos_of traj) f) as [[?|] ?].
Qed.

(** X6: on a trajectory without frame gaps, of [n] frames, [msd] returns
    the rows of the lags 1 .. min(max_lagtime, n) - 1; the row of lag l rests
    on n - l displacements, its N is 2 (n - l) / (l + 1), and none of its
    statistics is missing. *)
Theorem msd_gap_free {pd : pandas} :
  forall traj mpp fps m rows,
    traj <> [] -> consecutive (pos_of traj) ->
    msd traj mpp fps m true = Ok rows ->
    map lag rows = arange 1 (Z.min m (Z.of_nat (length traj))) /\
    forall r, In r rows ->
      N r = Some (Some (2 * (inject_Z (Z.of_nat (length traj) - lag r)
                             / inject_Z (lag r + 1)))) /\
      mean_x r <> None /\ mean_y r <> None /\
      mean_x2 r <> None /\ mean_y2 r <> None /\ msd_col r <> None.
Proof.
  intros traj mpp fps m rows Hne Hc H.
  assert (pos_of traj <> []) as Hpne by (intros E; apply Hne; now apply pos_of_nil).
  pose proof (densify_consecutive nan2 (pos_of traj) Hpne Hc) as Hd.
  assert (1 <= Z.of_nat (length traj))%Z as Hn
    by (destruct traj; [congruence | cbn [length]; lia]).
  split.
  - apply (msd_rows_lags_ascending _ _ _ _ _ _ H).
    pose proof Hc as Hc'. unfold consecutive in Hc'.
    rewrite Hc'. rewrite last_arange; rewrite ?hd_arange;
      rewrite ?length_map; unfold pos_of; rewrite ?length_map; lia.
  - intros r Hr.
    destruct (msd_rows_in _ _ _ _ _ _ _ _ H Hd Hr) as [E Hl].
    unfold clamp_lagtime in Hl.
    pose proof (count_gap_free traj (lag r) Hne Hc) as Hcount.
    assert (0 <= lag r <= Z.of_nat (length traj))%Z as Hrange by lia.
    specialize (Hcount Hrange).
    split.
    + rewrite (msd_row_sample_count _ _ _ _ _ _ _ _ H Hd Hr). now rewrite Hcount.
    + assert (mean_x2 r <> None) as Hm.
      { intros Hnone. rewrite E in Hnone.
        cbn [mean_x2 msd_row_at] in Hnone.
        destruct (mean_skipna (squares (xs_of (displacement (pos_of traj) (lag r)))))
          as [v|] eqn:Ev; [discriminate|].
        apply mean_skipna_none in Ev. rewrite count_squares in Ev. lia. }
      destruct (msd_row_columns _ _ _ _ _ _ _ H Hr)
        as (H1 & H2 & H3 & _ & _ & _ & Hsum & _).
      specialize (Hsum Hm).
      repeat split; intros Hnone; apply Hm; try tauto.
      rewrite Hnone in Hsum.
      destruct (mean_x2 r) as [a|]; [|reflexivity].
      destruct (mean_y2 r) as [b|]; [destruct Hsum|].
      exfalso. apply Hm. now apply H3.
Qed.

Section UnderZeroSum.
Local Existing Instance sums_nothing_to_zero.

Lemma msd_gap_free_witness :
  exists rows,
    msd line5 1 1 3 true = Ok rows /\
    map lag rows = arange 1 3 /\
    forall r, In r rows ->
      N r = Some (Some (2 * (inject_Z (5 - lag r) / inject_Z (lag r + 1)))).
Proof.
  destruct (msd line5 1 1 3 true) as [rows|e] eqn:E; [|vm_compute in E; discriminate].
  exists rows. split; [reflexivity|].
  assert (line5 <> []) as Hne by discriminate.
  assert (consecutive (pos_of line5)) as Hc by reflexivity.
  destruct (msd_gap_free line5 1 1 3 rows Hne Hc E) as [Hl Hr].
  split; [exact Hl|]. intros r Hin. exact (proj1 (Hr r Hin)).
Defined.

End UnderZeroSum.

End MsdGapFree.

Section MsdScale.
Local Open Scope Q_scope.

Lemma Forall2_map_same {A B} (P : B -> B -> Prop) (f g : A -> B) l :
  (forall a, P (f a) (g a)) -> Forall2 P (map f l) (map g l).
Proof. intros H. induction l; cbn; constructor; auto. Qed.

Lemma Forall2_removelast {A B} (P : A -> B -> Prop) l l' :
  Forall2 P l l' -> Forall2 P (removelast l) (removelast l').
Proof.
  induction 1 as [|a b l l' Hab H IH]; [constructor|].
  destruct H as [|a' b' l l' Hab' H]; [constructor|].
  change (Forall2 P (a :: removelast (a' :: l)) (b :: removelast (b' :: l'))).
  constructor; assumption.
Qed.

Lemma cscale_one c (v : cell) : ceq (cscale c v) (cscale c (cscale 1 v)).
Proof. destruct v as [q|]; cbn; [ring | exact I]. Qed.

Lemma cscale_one_sq c (v : cell) :
  ceq (cscale (c * c) v) (cscale (c * c) (cscale (1 * 1) v)).
Proof. destruct v as [q|]; cbn; [ring | exact I]. Qed.

(** X7: the length scale of [msd].  With [mpp = c] it fails as with
    [mpp = 1], or returns the rows of [mpp = 1] with <x> and <y> multiplied
    by [c] and <x^2>, <y^2> and msd by the square of [c]; lags, sample
    counts and lag times do not depend on [mpp]. *)
Theorem msd_mpp_scaling {pd : pandas} :
  forall traj c fps m detail,
    match msd traj c fps m detail, msd traj 1 fps m detail with
    | Ok rows_c, Ok rows_1 => Forall2 (scaled_row c) rows_c rows_1
    | Raise e, Raise e' => e = e'
    | _, _ => False
    end.
Proof.
  intros traj c fps m detail. unfold msd.
  destruct (densify nan2 (pos_of traj)) as [pos|e]; cbn [rbind]; [|reflexivity].
  destruct (lagtimes traj m) as [|l0 lts]; [reflexivity|].
  destruct pos as [|p pos]; [constructor|].
  apply Forall2_removelast.
  apply (Forall2_map_same (scaled_row c)
           (msd_row_at (p :: pos) c fps (l0 :: lts) detail)
           (msd_row_at (p :: pos) 1 fps (l0 :: lts) detail)).
  intros lt. unfold scaled_row.
  cbn [lag mean_x mean_y mean_x2 mean_y2 msd_col N lagt msd_row_at].
  repeat split; auto using cscale_one, cscale_one_sq.
Qed.

End MsdScale.

(** * Further properties: [imsd] and [emsd] *)

Lemma mapM_all_ok {A B} (F : A -> result B) l :
  (forall a, In a l -> exists b, F a = Ok b) ->
  exists out, mapM F l = Ok out /\ Forall2 (fun a b => F a = Ok b) l out.
Proof.
  induction l as [|a l IH]; intros H.
  - exists []. split; [reflexivity | constructor].
  - destruct (H a (or_introl eq_refl)) as (b & Hb).
    destruct IH as (out & Hout & Hall); [intros a' Ha'; apply H; now right|].
    exists (b :: out). cbn [mapM]. rewrite Hb, Hout. split; [reflexivity|].
    now constructor.
Qed.

Lemma mapM_raise {A B} (F : A -> result B) l e :
  (forall a, In a l -> (exists b, F a = Ok b) \/ F a = Raise e) ->
  (exists a, In a l /\ F a = Raise e) ->
  mapM F l = Raise e.
Proof.
  induction l as [|a l IH]; intros H (a0 & Hin & Ha0); [destruct Hin|].
  cbn [mapM]. destruct (H a (or_introl eq_refl)) as [(b & Hb)|Hb]; rewrite Hb;
    [|reflexivity].
  cbn [rbind]. rewrite IH; [reflexivity | intros a' Ha'; apply H; now right |].
  destruct Hin as [->|Hin]; [congruence|]. eauto.
Qed.

Lemma filter_set_index_frame {num} (t : table num) p :
  List.filter (fun r => (probe r =? p)%Z) (set_index_frame t)
  = set_index_frame (List.filter (fun r => (probe r =? p)%Z) t).
Proof.
  induction t as [|r t IH]; [reflexivity|]. cbn [set_index_frame map List.filter probe].
  fold (set_index_frame t). rewrite IH. destruct (probe r =? p)%Z; reflexivity.
Qed.

Lemma idx_set_index_frame {num} (t : table num) :
  map idx (set_index_frame t) = map frame t.
Proof. unfold set_index_frame. rewrite map_map. reflexivity. Qed.

Lemma probe_set_index_frame {num} (t : table num) :
  map probe (set_index_frame t) = map probe t.
Proof. unfold set_index_frame. rewrite map_map. reflexivity. Qed.

Lemma groupby_probe_set_index {num} (t : table num) :
  groupby_probe (set_index_frame t)
  = map (fun p => (p, set_index_frame (List.filter (fun r => (probe r =? p)%Z) t)))
        (sorted_unique (map probe t)).
Proof.
  unfold groupby_probe. rewrite probe_set_index_frame. apply map_ext.
  intros p. now rewrite filter_set_index_frame.
Qed.

Lemma group_nonempty {num} (t : table num) p :
  In p (map probe t) -> List.filter (fun r => (probe r =? p)%Z) t <> [].
Proof.
  intros Hin. apply in_map_iff in Hin as (r & Hp & Hr).
  assert (In r (List.filter (fun r => (probe r =? p)%Z) t)) as H.
  { apply filter_In. split; [assumption | now apply Z.eqb_eq]. }
  intros E. rewrite E in H. destruct H.
Qed.

Lemma set_index_frame_nil {num} (t : table num) : set_index_frame t = [] -> t = [].
Proof. destruct t; [reflexivity | discriminate]. Qed.

Lemma length_set_index_frame {num} (t : table num) :
  length (set_index_frame t) = length t.
Proof. apply length_map. Qed.

Lemma NoDup_dec_Z (l : list Z) : List.NoDup l \/ ~ List.NoDup l.
Proof.
  destruct (unique_labels l) eqn:E.
  - left. now apply unique_labels_NoDup.
  - right. intros H. apply unique_labels_NoDup in H. congruence.
Qed.

(** The outcome of the loop over the probes that [imsd] and [emsd] share. *)
Lemma probe_msds_outcome {pd : pandas} traj mpp fps m detail :
  (traj = [] -> probe_msds (set_index_frame traj) mpp fps m detail = Ok []) /\
  (forall p,
      ~ List.NoDup (map frame (List.filter (fun r => (probe r =? p)%Z) traj)) ->
      (1 <= m)%Z ->
      probe_msds (set_index_frame traj) mpp fps m detail = Raise ReindexError) /\
  (traj <> [] -> frames_distinct traj -> (m <= 0)%Z ->
   probe_msds (set_index_frame traj) mpp fps m detail = Raise ConcatError) /\
  (traj <> [] -> frames_distinct traj -> (1 <= m)%Z ->
   exists per,
     probe_msds (set_index_frame traj) mpp fps m detail = Ok per /\
     map fst per = sorted_unique (map probe traj) /\ per <> []).
Proof.
  unfold probe_msds. rewrite groupby_probe_set_index.
  set (F := fun g : Z * table Q =>
              let* m0 := msd (snd g) mpp fps m detail in Ok (fst g, m0)).
  set (G := fun p => (p, set_index_frame (List.filter (fun r => (probe r =? p)%Z) traj))).
  assert (forall p, In p (sorted_unique (map probe traj)) ->
            snd (G p) <> [] /\ map idx (snd (G p))
            = map frame (List.filter (fun r => (probe r =? p)%Z) traj)) as HG.
  { intros p Hp. apply (proj1 (in_sorted_unique _ _)) in Hp. cbn [G snd]. split.
    - intros E. apply set_index_frame_nil in E. now apply (group_nonempty traj p Hp).
    - apply idx_set_index_frame. }
  split; [|split; [|split]].
  - intros ->. reflexivity.
  - intros p Hdup Hm. apply mapM_raise.
    + intros g Hg. apply in_map_iff in Hg as (q & <- & Hq).
      destruct (HG q Hq) as [Hne Hidx]. unfold F.
      destruct (msd_cases (snd (G q)) mpp fps m detail) as (_ & Hre & _ & Hok).
      destruct (NoDup_dec_Z (map idx (snd (G q)))) as [Hnd|Hnd].
      * destruct (Hok Hne Hnd Hm) as (rows & -> & _). left. eexists. reflexivity.
      * right. now rewrite (Hre Hne Hnd).
    + assert (In p (map probe traj)) as Hp.
      { destruct (List.filter (fun r => (probe r =? p)%Z) traj) as [|r l] eqn:E;
          [exfalso; apply Hdup; constructor|].
        assert (In r (List.filter (fun r => (probe r =? p)%Z) traj)) as Hr
          by (rewrite E; now left).
        apply filter_In in Hr as [Hr Hpr]. apply Z.eqb_eq in Hpr. subst p.
        now apply in_map. }
      apply (proj2 (in_sorted_unique _ _)) in Hp. exists (G p). split; [now apply in_map|].
      destruct (HG p Hp) as [Hne Hidx]. unfold F.
      destruct (msd_cases (snd (G p)) mpp fps m detail) as (_ & Hre & _).
      rewrite Hre; [reflexivity | assumption | now rewrite Hidx].
  - intros Hne Hdist Hm. apply mapM_raise.
    + intros g Hg. apply in_map_iff in Hg as (q & <- & Hq).
      destruct (HG q Hq) as [Hgne Hidx]. unfold F. right.
      destruct (msd_cases (snd (G q)) mpp fps m detail) as (_ & _ & Hce & _).
      rewrite Hce; [reflexivity | assumption | rewrite Hidx; apply Hdist | assumption].
    + destruct traj as [|r traj']; [congruence|].
      assert (In (probe r) (sorted_unique (map probe (r :: traj')))) as Hp
        by (apply in_sorted_unique; now left).
      exists (G (probe r)). split; [now apply in_map|].
      destruct (HG _ Hp) as [Hgne Hidx]. unfold F.
      destruct (msd_cases (snd (G (probe r))) mpp fps m detail) as (_ & _ & Hce & _).
      rewrite Hce; [reflexivity | assumption | rewrite Hidx; apply Hdist | assumption].
  - intros Hne Hdist Hm.
    destruct (mapM_all_ok F (map G (sorted_unique (map probe traj)))) as (per & Hper & Hall).
    { intros g Hg. apply in_map_iff in Hg as (q & <- & Hq).
      destruct (HG q Hq) as [Hgne Hidx]. unfold F.
      destruct (msd_cases (snd (G q)) mpp fps m detail) as (_ & _ & _ & Hok).
      destruct Hok as (rows & -> & _); [assumption | rewrite Hidx; apply Hdist | assumption|].
      eexists. reflexivity. }
    exists per. split; [exact Hper|].
    assert (map fst per = sorted_unique (map probe traj)) as Hkeys.
    { rewrite (mapM_keys (fun t => msd t mpp fps m detail) _ _ Hper).
      rewrite map_map. cbn [G fst]. apply map_id. }
    split; [exact Hkeys|]. intros ->. cbn in Hkeys.
    destruct traj as [|r traj']; [congruence|].
    assert (In (probe r) (sorted_unique (map probe (r :: traj')))) as Hp
      by (apply in_sorted_unique; now left).
    rewrite <- Hkeys in Hp. destruct Hp.
Qed.

Lemma mapM_Forall2 {A B} (F : A -> result B) l out :
  mapM F l = Ok out -> Forall2 (fun a b => F a = Ok b) l out.
Proof.
  revert out. induction l as [|a l IH]; intros out; cbn [mapM rbind].
  - intros [= <-]. constructor.
  - destruct (F a) as [b|e] eqn:Ea; cbn [rbind]; [|discriminate].
    destruct (mapM F l) as [bs|e]; cbn [rbind]; [|discriminate].
    intros [= <-]. constructor; [assumption | now apply IH].
Qed.

(** The tables the loop over the probes collects, probe by probe. *)
Lemma probe_msds_groups {pd : pandas} traj mpp fps m detail per :
  probe_msds (set_index_frame traj) mpp fps m detail = Ok per ->
  Forall2 (fun p g => fst g = p /\
                      msd (probe_group traj p) mpp fps m detail = Ok (snd g))
          (sorted_unique (map probe traj)) per.
Proof.
  unfold probe_msds. rewrite groupby_probe_set_index. intros H.
  apply mapM_Forall2 in H. revert per H.
  induction (sorted_unique (map probe traj)) as [|p keys IH]; intros per H;
    cbn [map] in H; inversion H as [|? g ? per' Hg Hrest]; subst; constructor.
  - cbn [fst snd] in Hg. fold (probe_group traj p) in Hg.
    destruct (msd (probe_group traj p) mpp fps m detail) as [rows|e];
      [|discriminate].
    cbn [rbind] in Hg. injection Hg as <-. split; reflexivity.
  - now apply IH.
Qed.

Lemma with_rows_probes {pd : pandas} traj mpp fps m detail keys per :
  Forall2 (fun p g => fst g = p /\
                      msd (probe_group traj p) mpp fps m detail = Ok (snd g))
          keys per ->
  map fst (with_rows per)
  = List.filter (fun p => has_rows (msd (probe_group traj p) mpp fps m detail)) keys.
Proof.
  induction 1 as [|p g keys per (Hp & Hm) _ IH]; [reflexivity|].
  unfold with_rows in *. cbn [List.filter]. rewrite Hm. cbn [has_rows].
  destruct (snd g) as [|r rows]; [exact IH|].
  cbn [map]. now rewrite IH, Hp.
Qed.

(** A call of [msd] whose lags end at 1 returns a table without rows. *)
Lemma msd_no_rows {pd : pandas} traj mpp fps m detail rows :
  msd traj mpp fps m detail = Ok rows ->
  (Z.min m (Z.of_nat (length traj)) <= 1)%Z -> rows = [].
Proof.
  intros H Hle. destruct (msd_rows_lags _ _ _ _ _ _ H) as [E|E]; [|exact E].
  rewrite lagtimes_arange, removelast_arange in E.
  rewrite arange_empty in E by (unfold clamp_lagtime; lia).
  destruct rows; [reflexivity | discriminate].
Qed.

Lemma has_rows_short {pd : pandas} traj mpp fps m detail :
  (Z.min m (Z.of_nat (length traj)) <= 1)%Z ->
  has_rows (msd traj mpp fps m detail) = false.
Proof.
  intros Hle. destruct (msd traj mpp fps m detail) as [rows|e] eqn:E; [|reflexivity].
  now rewrite (msd_no_rows _ _ _ _ _ _ E Hle).
Qed.

Lemma filter_none {A} (f : A -> bool) l :
  (forall a, In a l -> f a = false) -> List.filter f l = [].
Proof.
  induction l as [|a l IH]; [reflexivity|]. intros H. cbn [List.filter].
  rewrite (H a (or_introl eq_refl)). apply IH. intros b Hb. apply H. now right.
Qed.

Lemma all_lags_no_rows per :
  Forall (fun g : Z * list msd_row => snd g = []) per -> all_lags per = [].
Proof.
  unfold all_lags. induction 1 as [|g per Hg _ IH]; [reflexivity|].
  cbn [flat_map]. rewrite Hg. exact IH.
Qed.

(** X8: the outcome of [imsd] and [emsd].  On an empty table both find
    nothing to concatenate.  A probe with two records in one frame makes both
    fail in the reindexing, and a [max_lagtime] below 1 leaves nothing to
    concatenate.  Otherwise both return a table.  The columns of [imsd] are,
    in ascending order and without repetition, the ids of the probes for
    which [msd] returns a table with a row, and each row of [imsd] has one
    cell per column; a probe with a single record has no column, and with
    [max_lagtime = 1] the table of [imsd] has no column and no row. *)
Theorem imsd_emsd_outcome {pd : pandas} :
  forall traj mpp fps m stat detail,
    (traj = [] ->
     snd (imsd traj mpp fps m stat) = Raise ConcatError /\
     snd (emsd traj mpp fps m detail) = Raise ConcatError) /\
    (forall p,
        ~ List.NoDup (map frame (List.filter (fun r => (probe r =? p)%Z) traj)) ->
        (1 <= m)%Z ->
        snd (imsd traj mpp fps m stat) = Raise ReindexError /\
        snd (emsd traj mpp fps m detail) = Raise ReindexError) /\
    (traj <> [] -> frames_distinct traj -> (m <= 0)%Z ->
     snd (imsd traj mpp fps m stat) = Raise ConcatError /\
     snd (emsd traj mpp fps m detail) = Raise ConcatError) /\
    (traj <> [] -> frames_distinct traj -> (1 <= m)%Z ->
     (exists t,
         snd (imsd traj mpp fps m stat) = Ok t /\
         imsd_probes t
         = List.filter (fun p => has_rows (msd (probe_group traj p) mpp fps m false))
                       (sorted_unique (map probe traj)) /\
         Forall (fun row => length (snd row) = length (imsd_probes t)) (imsd_rows t) /\
         (forall p r, List.filter (fun r => (probe r =? p)%Z) traj = [r] ->
                      ~ In p (imsd_probes t)) /\
         (m = 1%Z -> imsd_probes t = [] /\ imsd_rows t = [])) /\
     (exists out, snd (emsd traj mpp fps m detail) = Ok out)).
Proof.
  intros traj mpp fps m stat detail.
  destruct (probe_msds_outcome traj mpp fps m false) as (I1 & I2 & I3 & I4).
  destruct (probe_msds_outcome traj mpp fps m true) as (E1 & E2 & E3 & E4).
  unfold imsd, emsd. cbn [snd].
  split; [|split; [|split]].
  - intros H. now rewrite (I1 H), (E1 H).
  - intros p Hd Hm. now rewrite (I2 p Hd Hm), (E2 p Hd Hm).
  - intros Hne Hd Hm. now rewrite (I3 Hne Hd Hm), (E3 Hne Hd Hm).
  - intros Hne Hd Hm.
    destruct (I4 Hne Hd Hm) as (per & Hper & Hkeys & Hpne).
    destruct (E4 Hne Hd Hm) as (per' & -> & _ & Hpne').
    pose proof (probe_msds_groups _ _ _ _ _ _ Hper) as Hgroups.
    rewrite Hper. cbn [rbind]. split.
    + destruct per as [|g per]; [congruence|]. eexists. split; [reflexivity|].
      cbn [imsd_probes imsd_rows]. cbv zeta.
      assert (map fst (with_rows (g :: per))
              = List.filter
                  (fun p => has_rows (msd (probe_group traj p) mpp fps m false))
                  (sorted_unique (map probe traj))) as Hcols
        by exact (with_rows_probes _ _ _ _ _ _ _ Hgroups).
      split; [exact Hcols|]. split; [|split].
      * apply List.Forall_forall. intros row Hrow.
        apply in_map_iff in Hrow as (l & <- & _). cbn [snd]. now rewrite !length_map.
      * intros p r Hone Hin. rewrite Hcols in Hin.
        apply filter_In in Hin as (_ & Hin).
        rewrite has_rows_short in Hin; [discriminate|].
        unfold probe_group. rewrite Hone. cbn. lia.
      * intros ->.
        assert (Forall (fun g0 : Z * list msd_row => snd g0 = []) (g :: per)) as Hnone.
        { clear -Hgroups. induction Hgroups as [|p g0 ? ? (_ & Hm) _ IH]; constructor.
          - eapply msd_no_rows; [exact Hm | lia].
          - exact IH. }
        split.
        -- rewrite Hcols. apply filter_none. intros p _.
           apply has_rows_short. lia.
        -- now rewrite (all_lags_no_rows _ Hnone).
    + destruct per' as [|g per']; [congruence|].
      destruct detail; eexists; reflexivity.
Qed.

Section UnderZeroSum.
Local Existing Instance sums_nothing_to_zero.

Lemma imsd_emsd_outcome_witness :
  (exists t, snd (imsd two_probes 1 1 5 stat_msd) = Ok t /\
             imsd_probes t = [3; 7]%Z) /\
  (exists t, snd (imsd lone_probe 1 1 5 stat_msd) = Ok t /\
             imsd_probes t = [1]%Z) /\
  snd (emsd two_probes 1 1 0 false) = Raise ConcatError.
Proof.
  assert (two_probes <> []) as Hne by discriminate.
  assert (frames_distinct two_probes) as Hd.
  { intros p. apply unique_labels_NoDup. cbn [two_probes List.filter probe].
    destruct (Z.eqb_spec 7 p) as [E7|H7]; destruct (Z.eqb_spec 3 p) as [E3|H3];
      try reflexivity. exfalso. lia. }
  assert (lone_probe <> []) as Hne' by discriminate.
  assert (frames_distinct lone_probe) as Hd'.
  { intros p. apply unique_labels_NoDup. cbn [lone_probe List.filter probe].
    destruct (Z.eqb_spec 1 p) as [E1|H1]; destruct (Z.eqb_spec 2 p) as [E2|H2];
      try reflexivity. exfalso. lia. }
  destruct (imsd_emsd_outcome two_probes 1 1 5 stat_msd false) as (_ & _ & _ & H).
  destruct (imsd_emsd_outcome lone_probe 1 1 5 stat_msd false) as (_ & _ & _ & H').
  destruct (imsd_emsd_outcome two_probes 1 1 0 stat_msd false) as (_ & _ & H0 & _).
  split; [|split].
  - destruct H as [(t & Et & Hp & _) _]; [exact Hne | exact Hd | lia|].
    exists t. split; [exact Et|]. rewrite Hp. vm_compute. reflexivity.
  - destruct H' as [(t & Et & Hp & _) _]; [exact Hne' | exact Hd' | lia|].
    exists t. split; [exact Et|]. rewrite Hp. vm_compute. reflexivity.
  - apply H0; [exact Hne | exact Hd | lia].
Defined.

End UnderZeroSum.

Section SingleProbe.
Local Open Scope Q_scope.

Lemma zinsert_below h t :
  Forall (Z.lt h) t -> zinsert h t = h :: t.
Proof.
  destruct t as [|h' t]; [reflexivity|]. intros H. inversion H as [|? ? Hlt _]; subst.
  cbn [zinsert]. destruct (Z.ltb_spec h h'); [reflexivity | lia].
Qed.

Lemma sorted_unique_id l : StronglySorted Z.lt l -> sorted_unique l = l.
Proof.
  induction 1 as [|h t Ht IH Hh]; [reflexivity|].
  cbn [sorted_unique fold_right]. fold (sorted_unique t). rewrite IH.
  now apply zinsert_below.
Qed.

Lemma arange_sorted a b : StronglySorted Z.lt (arange a b).
Proof.
  remember (Z.to_nat (b - a)) as n eqn:En. revert a En.
  induction n as [|n IH]; intros a En.
  - rewrite arange_empty by lia. constructor.
  - rewrite arange_cons by lia. constructor; [apply IH; lia|].
    apply List.Forall_forall. intros f Hf. apply in_arange in Hf. lia.
Qed.

Lemma sorted_unique_const (l : list Z) p :
  l <> [] -> (forall a, In a l -> a = p) -> sorted_unique l = [p].
Proof.
  induction l as [|a l IH]; [congruence|]. intros _ H.
  cbn [sorted_unique fold_right]. fold (sorted_unique l).
  rewrite (H a (or_introl eq_refl)).
  destruct l as [|b l]; [reflexivity|].
  rewrite IH; [|discriminate | intros c Hc; apply H; now right].
  cbn [zinsert]. rewrite Z.ltb_irrefl, Z.eqb_refl. reflexivity.
Qed.

(** The loop over the probes on a table of one probe. *)
Lemma probe_msds_single {pd : pandas} traj p mpp fps m detail :
  traj <> [] -> (forall r, In r traj -> probe r = p) ->
  probe_msds (set_index_frame traj) mpp fps m detail
  = match msd (set_index_frame traj) mpp fps m detail with
    | Ok rows => Ok [(p, rows)]
    | Raise e => Raise e
    end.
Proof.
  intros Hne Hp. unfold probe_msds. rewrite groupby_probe_set_index.
  rewrite (sorted_unique_const (map probe traj) p).
  - cbn [map mapM fst snd]. rewrite filter_all.
    + destruct (msd (set_index_frame traj) mpp fps m detail); reflexivity.
    + intros r Hr. apply Z.eqb_eq. now apply Hp.
  - destruct traj; [congruence | discriminate].
  - intros a Ha. apply in_map_iff in Ha as (r & <- & Hr). now apply Hp.
Qed.

Lemma msd_lags_sorted {pd : pandas} traj mpp fps m detail rows :
  msd traj mpp fps m detail = Ok rows -> StronglySorted Z.lt (map lag rows).
Proof.
  intros H. destruct (msd_rows_lags _ _ _ _ _ _ H) as [E| ->]; [|constructor].
  rewrite E, lagtimes_arange, removelast_arange. apply arange_sorted.
Qed.

Lemma row_at_self rows r :
  List.NoDup (map lag rows) -> In r rows -> row_at (lag r) rows = Some r.
Proof.
  unfold row_at. induction rows as [|a rows IH]; [intros _ []|].
  cbn [map find]. intros Hnd Hin. inversion Hnd as [|? ? Hn Hnd']; subst.
  destruct Hin as [->|Hin]; [now rewrite Z.eqb_refl|].
  destruct (Z.eqb_spec (lag a) (lag r)) as [E|_]; [|now apply IH].
  exfalso. apply Hn. rewrite E. now apply in_map.
Qed.

Lemma all_lags_single {pd : pandas} p traj mpp fps m detail rows :
  msd traj mpp fps m detail = Ok rows -> all_lags [(p, rows)] = map lag rows.
Proof.
  intros H. unfold all_lags. cbn [flat_map snd]. rewrite app_nil_r.
  apply sorted_unique_id. eapply msd_lags_sorted; eassumption.
Qed.

(** X9: for a table of one probe, [imsd] fails as [msd] fails on the table
    indexed by frame.  When [msd] returns rows, [imsd] returns one column,
    headed by the probe id, that holds, lag time by lag time, the chosen
    statistic of these rows; when [msd] returns a table without rows, so for
    a single record or for [max_lagtime = 1], the table of [imsd] has no
    column and no row. *)
Theorem imsd_single_probe {pd : pandas} :
  forall traj p mpp fps m stat,
    traj <> [] -> (forall r, In r traj -> probe r = p) ->
    snd (imsd traj mpp fps m stat)
    = match msd (set_index_frame traj) mpp fps m false with
      | Ok rows =>
          Ok {| imsd_probes := match rows with [] => [] | _ => [p] end;
                imsd_rows := map (fun r => (lagt r, [stat_of stat r])) rows |}
      | Raise e => Raise e
      end.
Proof.
  intros traj p mpp fps m stat Hne Hp. unfold imsd. cbn [snd].
  rewrite (probe_msds_single traj p mpp fps m false Hne Hp).
  destruct (msd (set_index_frame traj) mpp fps m false) as [rows|e] eqn:E;
    [|reflexivity].
  cbn [rbind]. cbv zeta. destruct rows as [|r0 rows']; [reflexivity|].
  set (rows := r0 :: rows') in *.
  assert (with_rows [(p, rows)] = [(p, rows)]) as -> by reflexivity.
  cbn [map fst]. f_equal. f_equal.
  rewrite (all_lags_single p _ _ _ _ _ _ E), map_map.
  destruct (msd_rows_shape _ _ _ _ _ _ E) as (Hnd & pos & _ & Hs).
  apply map_ext_in. intros r Hr. cbn [map snd].
  rewrite (row_at_self rows r Hnd Hr). f_equal.
  rewrite (Hs r Hr) at 2. reflexivity.
Qed.

Section UnderZeroSum.
Local Existing Instance sums_nothing_to_zero.

Lemma imsd_single_probe_witness :
  (exists r0 rows,
      msd (set_index_frame line5) 1 1 100 false = Ok (r0 :: rows) /\
      snd (imsd line5 1 1 100 stat_x)
      = Ok {| imsd_probes := [0%Z];
              imsd_rows := map (fun r => (lagt r, [mean_x r])) (r0 :: rows) |}) /\
  snd (imsd fresh 1 1 1 stat_x) = Ok {| imsd_probes := []; imsd_rows := [] |}.
Proof.
  split.
  - destruct (msd (set_index_frame line5) 1 1 100 false) as [[|r0 rows]|e] eqn:E;
      [vm_compute in E; discriminate | | vm_compute in E; discriminate].
    exists r0, rows. split; [reflexivity|].
    rewrite (imsd_single_probe line5 0%Z 1 1 100 stat_x).
    + rewrite E. reflexivity.
    + discriminate.
    + intros r [<-|[<-|[<-|[<-|[<-|[]]]]]]; reflexivity.
  - rewrite (imsd_single_probe fresh 1%Z 1 1 1 stat_x).
    + reflexivity.
    + discriminate.
    + intros r [<-|[<-|[]]]; reflexivity.
Defined.

End UnderZeroSum.

Lemma Forall2_map_left_in {A B} (P : B -> A -> Prop) (f : A -> B) l :
  (forall a, In a l -> P (f a) a) -> Forall2 P (map f l) l.
Proof.
  induction l as [|a l IH]; [constructor|]. intros H. cbn [map].
  constructor; [apply H; now left | apply IH; intros b Hb; apply H; now right].
Qed.

Lemma ceq_refl c : ceq c c.
Proof. destruct c; cbn; [reflexivity | exact I]. Qed.

Lemma weighted_single_none (col : msd_row -> cell) r :
  col r = None -> weighted col [r] = None.
Proof. intros E. unfold weighted. cbn [map]. rewrite E. reflexivity. Qed.

Lemma weighted_single (col : msd_row -> cell) r v n :
  col r = Some v -> N_of r = Some n -> 0 < n -> ceq (weighted col [r]) (Some v).
Proof.
  intros Hv Hn Hpos.
  eapply ceq_trans.
  - apply (weighted_defined col [r] [(v, n)]); [discriminate | |].
    + constructor; [split; assumption | constructor].
    + cbn [map snd qsum fold_right]. now rewrite Qplus_0_r.
  - unfold weighted_mean. cbn [ceq map qsum fold_right fst snd].
    field. intros E. rewrite E in Hpos. exact (Qlt_irrefl _ Hpos).
Qed.

(** A single row with the weight 0 or without a weight: the quotient of
    line 143 is missing. *)
Lemma weighted_single_zero (col : msd_row -> cell) r :
  (forall n, N_of r = Some n -> n == 0) -> weighted col [r] = None.
Proof.
  intros Hz. unfold weighted. cbn [map].
  destruct (N_of r) as [n|]; [|destruct (col r); reflexivity].
  specialize (Hz n eq_refl).
  assert (Qeq_bool ((n + 0) / inject_Z 1) 0 = true) as Eb.
  { apply Qeq_bool_iff. rewrite Hz. reflexivity. }
  unfold cdiv. destruct (mean_skipna [cmul (col r) (Some n)]); [|reflexivity].
  change (mean_skipna [Some n]) with (Some ((n + 0) / inject_Z 1)).
  cbv beta iota. now rewrite Eb.
Qed.

(** The sample count of a row of [msd(..., detail=True)]: positive where
    the row has its statistics, 0 where it has none. *)
Lemma msd_row_weight {pd : pandas} traj mpp fps m rows r :
  msd traj mpp fps m true = Ok rows -> In r rows ->
  (mean_x2 r <> None -> exists n, N_of r = Some n /\ 0 < n) /\
  (mean_x2 r = None -> forall n, N_of r = Some n -> n == 0).
Proof.
  intros E Hr.
  assert (exists pos, densify nan2 (pos_of traj) = Ok pos) as (pos & Hd).
  { unfold msd in E. destruct (densify nan2 (pos_of traj)) as [pos|e];
      [eauto | discriminate]. }
  pose proof (msd_row_sample_count _ _ _ _ _ _ _ _ E Hd Hr) as HN. cbn in HN.
  destruct (msd_rows_in _ _ _ _ _ _ _ _ E Hd Hr) as [Er Hl].
  assert (mean_x2 r = None <-> count (xs_of (displacement pos (lag r))) = 0%nat) as Hc.
  { rewrite Er at 1. cbn [mean_x2 msd_row_at].
    rewrite <- (count_squares (xs_of (displacement pos (lag r)))).
    rewrite <- mean_skipna_none.
    destruct (mean_skipna (squares (xs_of (displacement pos (lag r)))));
      cbn; split; intros; congruence. }
  assert (0 < inject_Z (lag r + 1)) as Hlag.
  { change 0 with (inject_Z 0). rewrite <- Zlt_Qlt. lia. }
  unfold N_of. rewrite HN. split.
  - intros Hx. eexists. split; [reflexivity|].
    assert (0 < count (xs_of (displacement pos (lag r))))%nat as Hpos
      by (destruct (count (xs_of (displacement pos (lag r)))); [tauto | lia]).
    apply Qmult_lt_0_compat; [reflexivity|].
    apply Qlt_shift_div_l; [exact Hlag|]. rewrite Qmult_0_l.
    change 0 with (inject_Z 0). rewrite <- Zlt_Qlt. lia.
  - intros Hx n [= <-]. apply Hc in Hx. rewrite Hx. cbn [Z.of_nat].
    unfold Qdiv. ring.
Qed.

(** X10: for a table of one probe, [emsd] fails as [msd] fails on the table
    indexed by frame, or returns one entry per row of
    [msd(..., detail=True)].  Where the row has its statistics, the entry
    holds the msd value of the row under the lag time of the row: the weight
    of the only probe cancels.  Where the row has none, the probe having no
    displacement at the lag, the weight is 0 and both the value and the lag
    time of the entry are missing, also when the row of [msd] holds 0. *)
Theorem emsd_single_probe {pd : pandas} :
  forall traj p mpp fps m,
    traj <> [] -> (forall r, In r traj -> probe r = p) ->
    match msd (set_index_frame traj) mpp fps m true,
          snd (emsd traj mpp fps m false) with
    | Ok rows, Ok (EmsdSeries s) =>
        Forall2 (fun e r =>
                   (mean_x2 r <> None ->
                    ceq (snd e) (msd_col r) /\ ceq (fst e) (lagt r)) /\
                   (mean_x2 r = None -> snd e = None /\ fst e = None)) s rows
    | Raise e, Raise e' => e = e'
    | _, _ => False
    end.
Proof.
  intros traj p mpp fps m Hne Hp. unfold emsd. cbn [snd].
  rewrite (probe_msds_single traj p mpp fps m true Hne Hp).
  destruct (msd (set_index_frame traj) mpp fps m true) as [rows|e] eqn:E;
    [|reflexivity].
  cbn [rbind]. rewrite (all_lags_single p _ _ _ _ _ _ E), !map_map.
  destruct (msd_rows_shape _ _ _ _ _ _ E) as (Hnd & pos & _ & Hs).
  apply Forall2_map_left_in. intros r Hr. cbn [fst snd e_msd e_lagt emsd_row_at].
  assert (rows_at (lag r) [(p, rows)] = [r]) as ->.
  { unfold rows_at. cbn [flat_map snd]. rewrite app_nil_r, (filter_row_at rows (lag r) Hnd).
    now rewrite (row_at_self rows r Hnd Hr). }
  destruct (msd_row_weight _ _ _ _ _ r E Hr) as (Hsome & Hnone).
  destruct (msd_row_columns _ _ _ _ _ _ _ E Hr) as (_ & _ & Hy2 & _ & _ & _ & Hsum & _).
  split.
  - intros Hx. destruct (Hsome Hx) as (n & Hn & Hpos). specialize (Hsum Hx).
    destruct (msd_col r) as [v|] eqn:Ev.
    + split; [exact (weighted_single msd_col r v n Ev Hn Hpos)|].
      destruct (lagt r) as [t|] eqn:Et.
      * exact (weighted_single lagt r t n Et Hn Hpos).
      * now rewrite (weighted_single_none lagt r Et).
    + exfalso. destruct (mean_x2 r) as [a|]; [|congruence].
      destruct (mean_y2 r) as [b|]; [destruct Hsum|].
      assert (Some a = None) as Ha by now apply Hy2. discriminate.
  - intros Hx. specialize (Hnone Hx).
    now rewrite !(weighted_single_zero _ r Hnone).
Qed.

Lemma Forall2_impl_in_r {A B} (P Q : A -> B -> Prop) l l' :
  Forall2 P l l' -> (forall a b, In b l' -> P a b -> Q a b) -> Forall2 Q l l'.
Proof.
  induction 1 as [|a b l l' Hab _ IH]; intros H; constructor.
  - apply H; [now left | exact Hab].
  - apply IH. intros a' b' Hb'. apply H. now right.
Qed.

(** The probe on a line has a displacement at every lag, and [emsd] returns
    the values of [msd].  The probe seen at frames 0 and 10 has none at lag
    1: under a pandas that sums nothing to 0 the row of [msd] holds the
    value 0, and the entry of [emsd] is missing. *)
Lemma emsd_single_probe_witness :
  (exists rows s,
      msd (pd := sums_nothing_to_zero) (set_index_frame line5) 1 1 3 true = Ok rows /\
      snd (emsd (pd := sums_nothing_to_zero) line5 1 1 3 false) = Ok (EmsdSeries s) /\
      Forall2 (fun e r => ceq (snd e) (msd_col r)) s rows) /\
  (exists r e,
      msd (pd := sums_nothing_to_zero) (set_index_frame gapped) 1 1 100 true = Ok [r] /\
      snd (emsd (pd := sums_nothing_to_zero) gapped 1 1 100 false) = Ok (EmsdSeries [e]) /\
      ceq (msd_col r) (Some 0) /\ snd e = None).
Proof.
  split.
  - pose proof (emsd_single_probe (pd := sums_nothing_to_zero) line5 0%Z 1 1 3) as H.
    destruct (msd (pd := sums_nothing_to_zero) (set_index_frame line5) 1 1 3 true)
      as [rows|e] eqn:E; [|vm_compute in E; discriminate].
    destruct (snd (emsd (pd := sums_nothing_to_zero) line5 1 1 3 false))
      as [[s|fr]|e] eqn:Ee; try (vm_compute in Ee; discriminate).
    exists rows, s. split; [reflexivity|]. split; [reflexivity|].
    assert (line5 <> []) as Hne by discriminate.
    assert (forall r, In r line5 -> probe r = 0%Z) as Hp
      by (intros r [<-|[<-|[<-|[<-|[<-|[]]]]]]; reflexivity).
    specialize (H Hne Hp).
    eapply Forall2_impl_in_r; [exact H|]. intros e r Hr [Hv _].
    apply Hv. vm_compute in E. injection E as <-.
    destruct Hr as [<-|[<-|[]]]; discriminate.
  - pose proof (emsd_single_probe (pd := sums_nothing_to_zero) gapped 0%Z 1 1 100) as H.
    destruct (msd (pd := sums_nothing_to_zero) (set_index_frame gapped) 1 1 100 true)
      as [[|r [|r' rows]]|e] eqn:E; try (vm_compute in E; discriminate).
    destruct (snd (emsd (pd := sums_nothing_to_zero) gapped 1 1 100 false))
      as [[[|e [|e' s]]|fr]|e] eqn:Ee; try (vm_compute in Ee; discriminate).
    exists r, e. split; [reflexivity|]. split; [reflexivity|].
    assert (gapped <> []) as Hne by discriminate.
    assert (forall r, In r gapped -> probe r = 0%Z) as Hp
      by (intros r0 [<-|[<-|[]]]; reflexivity).
    specialize (H Hne Hp). inversion H as [|? ? ? ? [_ Hnone] _]; subst.
    assert (mean_x2 r = None) as Hx by (vm_compute in E; now injection E as <-).
    split; [|exact (proj1 (Hnone Hx))].
    vm_compute in E. injection E as <-. reflexivity.
Defined.

End SingleProbe.

(** * Further properties: the two-point correlator *)

Section TwoPointRows.
Local Open Scope R_scope.

Ltac tp_unfold :=
  unfold tp_pair, rsqrt, radd, rmul, rsub, rdiv, ropp, rlift2;
  cbn [px py pdx pdy option_map].

(** A frame gives a row only when both probes have a position and a
    displacement and do not coincide. *)
Lemma tp_pair_row a b R pa pe :
  tp_pair a b = (Some R, (Some pa, Some pe)) ->
  exists x1 y1 dx1 dy1 x2 y2 dx2 dy2,
    a = PCols (Some x1) (Some y1) (Some dx1) (Some dy1) /\
    b = PCols (Some x2) (Some y2) (Some dx2) (Some dy2) /\
    (x1, y1) <> (x2, y2) /\
    R = sqrt ((x1 - x2) * (x1 - x2) + (y1 - y2) * (y1 - y2)) /\
    pa + pe = dx1 * dx2 + dy1 * dy2.
Proof.
  destruct a as [[x1|] [y1|] dxa dya], b as [[x2|] [y2|] dxb dyb];
    tp_unfold; try (destruct dxa, dya, dxb, dyb; discriminate).
  set (R0 := sqrt ((x1 - x2) * (x1 - x2) + (y1 - y2) * (y1 - y2))).
  destruct (Req_EM_T R0 0) as [E0|Hne0];
    destruct dxa as [dx1|], dya as [dy1|], dxb as [dx2|], dyb as [dy2|];
    try discriminate.
  cbn [option_map]. intros [= <- <- <-].
  exists x1, y1, dx1, dy1, x2, y2, dx2, dy2.
  assert (0 <= (x1 - x2) * (x1 - x2) + (y1 - y2) * (y1 - y2)) as Hsq.
  { pose proof (Rle_0_sqr (x1 - x2)) as H1. pose proof (Rle_0_sqr (y1 - y2)) as H2.
    unfold Rsqr in H1, H2. lra. }
  assert (R0 * R0 = (x1 - x2) * (x1 - x2) + (y1 - y2) * (y1 - y2)) as HRR
    by (unfold R0; now apply sqrt_sqrt).
  split; [reflexivity|]. split; [reflexivity|]. split; [|split; [reflexivity|]].
  - intros [= -> ->]. apply Hne0. unfold R0.
    replace ((x2 - x2) * (x2 - x2) + (y2 - y2) * (y2 - y2)) with 0 by ring.
    apply sqrt_0.
  - assert ((x1 - x2) / R0 * ((x1 - x2) / R0) + (y1 - y2) / R0 * ((y1 - y2) / R0) = 1)
      as Hunit.
    { field_simplify; [|assumption]. replace (R0 ^ 2) with (R0 * R0) by ring.
      rewrite HRR. field. rewrite <- HRR. nra. }
    set (nx := (x1 - x2) / R0) in *. set (ny := (y1 - y2) / R0) in *.
    replace ((dx1 * nx + dy1 * ny) * (dx2 * nx + dy2 * ny)
             + (dx1 * ny + dy1 * - nx) * (dx2 * ny + dy2 * - nx))
      with ((dx1 * dx2 + dy1 * dy2) * (nx * nx + ny * ny)) by ring.
    rewrite Hunit. ring.
Qed.

Lemma dropna_row_in f c f' row :
  In (f', row) (dropna_row f c) ->
  f' = f /\ c = (Some (tp_R row), (Some (tp_para row), Some (tp_perp row))).
Proof.
  destruct c as [[r|] [[pa|] [pe|]]]; cbn [dropna_row]; try (intros []; fail).
  intros [[= <- <-]|[]]. split; reflexivity.
Qed.

(** X11: every row of the correlator comes from a pair of probes
    [p1 < p2] and a frame in which both have a position and a displacement
    at the lag and do not coincide.  Its [R] is the distance of the probes,
    and positive, and [para + perp] is the dot product of the two
    displacements.  Frames in which the probes coincide give no row. *)
Theorem tp_rows_origin :
  forall traj lagframe rows f row,
    snd (_tp_corr traj lagframe) = Ok rows ->
    In (f, row) rows ->
    exists dr p1 p2 x1 y1 dx1 dy1 x2 y2 dx2 dy2,
      tp_dr (set_index_frame traj) lagframe = Ok dr /\
      (p1 < p2)%Z /\
      dr_at dr p1 f = PCols (Some x1) (Some y1) (Some dx1) (Some dy1) /\
      dr_at dr p2 f = PCols (Some x2) (Some y2) (Some dx2) (Some dy2) /\
      (x1, y1) <> (x2, y2) /\
      tp_R row = sqrt ((x1 - x2) * (x1 - x2) + (y1 - y2) * (y1 - y2)) /\
      0 < tp_R row /\
      tp_para row + tp_perp row = dx1 * dx2 + dy1 * dy2.
Proof.
  intros traj lagframe rows f row H Hin. unfold _tp_corr in H. cbn [snd] in H.
  destruct (tp_dr (set_index_frame traj) lagframe) as [dr|e] eqn:Hdr; [|discriminate].
  cbn [rbind] in H.
  match type of H with
  | match ?D with _ => _ end = _ => remember D as D0 eqn:ED
  end.
  destruct D0 as [|d0 D']; [discriminate|].
  assert (rows = concat (d0 :: D')) as -> by (now injection H).
  rewrite ED in Hin. clear ED H.
  apply in_concat in Hin as (prs & Hprs & Hin).
  apply in_flat_map in Hprs as (p1 & _ & Hprs).
  apply in_map_iff in Hprs as (p2 & <- & Hp2).
  apply filter_In in Hp2 as [_ Hlt]. apply Z.ltb_lt in Hlt.
  unfold pair_rows in Hin. apply in_flat_map in Hin as (f' & _ & Hin).
  apply dropna_row_in in Hin as [-> Hpair].
  destruct (tp_pair_row _ _ _ _ _ Hpair)
    as (x1 & y1 & dx1 & dy1 & x2 & y2 & dx2 & dy2 & Ha & Hb & Hne & HR & Hdot).
  exists dr, p1, p2, x1, y1, dx1, dy1, x2, y2, dx2, dy2.
  repeat split; try assumption.
  rewrite HR. now apply separation_nonzero.
Qed.

End TwoPointRows.

Section TwoPointOutcome.
Local Open Scope R_scope.

Lemma labels_rpos_of traj : labels (rpos_of traj) = map idx traj.
Proof. unfold labels, rpos_of. rewrite map_map. reflexivity. Qed.

Lemma probe_cols_outcome ptraj lagframe :
  ptraj <> [] ->
  (List.NoDup (map idx ptraj) -> exists c, probe_cols ptraj lagframe = Ok c) /\
  (~ List.NoDup (map idx ptraj) -> probe_cols ptraj lagframe = Raise ReindexError).
Proof.
  intros Hne.
  assert (rpos_of ptraj <> []) as Hpne by (destruct ptraj; [congruence | discriminate]).
  unfold probe_cols. split; intros H.
  - rewrite densify_ok; [|assumption | now rewrite labels_rpos_of].
    cbn [rbind]. eexists. reflexivity.
  - rewrite densify_duplicates; [reflexivity | assumption | now rewrite labels_rpos_of].
Qed.

Lemma tp_dr_outcome traj lagframe :
  (traj = [] -> tp_dr (set_index_frame traj) lagframe = Raise ConcatError) /\
  (forall p,
      ~ List.NoDup (map frame (List.filter (fun r => (probe r =? p)%Z) traj)) ->
      tp_dr (set_index_frame traj) lagframe = Raise ReindexError) /\
  (traj <> [] -> frames_distinct traj ->
   exists dr,
     tp_dr (set_index_frame traj) lagframe = Ok dr /\
     map fst dr = sorted_unique (map probe traj)).
Proof.
  unfold tp_dr. rewrite groupby_probe_set_index.
  set (F := fun g : Z * table R =>
              let* c := probe_cols (snd g) lagframe in Ok (fst g, c)).
  set (G := fun p => (p, set_index_frame (List.filter (fun r => (probe r =? p)%Z) traj))).
  assert (forall p, In p (sorted_unique (map probe traj)) ->
            snd (G p) <> [] /\ map idx (snd (G p))
            = map frame (List.filter (fun r => (probe r =? p)%Z) traj)) as HG.
  { intros p Hp. apply (proj1 (in_sorted_unique _ _)) in Hp. cbn [G snd]. split.
    - intros E. apply set_index_frame_nil in E. now apply (group_nonempty traj p Hp).
    - apply idx_set_index_frame. }
  split; [|split].
  - intros ->. reflexivity.
  - intros p Hdup. rewrite (mapM_raise F _ ReindexError); [reflexivity| |].
    + intros g Hg. apply in_map_iff in Hg as (q & <- & Hq).
      destruct (HG q Hq) as [Hne Hidx]. unfold F.
      destruct (probe_cols_outcome (snd (G q)) lagframe Hne) as [Hok Hre].
      destruct (NoDup_dec_Z (map idx (snd (G q)))) as [Hnd|Hnd].
      * destruct (Hok Hnd) as (c & ->). left. eexists. reflexivity.
      * right. now rewrite (Hre Hnd).
    + assert (In p (map probe traj)) as Hp.
      { destruct (List.filter (fun r => (probe r =? p)%Z) traj) as [|r l] eqn:E;
          [exfalso; apply Hdup; constructor|].
        assert (In r (List.filter (fun r => (probe r =? p)%Z) traj)) as Hr
          by (rewrite E; now left).
        apply filter_In in Hr as [Hr Hpr]. apply Z.eqb_eq in Hpr. subst p.
        now apply in_map. }
      apply (proj2 (in_sorted_unique _ _)) in Hp. exists (G p). split; [now apply in_map|].
      destruct (HG p Hp) as [Hne Hidx]. unfold F.
      destruct (probe_cols_outcome (snd (G p)) lagframe Hne) as [_ Hre].
      rewrite Hre; [reflexivity | now rewrite Hidx].
  - intros Hne Hdist.
    destruct (mapM_all_ok F (map G (sorted_unique (map probe traj)))) as (dr & Hdr & _).
    { intros g Hg. apply in_map_iff in Hg as (q & <- & Hq).
      destruct (HG q Hq) as [Hgne Hidx]. unfold F.
      destruct (probe_cols_outcome (snd (G q)) lagframe Hgne) as [Hok _].
      destruct Hok as (c & ->); [rewrite Hidx; apply Hdist|]. eexists. reflexivity. }
    assert (map fst dr = sorted_unique (map probe traj)) as Hkeys.
    { rewrite (mapM_keys (fun t => probe_cols t lagframe) _ _ Hdr).
      rewrite map_map. cbn [G fst]. apply map_id. }
    exists dr. rewrite Hdr. cbn [rbind]. split; [|exact Hkeys].
    destruct dr as [|d dr]; [|reflexivity]. exfalso. cbn in Hkeys.
    destruct traj as [|r traj']; [congruence|].
    assert (In (probe r) (sorted_unique (map probe (r :: traj')))) as Hp
      by (apply in_sorted_unique; now left).
    rewrite <- Hkeys in Hp. destruct Hp.
Qed.

(** X12: the outcome of [_tp_corr].  It finds nothing to concatenate on
    an empty table and on a table of a single probe, fails in the reindexing
    when a probe has two records in one frame, and returns a table whenever
    the table has two different probes and no probe has two records in one
    frame. *)
Theorem tp_corr_needs_two_probes :
  forall traj lagframe,
    (traj = [] -> snd (_tp_corr traj lagframe) = Raise ConcatError) /\
    (forall p,
        ~ List.NoDup (map frame (List.filter (fun r => (probe r =? p)%Z) traj)) ->
        snd (_tp_corr traj lagframe) = Raise ReindexError) /\
    (forall p, traj <> [] -> frames_distinct traj ->
        (forall r, In r traj -> probe r = p) ->
        snd (_tp_corr traj lagframe) = Raise ConcatError) /\
    (forall r r', frames_distinct traj ->
        In r traj -> In r' traj -> probe r <> probe r' ->
        exists rows, snd (_tp_corr traj lagframe) = Ok rows).
Proof.
  intros traj lagframe.
  destruct (tp_dr_outcome traj lagframe) as (H1 & H2 & H3).
  unfold _tp_corr. cbn [snd]. split; [|split; [|split]].
  - intros E. now rewrite (H1 E).
  - intros p Hd. now rewrite (H2 p Hd).
  - intros p Hne Hd Hp. destruct (H3 Hne Hd) as (dr & -> & _). cbn [rbind].
    rewrite probe_set_index_frame, (sorted_unique_const (map probe traj) p).
    + cbn [flat_map List.filter map app]. now rewrite Z.ltb_irrefl.
    + destruct traj; [congruence | discriminate].
    + intros a Ha. apply in_map_iff in Ha as (r & <- & Hr). now apply Hp.
  - intros r r' Hd Hr Hr' Hpp.
    assert (traj <> []) as Hne by (intros ->; destruct Hr).
    destruct (H3 Hne Hd) as (dr & -> & _). cbn [rbind].
    rewrite probe_set_index_frame.
    set (ids := sorted_unique (map probe traj)).
    assert (exists p1 p2, In p1 ids /\ In p2 ids /\ (p1 < p2)%Z) as (p1 & p2 & I1 & I2 & Hlt).
    { assert (In (probe r) ids) by (apply in_sorted_unique; now apply in_map).
      assert (In (probe r') ids) by (apply in_sorted_unique; now apply in_map).
      destruct (Z_lt_le_dec (probe r) (probe r')).
      - exists (probe r), (probe r'). auto.
      - exists (probe r'), (probe r). repeat split; auto. lia. }
    match goal with
    | |- exists rows, match ?D with _ => _ end = _ =>
        assert (In (pair_rows dr p1 p2) D) as HD
    end.
    { apply in_flat_map. exists p1. split; [assumption|].
      apply in_map. apply filter_In. split; [assumption | now apply Z.ltb_lt]. }
    match goal with
    | |- exists rows, match ?D with _ => _ end = _ => destruct D; [destruct HD|]
    end.
    eexists. reflexivity.
Qed.

Lemma tp_corr_needs_two_probes_witness :
  snd (_tp_corr two_points 1) = Raise ConcatError /\
  exists rows, snd (_tp_corr sidestep 1) = Ok rows.
Proof.
  destruct (tp_corr_needs_two_probes two_points 1) as (_ & _ & H1 & _).
  destruct (tp_corr_needs_two_probes sidestep 1) as (_ & _ & _ & H2).
  split.
  - apply (H1 1%Z); [discriminate | |].
    + intros p. apply unique_labels_NoDup. cbn [two_points List.filter probe].
      destruct (1 =? p)%Z; reflexivity.
    + intros r [<-|[<-|[<-|[]]]]; reflexivity.
  - apply (H2 (Row 0 1 0 0 0) (Row 1 2 0 1 0)).
    + intros p. apply unique_labels_NoDup. cbn [sidestep List.filter probe].
      destruct (Z.eqb_spec 1 p); destruct (Z.eqb_spec 2 p); try reflexivity.
      exfalso. lia.
    + left. reflexivity.
    + right. left. reflexivity.
    + cbn. discriminate.
Defined.

Lemma tp_rows_origin_witness :
  exists x1 y1 dx1 dy1 x2 y2 dx2 dy2 : R,
    (x1, y1) <> (x2, y2) /\
    1 = sqrt ((x1 - x2) * (x1 - x2) + (y1 - y2) * (y1 - y2)) /\
    0 + 1 = dx1 * dx2 + dy1 * dy2.
Proof.
  destruct (tp_rows_origin sidestep 1 [(1%Z, TpRow 1 0 1)] 1 (TpRow 1 0 1)
              sidestep_tp_corr (or_introl eq_refl))
    as (dr & p1 & p2 & x1 & y1 & dx1 & dy1 & x2 & y2 & dx2 & dy2 &
        _ & _ & _ & _ & Hne & HR & _ & Hdot).
  exists x1, y1, dx1, dy1, x2, y2, dx2, dy2. cbn in HR, Hdot. auto.
Defined.

End TwoPointOutcome.

Section TwoPointSymmetry.
Local Open Scope R_scope.

Lemma tp_triple_eq (r a a' b b' : R) :
  a = a' -> b = b' ->
  (Some r, (Some a, Some b)) = (Some r, (Some a', Some b')).
Proof. now intros -> ->. Qed.

(** X13: the loop body of the correlator gives the same [R], [para] and
    [perp] whichever of the two probes is taken first, missing entries
    included. *)
Theorem tp_pair_symmetric : forall a b, tp_pair a b = tp_pair b a.
Proof.
  intros [[x1|] [y1|] [dx1|] [dy1|]] [[x2|] [y2|] [dx2|] [dy2|]];
    unfold tp_pair, rsqrt, radd, rmul, rsub, rdiv, ropp, rlift2;
    cbn [px py pdx pdy option_map]; try reflexivity;
    replace ((x2 - x1) * (x2 - x1) + (y2 - y1) * (y2 - y1))
      with ((x1 - x2) * (x1 - x2) + (y1 - y2) * (y1 - y2)) by ring;
    destruct (Req_EM_T (sqrt ((x1 - x2) * (x1 - x2) + (y1 - y2) * (y1 - y2))) 0)
      as [E|E]; cbn [option_map]; try reflexivity.
  apply tp_triple_eq; field; exact E.
Qed.

End TwoPointSymmetry.

(** * Further properties: drift *)

Section DriftRows.
Local Open Scope Q_scope.

Lemma in_keys_drift (drift : drift_curve) f :
  In f (map fst (map_to_list drift)) <-> exists dxy, drift !! f = Some dxy.
Proof.
  rewrite in_map_iff. split.
  - intros ([g dxy] & <- & Hin). exists dxy. cbn [fst].
    apply elem_of_map_to_list. now apply list_elem_of_In.
  - intros (dxy & H). exists (f, dxy). split; [reflexivity|].
    apply list_elem_of_In. now apply elem_of_map_to_list.
Qed.

Lemma sorted_app (l1 l2 : list Z) :
  StronglySorted Z.le l1 -> StronglySorted Z.le l2 ->
  (forall a b, In a l1 -> In b l2 -> (a <= b)%Z) ->
  StronglySorted Z.le (l1 ++ l2).
Proof.
  induction 1 as [|a l1 H1 IH Ha]; intros H2 H; [assumption|].
  cbn [app]. constructor.
  - apply IH; [assumption|]. intros a' b Ha' Hb. apply H; [now right | assumption].
  - apply Forall_app. split; [assumption|].
    apply List.Forall_forall. intros b Hb. apply H; [now left | assumption].
Qed.

Lemma sorted_constant (f : Z) (l : list Z) :
  (forall a, In a l -> a = f) -> StronglySorted Z.le l.
Proof.
  induction l as [|a l IH]; [constructor|]. intros H. constructor.
  - apply IH. intros b Hb. apply H. now right.
  - apply List.Forall_forall. intros b Hb.
    rewrite (H a (or_introl eq_refl)), (H b (or_intror Hb)). lia.
Qed.

Lemma sorted_groups {A} (key : A -> Z) (g : Z -> list A) keys :
  StronglySorted Z.lt keys ->
  (forall f o, In o (g f) -> key o = f) ->
  StronglySorted Z.le (map key (flat_map g keys)).
Proof.
  intros Hs Hg. induction Hs as [|h t Ht IH Hh]; [constructor|].
  cbn [flat_map]. rewrite map_app. apply sorted_app; [|exact IH|].
  - apply (sorted_constant h). intros a Ha.
    apply in_map_iff in Ha as (o & <- & Ho). now apply Hg.
  - intros a b Ha Hb.
    apply in_map_iff in Ha as (o & <- & Ho). rewrite (Hg h o Ho).
    apply in_map_iff in Hb as (o' & <- & Ho').
    apply in_flat_map in Ho' as (f & Hf & Ho'). rewrite (Hg f o' Ho').
    rewrite List.Forall_forall in Hh. specialize (Hh f Hf). lia.
Qed.

Lemma sub_rows_at_idx traj drift f o :
  In o (sub_rows_at traj drift f) -> d_idx o = f.
Proof.
  unfold sub_rows_at.
  destruct (List.filter (fun r => (frame r =? f)%Z) traj) as [|r0 rs].
  - intros [<-|[]]. reflexivity.
  - intros Ho. apply in_map_iff in Ho as (r & <- & _). reflexivity.
Qed.


End DriftRows.

Section DriftCurve.
Local Open Scope Q_scope.

Lemma length_rolling_mean w l : length (rolling_mean w l) = length l.
Proof. unfold rolling_mean. now rewrite length_map, length_seq. Qed.

Lemma length_cumsum_from acc l : length (cumsum_from acc l) = length l.
Proof. revert acc. induction l as [|v l IH]; intros acc; cbn; [reflexivity | now rewrite IH]. Qed.

Lemma labels_combine {A} (ks : list Z) (vs : list A) :
  length ks = length vs -> labels (combine ks vs) = ks.
Proof.
  revert vs. induction ks as [|k ks IH]; intros [|v vs] H; try discriminate; [reflexivity|].
  cbn. f_equal. apply IH. now injection H.
Qed.

Lemma diff_rows_in t d :
  In d (diff_rows t) ->
  exists a b, In a t /\ In b t /\
    d = (frame b, ((frame b - frame a)%Z, (x b - x a, y b - y a))).
Proof.
  induction t as [|a [|b t] IH]; try (intros []; fail).
  change (diff_rows (a :: b :: t))
    with ((frame b, ((frame b - frame a)%Z, (x b - x a, y b - y a))) :: diff_rows (b :: t)).
  intros [<-|Hd].
  - exists a, b. split; [now left|]. split; [right; now left | reflexivity].
  - destruct (IH Hd) as (a' & b' & Ha' & Hb' & E).
    exists a', b'. split; [now right|]. split; [now right | assumption].
Qed.

Lemma labels_frame_deltas traj :
  labels (frame_deltas traj)
  = sorted_unique
      (map fst (List.filter (fun d => (fst (snd d) =? 1)%Z)
                  (flat_map (fun g => diff_rows (snd g)) (groupby_probe traj)))).
Proof.
  unfold frame_deltas, labels. rewrite map_map. cbn [fst]. apply map_id.
Qed.

Lemma groupby_probe_in {num} (traj : table num) g r :
  In g (groupby_probe traj) -> In r (snd g) -> In r traj /\ probe r = fst g.
Proof.
  unfold groupby_probe. intros Hg Hr. apply in_map_iff in Hg as (p & <- & _).
  cbn [fst snd] in *. apply filter_In in Hr as [Hr Hp]. apply Z.eqb_eq in Hp. auto.
Qed.

(** X15: the drift curve of [compute_drift].  An empty table leaves
    nothing to concatenate; otherwise the curve has one row per frame, in
    ascending order, and only for frames [f] such that some probe has a
    record in frame [f - 1] and one in frame [f]: a step over a gap
    contributes nothing. *)
Theorem compute_drift_frames :
  forall traj smoothing,
    (traj = [] -> compute_drift traj smoothing = Raise ConcatError) /\
    (traj <> [] ->
     exists d,
       compute_drift traj smoothing = Ok d /\
       StronglySorted Z.lt (labels d) /\
       forall f, In f (labels d) ->
         exists a b, In a traj /\ In b traj /\ probe a = probe b /\
                     frame a = (f - 1)%Z /\ frame b = f).
Proof.
  intros traj smoothing. split; [intros ->; reflexivity|].
  intros Hne. destruct traj as [|r0 traj']; [congruence|].
  set (traj := r0 :: traj') in *. eexists. split; [reflexivity|].
  assert (forall (l : list Q),
            length ((if (0 <? smoothing)%Z then rolling_mean (Z.to_nat smoothing)
                     else fun l => l) l) = length l) as Hsm.
  { intros l. destruct (0 <? smoothing)%Z; [apply length_rolling_mean | reflexivity]. }
  rewrite labels_combine.
  2:{ rewrite length_combine, !length_cumsum_from, !Hsm, !length_map.
      unfold labels. rewrite length_map. lia. }
  rewrite labels_frame_deltas. split; [apply sorted_unique_sorted|].
  intros f Hf. apply (proj1 (in_sorted_unique _ _)) in Hf.
  apply in_map_iff in Hf as (d & <- & Hd).
  apply filter_In in Hd as [Hd H1]. apply Z.eqb_eq in H1.
  apply in_flat_map in Hd as (g & Hg & Hd).
  destruct (diff_rows_in _ _ Hd) as (a & b & Ha & Hb & ->). cbn [fst snd] in *.
  destruct (groupby_probe_in traj g a Hg Ha) as [Ha' Hpa].
  destruct (groupby_probe_in traj g b Hg Hb) as [Hb' Hpb].
  exists a, b. repeat split; try assumption; [congruence | lia].
Qed.

Lemma compute_drift_frames_witness :
  exists d,
    compute_drift gapped 0 = Ok d /\ StronglySorted Z.lt (labels d) /\ labels d = [].
Proof.
  destruct (compute_drift_frames gapped 0) as [_ H].
  destruct H as (d & E & Hs & _); [discriminate|].
  exists d. split; [exact E|]. split; [exact Hs|].
  vm_compute in E. injection E as <-. reflexivity.
Defined.

End DriftCurve.

Section OwnDrift.
Local Open Scope Q_scope.

Lemma groupby_probe_single {num} (traj : table num) p :
  traj <> [] -> (forall r, In r traj -> probe r = p) ->
  groupby_probe traj = [(p, traj)].
Proof.
  intros Hne Hp. unfold groupby_probe.
  rewrite (sorted_unique_const (map probe traj) p).
  - cbn [map]. rewrite filter_all; [reflexivity|].
    intros r Hr. apply Z.eqb_eq. now apply Hp.
  - destruct traj; [congruence | discriminate].
  - intros a Ha. apply in_map_iff in Ha as (r & <- & Hr). now apply Hp.
Qed.

Lemma diff_rows_cons2 a b (t : table Q) :
  diff_rows (a :: b :: t)
  = (frame b, ((frame b - frame a)%Z, (x b - x a, y b - y a))) :: diff_rows (b :: t).
Proof. reflexivity. Qed.

Lemma diff_rows_labels a (t : table Q) :
  map fst (diff_rows (a :: t)) = map frame t.
Proof.
  revert a. induction t as [|b t IH]; intros a; [reflexivity|].
  rewrite diff_rows_cons2. cbn [map fst]. f_equal. apply IH.
Qed.

Lemma diff_rows_steps a (t : table Q) f0 :
  map frame (a :: t) = arange f0 (f0 + Z.of_nat (length (a :: t))) ->
  forall d, In d (diff_rows (a :: t)) -> fst (snd d) = 1%Z.
Proof.
  revert a f0. induction t as [|b t IH]; intros a f0 Hf d Hd; [destruct Hd|].
  rewrite diff_rows_cons2 in Hd.
  rewrite arange_cons in Hf by (cbn [length]; lia).
  cbn [map] in Hf. injection Hf as Ha Hf.
  assert (map frame (b :: t) = arange (f0 + 1) (f0 + 1 + Z.of_nat (length (b :: t)))) as Hf'.
  { cbn [map]. rewrite Hf. f_equal. cbn [length]. lia. }
  destruct Hd as [<-|Hd].
  - cbn [fst snd]. rewrite arange_cons in Hf' by (cbn [length]; lia).
    cbn [map] in Hf'. injection Hf' as Hb _. lia.
  - exact (IH b (f0 + 1)%Z Hf' d Hd).
Qed.

Lemma filter_unique_key {A} (key : A -> Z) (l : list A) d :
  List.NoDup (map key l) -> In d l ->
  List.filter (fun e => (key e =? key d)%Z) l = [d].
Proof.
  induction l as [|a l IH]; [intros _ []|].
  cbn [map List.filter]. intros Hnd Hin. inversion Hnd as [|? ? Hn Hnd']; subst.
  destruct Hin as [->|Hin].
  - rewrite Z.eqb_refl. f_equal.
    assert (forall e, In e l -> (key e =? key d)%Z = false) as Hno.
    { intros e He. apply Z.eqb_neq. intros E. apply Hn. rewrite <- E. now apply in_map. }
    clear -Hno. induction l as [|e l IH]; [reflexivity|]. cbn [List.filter].
    rewrite (Hno e (or_introl eq_refl)). apply IH. intros e' He'. apply Hno. now right.
  - destruct (Z.eqb_spec (key a) (key d)) as [E|_]; [|now apply IH].
    exfalso. apply Hn. rewrite E. now apply in_map.
Qed.

(** The averaged deltas of a single probe seen in consecutive frames: its
    own deltas. *)
Lemma frame_deltas_single r0 rest p :
  (forall r, In r (r0 :: rest) -> probe r = p) ->
  map frame (r0 :: rest)
  = arange (frame r0) (frame r0 + Z.of_nat (length (r0 :: rest))) ->
  frame_deltas (r0 :: rest)
  = map (fun d => (fst d, (qsum [fst (snd (snd d))] / inject_Z 1,
                           qsum [snd (snd (snd d))] / inject_Z 1)))
        (diff_rows (r0 :: rest)).
Proof.
  intros Hp Hf. unfold frame_deltas.
  rewrite (groupby_probe_single (r0 :: rest) p) by (discriminate || assumption).
  cbn [flat_map snd]. rewrite app_nil_r.
  rewrite filter_all
    by (intros d Hd; apply Z.eqb_eq; exact (diff_rows_steps r0 rest _ Hf d Hd)).
  assert (StronglySorted Z.lt (map fst (diff_rows (r0 :: rest)))) as Hs.
  { rewrite diff_rows_labels. rewrite arange_cons in Hf by (cbn [length]; lia).
    cbn [map] in Hf. injection Hf as ->. apply arange_sorted. }
  rewrite (sorted_unique_id _ Hs), map_map.
  apply map_ext_in. intros d Hd.
  rewrite (filter_unique_key fst (diff_rows (r0 :: rest)) d (sorted_NoDup _ Hs) Hd).
  reflexivity.
Qed.

(** The running sum of the deltas is the displacement from the first
    record. *)
Lemma cumsum_deltas (col : row Q -> Q) (sel : Z * (Z * (Q * Q)) -> Q) :
  (forall a b, sel (frame b, ((frame b - frame a)%Z, (x b - x a, y b - y a)))
               == col b - col a) ->
  forall rest a acc,
    Forall2 (fun c r => c == acc + (col r - col a))
            (cumsum_from acc (map (fun d => qsum [sel d] / inject_Z 1)
                                  (diff_rows (a :: rest))))
            rest.
Proof.
  intros Hsel. induction rest as [|b rest IH]; intros a acc; [constructor|].
  rewrite diff_rows_cons2. cbn [map cumsum_from]. constructor.
  - cbn [qsum fold_right]. rewrite Hsel. field.
  - eapply Forall2_impl; [apply (IH b)|]. intros c r Hc. cbn beta in Hc.
    rewrite Hc. cbn [qsum fold_right]. rewrite Hsel. field.
Qed.

Lemma Forall2_combine3 {A} (P Q : Q -> A -> Prop) (key : A -> Z) ks cx cy l :
  Forall2 (fun k r => k = key r) ks l -> Forall2 P cx l -> Forall2 Q cy l ->
  Forall2 (fun e r => fst e = key r /\ P (fst (snd e)) r /\ Q (snd (snd e)) r)
          (combine ks (combine cx cy)) l.
Proof.
  intros Hk. revert cx cy. induction Hk as [|k r ks l Hkr Hk IH]; intros cx cy Hx Hy.
  - inversion Hx; subst. constructor.
  - inversion Hx; subst. inversion Hy; subst. cbn [combine].
    constructor; [cbn; auto | now apply IH].
Qed.

Lemma Forall2_in_r {A B} (P : A -> B -> Prop) l l' b :
  Forall2 P l l' -> In b l' -> exists a, In a l /\ P a b.
Proof.
  induction 1 as [|a b' l l' Hab H IH]; [intros []|].
  intros [->|Hb].
  - exists a. split; [now left | assumption].
  - destruct (IH Hb) as (a' & Ha' & HP). exists a'. split; [now right | assumption].
Qed.

Lemma Forall2_labels {A B} (key : B -> Z) (l : list (Z * A)) (l' : list B) P :
  Forall2 (fun e r => fst e = key r /\ P e r) l l' -> labels l = map key l'.
Proof.
  unfold labels. induction 1 as [|e r l l' [He _] _ IH]; [reflexivity|].
  cbn [map]. now rewrite He, IH.
Qed.

(** The drift curve of a single probe seen in consecutive frames. *)
Lemma compute_drift_single r0 rest p :
  (forall r, In r (r0 :: rest) -> probe r = p) ->
  map frame (r0 :: rest)
  = arange (frame r0) (frame r0 + Z.of_nat (length (r0 :: rest))) ->
  exists d,
    compute_drift (r0 :: rest) 0 = Ok d /\
    Forall2 (fun e r => fst e = frame r /\
                        fst (snd e) == x r - x r0 /\
                        snd (snd e) == y r - y r0) d rest.
Proof.
  intros Hp Hf. eexists. split; [reflexivity|].
  cbn [Z.ltb Z.compare]. rewrite (frame_deltas_single r0 rest p Hp Hf).
  unfold labels. rewrite !map_map. cbn [fst snd].
  apply (Forall2_combine3 (fun c r => c == x r - x r0) (fun c r => c == y r - y r0) frame).
  - change (fun x : Z * (Z * (Q * Q)) => fst x) with (@fst Z (Z * (Q * Q))).
    rewrite diff_rows_labels. apply Forall2_map_left_in. reflexivity.
  - eapply Forall2_impl.
    + apply (cumsum_deltas x (fun d => fst (snd (snd d)))). intros a b. reflexivity.
    + intros c r Hc. cbn beta in Hc. rewrite Hc. ring.
  - eapply Forall2_impl.
    + apply (cumsum_deltas y (fun d => snd (snd (snd d)))). intros a b. reflexivity.
    + intros c r Hc. cbn beta in Hc. rewrite Hc. ring.
Qed.

Lemma sorted_ext (l1 l2 : list Z) :
  StronglySorted Z.lt l1 -> StronglySorted Z.lt l2 ->
  (forall a, In a l1 <-> In a l2) -> l1 = l2.
Proof.
  intros H1. revert l2. induction H1 as [|a t1 Ht1 IH Ha]; intros l2 H2 Hin.
  - destruct l2 as [|b t2]; [reflexivity|]. destruct (proj2 (Hin b) (or_introl eq_refl)).
  - destruct H2 as [|b t2 Ht2 Hb]; [destruct (proj1 (Hin a) (or_introl eq_refl))|].
    rewrite List.Forall_forall in Ha, Hb.
    assert (a = b) as ->.
    { destruct (proj1 (Hin a) (or_introl eq_refl)) as [E|E]; [congruence|].
      destruct (proj2 (Hin b) (or_introl eq_refl)) as [E'|E']; [congruence|].
      specialize (Ha b E'). specialize (Hb a E). lia. }
    f_equal. apply IH; [assumption|]. intros c. split; intros Hc.
    + destruct (proj1 (Hin c) (or_intror Hc)) as [E|E]; [|assumption].
      specialize (Ha c Hc). lia.
    + destruct (proj2 (Hin c) (or_intror Hc)) as [E|E]; [|assumption].
      specialize (Hb c Hc). lia.
Qed.

Lemma NoDup_map_inj {A} (f : A -> Z) l a b :
  List.NoDup (map f l) -> In a l -> In b l -> f a = f b -> a = b.
Proof.
  induction l as [|c l IH]; [intros _ []|]. cbn [map]. intros Hnd Ha Hb E.
  inversion Hnd as [|? ? Hn Hnd']; subst.
  destruct Ha as [->|Ha], Hb as [->|Hb]; try reflexivity.
  - exfalso. apply Hn. rewrite E. now apply in_map.
  - exfalso. apply Hn. rewrite <- E. now apply in_map.
  - now apply IH.
Qed.

Lemma flat_map_singletons {A B} (g : Z -> list B) (h : A -> B) (key : A -> Z) l :
  (forall r, In r l -> g (key r) = [h r]) -> flat_map g (map key l) = map h l.
Proof.
  induction l as [|r l IH]; [reflexivity|]. intros H.
  cbn [map flat_map]. rewrite (H r (or_introl eq_refl)). cbn [app]. f_equal.
  apply IH. intros r' Hr'. apply H. now right.
Qed.

(** With one record per frame, the rows of the result are the records, in
    their order, each minus the drift of its frame. *)
Lemma sub_rows_one_per_frame traj drift :
  List.NoDup (map frame traj) ->
  flat_map (sub_rows_at traj drift) (map frame traj)
  = map (drift_image drift) traj.
Proof.
  intros Hnd.
  assert (forall r, In r traj ->
            sub_rows_at traj drift (frame r) = [drift_image drift r]) as H.
  { intros r Hr. unfold sub_rows_at.
    rewrite (filter_unique_key frame traj r Hnd Hr). reflexivity. }
  now apply flat_map_singletons.
Qed.

(** A table sorted by frame, one record per frame, against a curve over
    frames of the table: the rows are the records in their order. *)
Lemma sub_drift_one_per_frame traj (drift : drift_curve) :
  StronglySorted Z.lt (map frame traj) ->
  (forall f dxy, drift !! f = Some dxy -> In f (map frame traj)) ->
  sub_drift traj drift = map (drift_image drift) traj.
Proof.
  intros Hs Hkeys. destruct (sub_drift_cases traj drift) as (Hempty & Hfull).
  destruct (decide (drift = ∅)) as [E|Hne]; [now apply Hempty|].
  rewrite (Hfull Hne).
  assert (sorted_unique (map frame traj ++ map fst (map_to_list drift)) = map frame traj)
    as ->.
  { apply sorted_ext; [apply sorted_unique_sorted | exact Hs|].
    intros a. rewrite in_sorted_unique, in_app_iff. split; [|tauto].
    intros [Ha|Ha]; [assumption|]. apply in_keys_drift in Ha as (dxy & Ha).
    eapply Hkeys; eassumption. }
  apply sub_rows_one_per_frame. now apply sorted_NoDup.
Qed.

(** X14: the table [subtract_drift] returns for a given drift curve.
    Against a curve without rows it holds the records in the order of the
    table; against any other curve its rows are in ascending order of frame.
    A table that has one record per frame, in ascending order, and every
    frame of the curve (so a table under the index of the curve itself)
    also comes back record by record in its own order.
    Each row either stands for a record of the trajectory, or belongs to a
    frame that the drift curve has and no record has: such a frame always
    gets a row, without probe and frame number, whose position is 0 minus
    the drift. *)
Theorem subtract_drift_rows :
  forall (traj : table Q) (drift : drift_curve),
  exists out,
    subtract_drift traj (Some drift) = Ok out /\
    (drift = ∅ -> out = map (drift_image drift) traj) /\
    (drift <> ∅ -> StronglySorted Z.le (map d_idx out)) /\
    (StronglySorted Z.lt (map frame traj) ->
     (forall f dxy, drift !! f = Some dxy -> In f (map frame traj)) ->
     out = map (drift_image drift) traj) /\
    (forall o, In o out ->
       (exists r, In r traj /\ o = drift_image drift r) \/
       (exists f dxy, drift !! f = Some dxy /\ ~ In f (map frame traj) /\
                      o = drift_only_row f dxy)) /\
    (forall f dxy, drift !! f = Some dxy -> ~ In f (map frame traj) ->
       In (drift_only_row f dxy) out).
Proof.
  intros traj drift. eexists. split; [reflexivity|].
  pose proof (sub_drift_one_per_frame traj drift) as Hsame.
  destruct (sub_drift_cases traj drift) as (Hempty & Hfull).
  destruct (decide (drift = ∅)) as [Ekeys|Hne].
  { rewrite (Hempty Ekeys).
    split; [reflexivity|]. split; [intros Hne; contradiction|].
    split; [reflexivity|]. split.
    - intros o Ho. left. apply in_map_iff in Ho as (r & <- & Hr). eauto.
    - intros f dxy Hd.
      assert (drift !! f = None) as Hn by (rewrite Ekeys; apply lookup_empty).
      congruence. }
  rewrite (Hfull Hne) in Hsame |- *. clear Hempty Hfull.
  set (keys := sorted_unique (map frame traj ++ map fst (map_to_list drift))) in *.
  split; [intros E; contradiction|]. split; [|split; [exact Hsame|split]].
  - intros _. apply sorted_groups; [apply sorted_unique_sorted|].
    intros f o. apply sub_rows_at_idx.
  - intros o Ho. apply in_flat_map in Ho as (f & Hf & Ho).
    unfold sub_rows_at in Ho.
    pose proof (fun r => proj1 (filter_In (fun r : row Q => (frame r =? f)%Z) r traj)) as Hfil.
    pose proof (fun r => proj2 (filter_In (fun r : row Q => (frame r =? f)%Z) r traj)) as Hfil'.
    destruct (List.filter (fun r => (frame r =? f)%Z) traj) as [|r0 rs].
    + right. destruct Ho as [<-|[]].
      assert (~ In f (map frame traj)) as Hnf.
      { intros Hin. apply in_map_iff in Hin as (r & Hr & Hin).
        apply (Hfil' r). split; [assumption | now apply Z.eqb_eq]. }
      apply in_sorted_unique, in_app_or in Hf. destruct Hf as [Hf|Hf]; [contradiction|].
      apply in_keys_drift in Hf as (dxy & Hd).
      exists f, dxy. split; [assumption|]. split; [assumption|].
      rewrite Hd. reflexivity.
    + left. apply in_map_iff in Ho as (r & <- & Hr).
      destruct (Hfil r Hr) as [Hin Hfr]. apply Z.eqb_eq in Hfr. subst f.
      exists r. split; [assumption | reflexivity].
  - intros f dxy Hd Hnf. apply in_flat_map. exists f. split.
    + apply in_sorted_unique, in_or_app. right. apply in_keys_drift. eauto.
    + unfold sub_rows_at.
      pose proof (fun r => proj1 (filter_In (fun r : row Q => (frame r =? f)%Z) r traj)) as Hfil.
      destruct (List.filter (fun r => (frame r =? f)%Z) traj) as [|r0 rs].
      * rewrite Hd. left. reflexivity.
      * exfalso. apply Hnf. destruct (Hfil r0 (or_introl eq_refl)) as [Hin Hfr].
        apply Z.eqb_eq in Hfr. subst f. now apply in_map.
Qed.

Lemma subtract_drift_rows_witness :
  (exists out,
      subtract_drift line5 (Some {[ 7%Z := (Some 2%Q, None) ]}) = Ok out /\
      In (drift_only_row 7 (Some 2%Q, None)) out) /\
  (exists out,
      subtract_drift out_of_order (Some ∅) = Ok out /\
      map d_idx out = [5; 3]%Z) /\
  (exists out,
      subtract_drift out_of_order (Some {[ 3%Z := (Some 1%Q, Some 1%Q) ]}) = Ok out /\
      map d_idx out = [3; 5]%Z /\ StronglySorted Z.le (map d_idx out)) /\
  (exists out,
      subtract_drift line5 (Some {[ 2%Z := (Some 1%Q, Some 1%Q) ]}) = Ok out /\
      out = map (drift_image {[ 2%Z := (Some 1%Q, Some 1%Q) ]}) line5).
Proof.
  split; [|split; [|split]].
  - destruct (subtract_drift_rows line5 {[ 7%Z := (Some 2%Q, None) ]})
      as (out & E & _ & _ & _ & _ & H).
    exists out. split; [exact E|]. apply H.
    + reflexivity.
    + cbn. intuition discriminate.
  - destruct (subtract_drift_rows out_of_order ∅) as (out & E & H & _).
    exists out. split; [exact E|]. rewrite (H eq_refl). reflexivity.
  - destruct (subtract_drift_rows out_of_order {[ 3%Z := (Some 1%Q, Some 1%Q) ]})
      as (out & E & _ & H & _).
    exists out. split; [exact E|]. split.
    + vm_compute in E. injection E as <-. reflexivity.
    + apply H. intros E0.
      assert (({[ 3%Z := (Some 1%Q, Some 1%Q) ]} : drift_curve) !! 3%Z = None) as Hn
        by (rewrite E0; apply lookup_empty).
      vm_compute in Hn. discriminate.
  - destruct (subtract_drift_rows line5 {[ 2%Z := (Some 1%Q, Some 1%Q) ]})
      as (out & E & _ & _ & H & _).
    exists out. split; [exact E|]. apply H.
    + cbn. repeat constructor; lia.
    + intros f dxy Hf. apply lookup_singleton_Some in Hf as [<- _].
      cbn. tauto.
Defined.

Lemma curve_of_keys d f dxy :
  curve_of d !! f = Some dxy -> In f (labels d).
Proof.
  unfold curve_of. intros H. apply elem_of_list_to_map_2 in H.
  apply list_elem_of_In in H. apply in_map_iff in H as (e & [= <- _] & He).
  unfold labels. now apply in_map.
Qed.

Lemma curve_of_lookup_none d f :
  ~ In f (labels d) -> curve_of d !! f = None.
Proof.
  intros H. destruct (curve_of d !! f) as [dxy|] eqn:E; [|reflexivity].
  exfalso. apply H. eapply curve_of_keys; eassumption.
Qed.

Lemma curve_of_lookup d e :
  List.NoDup (labels d) -> In e d ->
  curve_of d !! fst e = Some (Some (fst (snd e)), Some (snd (snd e))).
Proof.
  intros Hnd He. unfold curve_of. apply elem_of_list_to_map_1.
  - apply NoDup_ListNoDup.
    assert ((map (fun r : Z * (Q * Q) => (fst r, (Some (fst (snd r)), Some (snd (snd r))))) d).*1
            = labels d) as ->; [|exact Hnd].
    unfold labels. clear. induction d as [|a d IH]; [reflexivity|].
    cbn. now rewrite IH.
  - apply list_elem_of_In. apply in_map_iff. exists e. split; [reflexivity | assumption].
Qed.

(** X16: a single probe seen in consecutive frames, one record after the
    other.  The drift curve of [compute_drift] holds, for every frame after
    the first, the displacement of the probe from its first position; and
    [subtract_drift], left to compute the drift itself, returns the records
    with the probe held at its first position. *)
Theorem subtract_own_drift_single_probe :
  forall r0 rest p,
    (forall r, In r (r0 :: rest) -> probe r = p) ->
    map frame (r0 :: rest)
    = arange (frame r0) (frame r0 + Z.of_nat (length (r0 :: rest))) ->
    (exists d,
        compute_drift (r0 :: rest) 0 = Ok d /\
        Forall2 (fun e r => fst e = frame r /\
                            fst (snd e) == x r - x r0 /\
                            snd (snd e) == y r - y r0) d rest) /\
    (exists out,
        subtract_drift (r0 :: rest) None = Ok out /\
        Forall2 (fun o r => d_idx o = frame r /\
                            ceq (d_probe o) (Some (inject_Z p)) /\
                            ceq (d_x o) (Some (x r0)) /\
                            ceq (d_y o) (Some (y r0))) out (r0 :: rest)).
Proof.
  intros r0 rest p Hp Hf.
  destruct (compute_drift_single r0 rest p Hp Hf) as (d & Hd & HF).
  split; [exists d; split; assumption|].
  unfold subtract_drift. rewrite Hd. cbn [rbind]. eexists. split; [reflexivity|].
  set (traj := r0 :: rest) in *. set (drift := curve_of d).
  assert (labels d = map frame rest) as Hl by exact (Forall2_labels frame d rest _ HF).
  assert (StronglySorted Z.lt (map frame traj)) as Hs by (rewrite Hf; apply arange_sorted).
  pose proof (sorted_NoDup _ Hs) as Hnd.
  assert (List.NoDup (labels d)) as Hndl.
  { rewrite Hl. cbn [traj map] in Hnd. now inversion Hnd. }
  rewrite (sub_drift_one_per_frame traj drift Hs).
  2:{ intros f dxy Ha. apply curve_of_keys in Ha. rewrite Hl in Ha. now right. }
  apply Forall2_map_left_in. intros r Hr.
  unfold drift_image. cbn [d_idx d_probe d_frame d_x d_y].
  split; [reflexivity|]. split.
  { rewrite (Hp r Hr). cbn. unfold Datatypes.id. ring. }
  destruct Hr as [<-|Hr].
  - assert (drift !! frame r0 = None) as ->.
    { apply curve_of_lookup_none. rewrite Hl. cbn [traj map] in Hnd. now inversion Hnd. }
    cbn. unfold Datatypes.id. split; ring.
  - destruct (Forall2_in_r _ d rest r HF Hr) as (e & He & Hk & Hx & Hy).
    rewrite <- Hk.
    assert (drift !! fst e = Some (Some (fst (snd e)), Some (snd (snd e)))) as Hlk
      by exact (curve_of_lookup d e Hndl He).
    unfold cell in *. rewrite Hlk.
    cbn. unfold Datatypes.id. rewrite Hx, Hy. split; ring.
Qed.

Lemma subtract_own_drift_single_probe_witness :
  exists out,
    subtract_drift line5 None = Ok out /\
    Forall2 (fun o r => d_idx o = frame r /\
                        ceq (d_x o) (Some 0) /\ ceq (d_y o) (Some 0)) out line5.
Proof.
  destruct (subtract_own_drift_single_probe
              (Row 0 0 0 0 0) [Row 1 0 1 1 0; Row 2 0 2 2 0; Row 3 0 3 3 0; Row 4 0 4 4 0] 0%Z)
    as [_ (out & E & H)].
  - intros r [<-|[<-|[<-|[<-|[<-|[]]]]]]; reflexivity.
  - reflexivity.
  - exists out. split; [exact E|].
    eapply Forall2_impl; [exact H|]. intros o r (H1 & _ & H2 & H3). auto.
Defined.

End OwnDrift.

(** * Further properties: dirt *)

Section DirtBounds.
Local Open Scope R_scope.

Lemma is_not_dirt_lookup traj threshold mpp p :
  In p (map probe traj) ->
  lookup_label p (is_not_dirt traj threshold mpp)
  = Some (if Rlt_dec threshold
               (diag_size (List.filter (fun r => (probe r =? p)%Z) traj))
          then true else false).
Proof.
  intros Hp. unfold is_not_dirt, groupby_probe. rewrite map_map. cbn [fst snd].
  apply (lookup_label_keyed
           (fun k => if Rlt_dec threshold
                          (diag_size (List.filter (fun r => (probe r =? k)%Z) traj))
                     then true else false)).
  now apply in_sorted_unique.
Qed.

(** The diagonal of the bounding box of a group is at least the distance
    of any two of its records. *)
Lemma diag_size_bound g r1 r2 :
  In r1 g -> In r2 g ->
  sqrt ((x r1 - x r2) ^ 2 + (y r1 - y r2) ^ 2) <= diag_size g.
Proof.
  intros H1 H2. destruct g as [|r g]; [destruct H1|]. unfold diag_size.
  assert (In (x r1) (x r :: map x g)) as X1 by exact (in_map x (r :: g) r1 H1).
  assert (In (x r2) (x r :: map x g)) as X2 by exact (in_map x (r :: g) r2 H2).
  assert (In (y r1) (y r :: map y g)) as Y1 by exact (in_map y (r :: g) r1 H1).
  assert (In (y r2) (y r :: map y g)) as Y2 by exact (in_map y (r :: g) r2 H2).
  pose proof (rmaximum_ge _ _ _ X1). pose proof (rmaximum_ge _ _ _ X2).
  pose proof (rminimum_le _ _ _ X1). pose proof (rminimum_le _ _ _ X2).
  pose proof (rmaximum_ge _ _ _ Y1). pose proof (rmaximum_ge _ _ _ Y2).
  pose proof (rminimum_le _ _ _ Y1). pose proof (rminimum_le _ _ _ Y2).
  apply sqrt_le_1_alt. nra.
Qed.

(** X17: a probe that has two records farther apart than the threshold is
    never classified as dirt, whatever else it did and whatever [mpp] is. *)
Theorem is_not_dirt_moved :
  forall traj threshold mpp r1 r2,
    In r1 traj -> In r2 traj -> probe r1 = probe r2 ->
    threshold < sqrt ((x r1 - x r2) ^ 2 + (y r1 - y r2) ^ 2) ->
    lookup_label (probe r1) (is_not_dirt traj threshold mpp) = Some true.
Proof.
  intros traj threshold mpp r1 r2 H1 H2 Hp Hd.
  rewrite is_not_dirt_lookup by now apply in_map.
  set (g := List.filter (fun r => (probe r =? probe r1)%Z) traj).
  assert (In r1 g) as G1 by (apply filter_In; split; [assumption | apply Z.eqb_refl]).
  assert (In r2 g) as G2
    by (apply filter_In; split; [assumption | apply Z.eqb_eq; congruence]).
  pose proof (diag_size_bound g r1 r2 G1 G2) as Hb.
  destruct (Rlt_dec threshold (diag_size g)) as [_|Hn]; [reflexivity | lra].
Qed.

Lemma is_not_dirt_moved_witness :
  lookup_label 1%Z (is_not_dirt two_points 1 7) = Some true.
Proof.
  apply (is_not_dirt_moved two_points 1 7 (Row 0 1 0 0 0) (Row 1 1 1 2 0)).
  - left. reflexivity.
  - right. left. reflexivity.
  - reflexivity.
  - cbn [x y]. replace ((0 - 2) ^ 2 + (0 - 0) ^ 2) with (2 * 2) by ring.
    rewrite sqrt_square; lra.
Defined.

Lemma diag_size_nonneg g : 0 <= diag_size g.
Proof. destruct g; [apply Rle_refl | apply sqrt_pos]. Qed.

(** X18: the answer of [is_not_dirt] has one entry per probe id, in
    ascending order of the ids, and is empty for an empty table.  It does not
    depend on [mpp]; a probe that is not dirt at a threshold is not dirt at
    any lower one; and below the threshold 0 no probe is dirt. *)
Theorem is_not_dirt_answers :
  forall traj threshold mpp,
    map fst (is_not_dirt traj threshold mpp) = sorted_unique (map probe traj) /\
    (traj = [] -> is_not_dirt traj threshold mpp = []) /\
    (forall mpp', is_not_dirt traj threshold mpp' = is_not_dirt traj threshold mpp) /\
    (forall p lower, lower <= threshold ->
        lookup_label p (is_not_dirt traj threshold mpp) = Some true ->
        lookup_label p (is_not_dirt traj lower mpp) = Some true) /\
    (threshold < 0 ->
     forall p, In p (map probe traj) ->
        lookup_label p (is_not_dirt traj threshold mpp) = Some true).
Proof.
  intros traj threshold mpp. split; [|split; [|split; [|split]]].
  - unfold is_not_dirt, groupby_probe. rewrite !map_map. cbn [fst]. apply map_id.
  - intros ->. reflexivity.
  - reflexivity.
  - intros p lower Hle H.
    destruct (in_dec Z.eq_dec p (map probe traj)) as [Hp|Hp].
    + rewrite is_not_dirt_lookup in * by assumption.
      destruct (Rlt_dec threshold _) as [Hlt|]; [|discriminate].
      destruct (Rlt_dec lower _) as [|Hn]; [reflexivity | lra].
    + rewrite lookup_label_notin in H; [discriminate|].
      unfold labels, is_not_dirt, groupby_probe. rewrite !map_map. cbn [fst].
      rewrite map_id, in_sorted_unique. exact Hp.
  - intros Hneg p Hp. rewrite is_not_dirt_lookup by assumption.
    pose proof (diag_size_nonneg (List.filter (fun r => (probe r =? p)%Z) traj)).
    destruct (Rlt_dec threshold _) as [|Hn]; [reflexivity | lra].
Qed.

Lemma is_not_dirt_answers_witness :
  lookup_label 1%Z (is_not_dirt two_points (-1) 1) = Some true.
Proof.
  destruct (is_not_dirt_answers two_points (-1) 1) as (_ & _ & _ & _ & H).
  apply H; [lra | left; reflexivity].
Defined.

Lemma rmaximum_translate c l : forall v,
  rmaximum (v + c) (map (fun a => a + c) l) = rmaximum v l + c.
Proof.
  unfold rmaximum. induction l as [|a l IH]; intros v; [reflexivity|]. cbn [map fold_left].
  rewrite <- IH. f_equal. unfold Rmax.
  destruct (Rle_dec (v + c) (a + c)), (Rle_dec v a); try reflexivity; lra.
Qed.

Lemma rminimum_translate c l : forall v,
  rminimum (v + c) (map (fun a => a + c) l) = rminimum v l + c.
Proof.
  unfold rminimum. induction l as [|a l IH]; intros v; [reflexivity|]. cbn [map fold_left].
  rewrite <- IH. f_equal. unfold Rmin.
  destruct (Rle_dec (v + c) (a + c)), (Rle_dec v a); try reflexivity; lra.
Qed.

Lemma filter_translate cx cy traj p :
  List.filter (fun r => (probe r =? p)%Z) (translate cx cy traj)
  = translate cx cy (List.filter (fun r => (probe r =? p)%Z) traj).
Proof.
  induction traj as [|r t IH]; [reflexivity|].
  cbn [translate map List.filter probe]. fold (translate cx cy t). rewrite IH.
  destruct (probe r =? p)%Z; reflexivity.
Qed.

Lemma diag_size_translate cx cy g :
  diag_size (translate cx cy g) = diag_size g.
Proof.
  destruct g as [|r g]; [reflexivity|].
  cbn [translate map diag_size x y]. rewrite !map_map. cbn [x y].
  rewrite <- (map_map x (fun a => a + cx)), <- (map_map y (fun a => a + cy)).
  rewrite !rmaximum_translate, !rminimum_translate. f_equal. ring.
Qed.

(** X19: the answer of [is_not_dirt] is the same for a table and for the
    table moved as a whole: only the extent of a probe counts, not where in
    the image it is. *)
Theorem is_not_dirt_translate :
  forall cx cy traj threshold mpp,
    is_not_dirt (translate cx cy traj) threshold mpp = is_not_dirt traj threshold mpp.
Proof.
  intros cx cy traj threshold mpp. unfold is_not_dirt, groupby_probe.
  assert (map probe (translate cx cy traj) = map probe traj) as ->
    by (unfold translate; rewrite map_map; reflexivity).
  rewrite !map_map. apply map_ext. intros p. cbn [fst snd].
  now rewrite filter_translate, diag_size_translate.
Qed.

End DirtBounds.

(** * Further properties: the displacements of [vanhove] *)

Section VanHove.
Local Open Scope Q_scope.

Lemma zmaximum_arange a b : (a < b)%Z -> zmaximum (arange a b) = Ok (b - 1)%Z.
Proof.
  intros H. remember (Z.to_nat (b - a - 1)) as n eqn:En.
  revert a H En. induction n as [|n IH]; intros a H En.
  - assert (b = a + 1)%Z as -> by lia.
    rewrite (arange_cons a (a + 1)) by lia. rewrite arange_empty by lia.
    cbn. f_equal. lia.
  - rewrite (arange_cons a b) by lia.
    assert (zmaximum (arange (a + 1) b) = Ok (b - 1)%Z) as E by (apply IH; lia).
    rewrite (arange_cons (a + 1) b) in * by lia.
    cbn [zmaximum] in *. rewrite E. cbn [rbind]. f_equal. lia.
Qed.

Lemma displaced_nowhere mpp (a : list cell) (cols : list Z) :
  Forall (fun c => c = None)
         (map (cscale mpp) (zip_with csub a (map (fun _ => None) cols))).
Proof.
  revert cols. induction a as [|u a IH]; intros [|c cols]; cbn; try constructor.
  - now destruct u.
  - apply IH.
Qed.

(** The cases of the positions step of [vanhove]. *)
Lemma vanhove_disp_cases :
  forall (pos : positions) (lagtime : Z) (mpp : Q),
    let fill := map (fun _ : Z => @None Q) (columns pos) in
    let first := first_label (prows pos) in
    let last := last_label (prows pos) in
    (prows pos = [] -> vanhove_disp pos lagtime mpp = Raise IndexError) /\
    (prows pos <> [] -> ~ List.NoDup (labels (prows pos)) ->
     vanhove_disp pos lagtime mpp = Raise ReindexError) /\
    (prows pos <> [] -> List.NoDup (labels (prows pos)) ->
     ((last < first)%Z -> vanhove_disp pos lagtime mpp = Raise ValueError) /\
     ((first <= last)%Z -> (last < lagtime)%Z ->
      vanhove_disp pos lagtime mpp = Raise (NameError "frame")) /\
     ((first <= last)%Z -> (lagtime <= last)%Z ->
      exists dense,
        densify fill (prows pos) = Ok dense /\
        vanhove_disp pos lagtime mpp
        = Ok (map (fun f => (f, map (cscale mpp)
                                 (zip_with csub (at_label fill dense f)
                                                (at_label fill dense (f - lagtime)))))
                  (arange first (1 + last))))).
Proof.
  intros pos lagtime mpp fill first last. split; [|split].
  - intros E. unfold vanhove_disp. rewrite E. reflexivity.
  - intros Hne Hd. unfold vanhove_disp. cbv zeta.
    fold fill. now rewrite (densify_duplicates fill (prows pos) Hne Hd).
  - intros Hne Hnd.
    pose proof (densify_ok fill (prows pos) Hne Hnd) as Hd.
    subst first last.
    destruct (densify fill (prows pos)) as [dense|e] eqn:E; [|discriminate].
    pose proof (densify_labels _ _ _ E) as Hl.
    change (labels dense
            = arange (first_label (prows pos)) (1 + last_label (prows pos))) in Hl.
    clear Hd. unfold vanhove_disp. cbv zeta. fold fill. rewrite E. cbn [rbind].
    rewrite Hl. split; [|split].
    + intros Hlt. rewrite arange_empty by lia. reflexivity.
    + intros Hle Hlag. rewrite zmaximum_arange by lia. cbn [rbind].
      replace (lagtime <=? 1 + last_label (prows pos) - 1)%Z with false
        by (symmetry; apply Z.leb_gt; lia).
      reflexivity.
    + intros Hle Hlag. exists dense. split; [reflexivity|].
      rewrite zmaximum_arange by lia. cbn [rbind].
      replace (lagtime <=? 1 + last_label (prows pos) - 1)%Z with true
        by (symmetry; apply Z.leb_le; lia).
      cbn [py_assert rbind]. f_equal.
      rewrite (shift_consecutive fill lagtime dense _ _ Hl).
      rewrite (keyed_by_labels fill dense) at 1 by (rewrite Hl; apply NoDup_arange).
      rewrite Hl.
      apply (zip_rows_keyed (fun a b : list cell => map (cscale mpp) (zip_with csub a b))
                            (at_label fill dense)
                            (fun k => at_label fill dense (k - lagtime))).
Qed.

(** X20: the positions step of [vanhove].  An empty table raises an
    IndexError, a frame label that occurs twice a ReindexError, a last label
    below the first a ValueError.  Otherwise the call goes by the lag and the
    last frame label alone: a lag above the last label raises a NameError
    for [frame]; any other lag returns one row per frame from the first to
    the last, the positions at the frame minus those [lagtime] frames
    earlier, times [mpp]. *)
Theorem vanhove_disp_outcome :
  forall (pos : positions) (lagtime : Z) (mpp : Q),
    let fill := map (fun _ : Z => @None Q) (columns pos) in
    let first := first_label (prows pos) in
    let last := last_label (prows pos) in
    (prows pos = [] -> vanhove_disp pos lagtime mpp = Raise IndexError) /\
    (prows pos <> [] -> ~ List.NoDup (labels (prows pos)) ->
     vanhove_disp pos lagtime mpp = Raise ReindexError) /\
    (prows pos <> [] -> List.NoDup (labels (prows pos)) ->
     ((last < first)%Z -> vanhove_disp pos lagtime mpp = Raise ValueError) /\
     ((first <= last)%Z -> (last < lagtime)%Z ->
      vanhove_disp pos lagtime mpp = Raise (NameError "frame")) /\
     ((first <= last)%Z -> (lagtime <= last)%Z ->
      exists dense,
        densify fill (prows pos) = Ok dense /\
        vanhove_disp pos lagtime mpp
        = Ok (map (fun f => (f, map (cscale mpp)
                                 (zip_with csub (at_label fill dense f)
                                                (at_label fill dense (f - lagtime)))))
                  (arange first (1 + last))))).
Proof. exact vanhove_disp_cases. Qed.

Lemma vanhove_disp_outcome_witness :
  vanhove_disp early 11 1 = Raise (NameError "frame") /\
  exists d, vanhove_disp early 10 1 = Ok d /\
            lookup_label 10 d = Some [Some (1 * (10 - 0))] /\
            lookup_label 9 d = Some [None].
Proof.
  destruct (vanhove_disp_outcome early 11 1) as (_ & _ & H).
  destruct (vanhove_disp_outcome early 10 1) as (_ & _ & H').
  assert (prows early <> []) as Hne by (vm_compute; discriminate).
  assert (List.NoDup (labels (prows early))) as Hnd
    by (apply unique_labels_NoDup; vm_compute; reflexivity).
  destruct (H Hne Hnd) as (_ & Hname & _).
  destruct (H' Hne Hnd) as (_ & _ & Hok).
  split.
  - apply Hname; vm_compute; [discriminate | reflexivity].
  - destruct Hok as (dense & Hd & E);
      [vm_compute; discriminate | vm_compute; discriminate |].
    eexists. split; [exact E|].
    vm_compute in Hd. injection Hd as <-. split; reflexivity.
Defined.

(** X21: whenever [vanhove]'s positions step returns for a lag longer than
    the span of the frame labels, last minus first, every displacement it
    returns is missing: the guard lets such a lag through as long as it does
    not exceed the last label itself. *)
Theorem vanhove_disp_beyond_span :
  forall (pos : positions) (lagtime : Z) (mpp : Q) d,
    vanhove_disp pos lagtime mpp = Ok d ->
    (last_label (prows pos) - first_label (prows pos) < lagtime)%Z ->
    Forall (fun r => Forall (fun c => c = None) (snd r)) d.
Proof.
  intros pos lagtime mpp d H Hlag.
  destruct (vanhove_disp_cases pos lagtime mpp) as (H1 & H2 & H3).
  destruct (prows pos) as [|r0 rows] eqn:Ep.
  { rewrite H1 in H by reflexivity. discriminate. }
  rewrite <- Ep in *.
  assert (prows pos <> []) as Hne by (rewrite Ep; discriminate).
  destruct (NoDup_dec_Z (labels (prows pos))) as [Hnd|Hnd];
    [|rewrite (H2 Hne Hnd) in H; discriminate].
  destruct (H3 Hne Hnd) as (Hv & Hn & Hok).
  destruct (Z_lt_le_dec (last_label (prows pos)) (first_label (prows pos))) as [Hlt|Hle];
    [rewrite (Hv Hlt) in H; discriminate|].
  destruct (Z_lt_le_dec (last_label (prows pos)) lagtime) as [Hl|Hl];
    [rewrite (Hn Hle Hl) in H; discriminate|].
  destruct (Hok Hle Hl) as (dense & Hd & E). rewrite E in H. injection H as <-.
  apply List.Forall_forall. intros r Hr. apply in_map_iff in Hr.
  destruct Hr as (f & <- & Hf). cbn [snd]. apply in_arange in Hf.
  pose proof (densify_labels _ _ _ Hd) as Hlab.
  change (labels dense
          = arange (first_label (prows pos)) (1 + last_label (prows pos))) in Hlab.
  assert (at_label (map (fun _ : Z => @None Q) (columns pos)) dense (f - lagtime)
          = map (fun _ : Z => @None Q) (columns pos)) as ->.
  { unfold at_label. rewrite lookup_label_notin; [reflexivity|].
    rewrite Hlab, in_arange. lia. }
  apply displaced_nowhere.
Qed.

Lemma vanhove_disp_beyond_span_witness :
  exists d, vanhove_disp late 50 1 = Ok d /\
            Forall (fun r => Forall (fun c => c = None) (snd r)) d.
Proof.
  destruct (vanhove_disp late 50 1) as [d|e] eqn:E; [|vm_compute in E; discriminate].
  exists d. split; [reflexivity|].
  apply (vanhove_disp_beyond_span late 50 1 d E). vm_compute. reflexivity.
Defined.

End VanHove.

(** * Further properties: [tp_corr] over several lags *)

Section TwoPointLags.
Local Open Scope R_scope.

Lemma _tp_corr_rows_idem traj lf :
  snd (_tp_corr (set_index_frame traj) lf) = snd (_tp_corr traj lf).
Proof. unfold _tp_corr. cbn [snd]. now rewrite set_index_frame_idem. Qed.

Lemma mapM_ext_all {A B} (F G : A -> result B) l :
  (forall a, F a = G a) -> mapM F l = mapM G l.
Proof.
  intros H. induction l as [|a l IH]; [reflexivity|].
  cbn [mapM]. now rewrite H, IH.
Qed.

Lemma mapM_app {A B} (F : A -> result B) l1 l2 :
  mapM F (l1 ++ l2)
  = let* a := mapM F l1 in let* b := mapM F l2 in Ok (a ++ b).
Proof.
  induction l1 as [|a l1 IH]; cbn [app mapM rbind].
  - destruct (mapM F l2); reflexivity.
  - destruct (F a) as [b|e]; cbn [rbind]; [|reflexivity].
    rewrite IH. destruct (mapM F l1) as [bs|e]; cbn [rbind]; [|reflexivity].
    destruct (mapM F l2); reflexivity.
Qed.

Lemma mapM_length {A B} (F : A -> result B) l out :
  mapM F l = Ok out -> length out = length l.
Proof.
  revert out. induction l as [|a l IH]; intros out; cbn [mapM rbind].
  - now intros [= <-].
  - destruct (F a) as [b|e]; cbn [rbind]; [|discriminate].
    destruct (mapM F l) as [bs|e]; cbn [rbind]; [|discriminate].
    intros [= <-]. cbn [length]. f_equal. now apply IH.
Qed.

(** The loop of [tp_corr] runs every lag on the same records: the table a
    call leaves differs from the caller's in its index only. *)
Lemma tp_corr_loop_rows traj lagframes :
  snd (tp_corr_loop traj lagframes)
  = mapM (fun lf => snd (_tp_corr traj lf)) lagframes.
Proof.
  revert traj. induction lagframes as [|lf rest IH]; intros traj; [reflexivity|].
  cbn [tp_corr_loop mapM]. pose proof (_tp_corr_table traj lf) as Ht.
  destruct (_tp_corr traj lf) as [t1 [d|e]]; cbn [fst snd] in *; subst t1;
    cbn [rbind]; [|reflexivity].
  specialize (IH (set_index_frame traj)).
  rewrite (mapM_ext_all _ (fun lf => snd (_tp_corr traj lf)) rest
             (_tp_corr_rows_idem traj)) in IH.
  destruct (tp_corr_loop (set_index_frame traj) rest) as [t' [ds|e]];
    cbn [snd] in IH; rewrite <- IH; reflexivity.
Qed.

Lemma tp_corr_rows traj mpp fps lagframes :
  snd (tp_corr traj mpp fps lagframes)
  = match mapM (fun lf => snd (_tp_corr traj lf)) lagframes with
    | Raise e => Raise e
    | Ok [] => Raise ConcatError
    | Ok ds => Ok (scale_rows mpp mpp mpp (map snd (concat ds)))
    end.
Proof.
  rewrite <- tp_corr_loop_rows. unfold tp_corr.
  destruct (tp_corr_loop traj lagframes) as [t' [[|d ds]|e]]; reflexivity.
Qed.

(** X22: [tp_corr] without a lag raises the error of an empty
    concatenation.  Over the lags [l1] followed by [l2], both non-empty, it
    raises what it raises over [l1], else what it raises over [l2], and else
    returns the rows it returns over [l1] followed by those over [l2].  The
    rows do not depend on [fps]. *)
Theorem tp_corr_lags_compose :
  forall traj mpp fps l1 l2,
    l1 <> [] -> l2 <> [] ->
    snd (tp_corr traj mpp fps []) = Raise ConcatError /\
    (forall fps', snd (tp_corr traj mpp fps' (l1 ++ l2))
                  = snd (tp_corr traj mpp fps (l1 ++ l2))) /\
    snd (tp_corr traj mpp fps (l1 ++ l2))
    = match snd (tp_corr traj mpp fps l1) with
      | Raise e => Raise e
      | Ok r1 =>
          match snd (tp_corr traj mpp fps l2) with
          | Raise e => Raise e
          | Ok r2 => Ok (r1 ++ r2)
          end
      end.
Proof.
  intros traj mpp fps l1 l2 H1 H2. split; [reflexivity|]. split; [reflexivity|].
  rewrite !tp_corr_rows, mapM_app.
  destruct (mapM (fun lf => snd (_tp_corr traj lf)) l1) as [a|e] eqn:E1;
    cbn [rbind]; [|reflexivity].
  pose proof (mapM_length _ _ _ E1) as L1.
  destruct a as [|a0 a]; [destruct l1; [congruence | discriminate]|].
  destruct (mapM (fun lf => snd (_tp_corr traj lf)) l2) as [b|e] eqn:E2;
    cbn [rbind]; [|reflexivity].
  pose proof (mapM_length _ _ _ E2) as L2.
  destruct b as [|b0 b]; [destruct l2; [congruence | discriminate]|].
  cbn [app]. f_equal. unfold scale_rows.
  rewrite <- map_app, <- map_app. f_equal. f_equal.
  change (a0 :: a ++ b0 :: b) with ((a0 :: a) ++ (b0 :: b)).
  now rewrite concat_app.
Qed.

Lemma tp_corr_lags_compose_witness :
  snd (tp_corr abreast 1 1 ([1%Z] ++ [1%Z]))
  = match snd (tp_corr abreast 1 1 [1%Z]) with
    | Raise e => Raise e
    | Ok r1 =>
        match snd (tp_corr abreast 1 1 [1%Z]) with
        | Raise e => Raise e
        | Ok r2 => Ok (r1 ++ r2)
        end
    end.
Proof.
  destruct (tp_corr_lags_compose abreast 1 1 [1%Z] [1%Z]) as (_ & _ & H);
    [discriminate | discriminate | exact H].
Defined.

End TwoPointLags.

(** * Further properties: displacements between two frames *)

Section FrameCorrelations.
Local Open Scope R_scope.

Lemma sqrt_sum_squares_pos (x y : R) :
  0 < x -> sqrt (x ^ 2 + y ^ 2) = x * sqrt (1 + (y / x)²).
Proof.
  intros Hx.
  replace (x ^ 2 + y ^ 2) with (x² * (1 + (y / x)²)) by (unfold Rsqr; field; lra).
  rewrite sqrt_mult.
  - now rewrite sqrt_Rsqr by lra.
  - apply Rle_0_sqr.
  - pose proof (Rle_0_sqr (y / x)). lra.
Qed.

Lemma sqrt_one_plus_sqr_pos (t : R) : 0 < sqrt (1 + t²).
Proof. apply sqrt_lt_R0. pose proof (Rle_0_sqr t). lra. Qed.

(** [np.arctan2] and the length give the polar coordinates of a point. *)
Lemma arctan2_polar (y x : R) :
  sqrt (x ^ 2 + y ^ 2) * cos (arctan2 y x) = x /\
  sqrt (x ^ 2 + y ^ 2) * sin (arctan2 y x) = y.
Proof.
  unfold arctan2. destruct (Rlt_dec 0 x) as [Hx|Hx].
  - rewrite sqrt_sum_squares_pos, cos_atan, sin_atan by assumption.
    pose proof (sqrt_one_plus_sqr_pos (y / x)).
    split; field; lra.
  - destruct (Rlt_dec x 0) as [Hx'|Hx'].
    + replace (x ^ 2 + y ^ 2) with ((- x) ^ 2 + (- y) ^ 2) by ring.
      rewrite sqrt_sum_squares_pos by lra.
      replace (- y / - x) with (y / x) by (field; lra).
      pose proof (sqrt_one_plus_sqr_pos (y / x)).
      destruct (Rle_dec 0 y).
      * rewrite neg_cos, neg_sin, cos_atan, sin_atan. split; field; lra.
      * rewrite cos_minus, sin_minus, cos_PI, sin_PI, cos_atan, sin_atan.
        split; field; lra.
    + assert (x = 0) as -> by lra.
      replace (0 ^ 2 + y ^ 2) with (y ^ 2) by ring.
      destruct (Rlt_dec 0 y) as [Hy|Hy].
      * rewrite sqrt_pow2 by lra. rewrite cos_PI2, sin_PI2. split; ring.
      * destruct (Rlt_dec y 0) as [Hy'|Hy'].
        -- replace (y ^ 2) with ((- y) ^ 2) by ring. rewrite sqrt_pow2 by lra.
           rewrite cos_neg, sin_neg, cos_PI2, sin_PI2. split; ring.
        -- assert (y = 0) as -> by lra.
           replace (0 ^ 2) with 0 by ring. rewrite sqrt_0. split; ring.
Qed.

Lemma arctan2_range (y x : R) : - PI < arctan2 y x <= PI.
Proof.
  pose proof PI_RGT_0 as Hpi. unfold arctan2.
  destruct (Rlt_dec 0 x) as [Hx|Hx].
  - pose proof (atan_bound (y / x)). lra.
  - destruct (Rlt_dec x 0) as [Hx'|Hx'].
    + pose proof (atan_bound (y / x)) as Hb. destruct (Rle_dec 0 y) as [Hy|Hy].
      * assert (atan (y / x) <= 0).
        { destruct (Req_dec y 0) as [->|Hne].
          - replace (0 / x) with 0 by (field; lra). rewrite atan_0. lra.
          - rewrite <- atan_0. left. apply atan_increasing.
            apply Rmult_lt_reg_r with (- x); [lra|].
            replace (y / x * - x) with (- y) by (field; lra). lra. }
        lra.
      * assert (0 < atan (y / x)).
        { rewrite <- atan_0. apply atan_increasing.
          apply Rmult_lt_reg_r with (- x); [lra|].
          replace (y / x * - x) with (- y) by (field; lra). lra. }
        lra.
    + destruct (Rlt_dec 0 y); [lra|]. destruct (Rlt_dec y 0); lra.
Qed.

Lemma related_row_derived r : derived (related_row r).
Proof.
  destruct r as [[p [x0 y0]] [xb yb]]. unfold derived, related_row.
  cbn [fst snd j_dx j_dy j_dr j_direction j_x j_y j_x_b j_y_b].
  repeat split; reflexivity.
Qed.

Lemma relate_frames_derived t frame1 frame2 row :
  In row (relate_frames t frame1 frame2) -> derived row.
Proof.
  unfold relate_frames. intros H. apply in_map_iff in H.
  destruct H as (r & <- & _). apply related_row_derived.
Qed.

Lemma in_upper_triangle {A} (l : list A) a b :
  In (a, b) (upper_triangle l) -> In a l /\ In b l.
Proof.
  induction l as [|c l IH]; cbn [upper_triangle]; [intros []|].
  intros H. apply in_app_or in H. destruct H as [H|H].
  - apply in_map_iff in H. destruct H as (b' & [= <- <-] & Hb).
    split; [now left | now right].
  - destruct (IH H). split; now right.
Qed.

Lemma length_upper_triangle {A} (l : list A) :
  (2 * length (upper_triangle l) = length l * (length l - 1))%nat.
Proof.
  induction l as [|c l IH]; [reflexivity|].
  cbn [upper_triangle length]. rewrite length_app, length_map. nia.
Qed.

(** The polar form of a row with a displacement. *)
Lemma derived_polar row dx dy :
  derived row -> j_dx row = Some dx -> j_dy row = Some dy ->
  exists dr dir,
    j_dr row = Some dr /\ j_direction row = Some dir /\
    0 <= dr /\ - PI < dir <= PI /\
    dr * cos dir = dx /\ dr * sin dir = dy /\ dr * dr = dx * dx + dy * dy.
Proof.
  intros (_ & _ & Hr & Hd) Hx Hy. rewrite Hx, Hy in Hr, Hd.
  cbn in Hr, Hd.
  exists (sqrt (dx * (dx * 1) + dy * (dy * 1))), (arctan2 dy dx).
  split; [exact Hr|]. split; [exact Hd|].
  replace (dx * (dx * 1) + dy * (dy * 1)) with (dx ^ 2 + dy ^ 2) by ring.
  destruct (arctan2_polar dy dx) as (Hc & Hs).
  split; [apply sqrt_pos|]. split; [apply arctan2_range|].
  split; [exact Hc|]. split; [exact Hs|].
  rewrite sqrt_sqrt; [ring|]. nra.
Qed.

End FrameCorrelations.

Section FrameRows.
Local Open Scope R_scope.

Lemma in_join_order a b r : In r (join_order a b) <-> In r a.
Proof.
  unfold join_order. destruct b as [|rb b]; [reflexivity|].
  destruct (unique_labels (map probe a) && unique_labels (map probe (rb :: b)));
    [reflexivity|].
  rewrite in_flat_map. split.
  - intros (p & _ & Hr). apply filter_In in Hr. tauto.
  - intros Hr. exists (probe r). split.
    + apply in_sorted_unique. now apply in_map.
    + apply filter_In. split; [assumption | apply Z.eqb_refl].
Qed.

Lemma join_order_permutation a b : Permutation (join_order a b) a.
Proof.
  unfold join_order. destruct b as [|rb b]; [reflexivity|].
  destruct (unique_labels (map probe a) && unique_labels (map probe (rb :: b)));
    [reflexivity|].
  apply group_by_key_permutation; [apply NoDup_sorted_unique|].
  intros r Hr. apply in_sorted_unique. now apply in_map.
Qed.

Lemma joined_in b ra r :
  In r (joined b ra) ->
  fst r = (probe ra, (x ra, y ra)) /\
  ((snd r = (None, None) /\ forall rb, In rb b -> probe rb <> probe ra) \/
   (exists rb, In rb b /\ probe rb = probe ra /\
               snd r = (Some (x rb), Some (y rb)))).
Proof.
  unfold joined. intros Hr.
  destruct (List.filter (fun rb => (probe rb =? probe ra)%Z) b) as [|m ms] eqn:E.
  - destruct Hr as [<-|[]]. split; [reflexivity|]. left. split; [reflexivity|].
    intros rb Hb Hp.
    assert (In rb (List.filter (fun rb => (probe rb =? probe ra)%Z) b)) as Hin
      by (apply filter_In; split; [assumption | now apply Z.eqb_eq]).
    rewrite E in Hin. destruct Hin.
  - apply in_map_iff in Hr. destruct Hr as (rb & <- & Hb).
    split; [reflexivity|]. right. exists rb.
    rewrite <- E in Hb. apply filter_In in Hb. destruct Hb as (Hb & Hp).
    apply Z.eqb_eq in Hp. now repeat split.
Qed.

Lemma join_probe_in a b r :
  In r (join_probe a b) ->
  exists ra,
    In ra a /\ fst r = (probe ra, (x ra, y ra)) /\
    ((snd r = (None, None) /\ forall rb, In rb b -> probe rb <> probe ra) \/
     (exists rb, In rb b /\ probe rb = probe ra /\
                 snd r = (Some (x rb), Some (y rb)))).
Proof.
  unfold join_probe. intros H. apply in_flat_map in H.
  destruct H as (ra & Ha & Hr). exists ra.
  split; [now apply (in_join_order a b)|]. now apply joined_in.
Qed.

Lemma in_in_frame t f r : In r (in_frame t f) <-> In r t /\ frame r = f.
Proof. unfold in_frame. rewrite filter_In, Z.eqb_eq. reflexivity. Qed.

(** X23: every row of [relate_frames] stands for a record of the first
    frame, under its probe label and with its position.  Where the second
    frame has no record of the probe, the displacement, its length and its
    direction are all missing.  Otherwise the row holds the displacement to
    such a record, and the length [dr] and the angle [direction] are its
    polar coordinates: [dr] is not negative, [direction] lies in
    (-pi, pi], and [dr] times the cosine and the sine of [direction] give
    [dx] and [dy] back. *)
Theorem relate_frames_polar :
  forall t frame1 frame2 row,
    In row (relate_frames t frame1 frame2) ->
    (exists ra, In ra t /\ frame ra = frame1 /\
                j_probe row = probe ra /\ j_x row = x ra /\ j_y row = y ra) /\
    ((j_x_b row = None /\ j_y_b row = None /\
      j_dx row = None /\ j_dy row = None /\
      j_dr row = None /\ j_direction row = None /\
      forall rb, In rb t -> frame rb = frame2 -> probe rb <> j_probe row) \/
     (exists rb dr dir,
        In rb t /\ frame rb = frame2 /\ probe rb = j_probe row /\
        j_x_b row = Some (x rb) /\ j_y_b row = Some (y rb) /\
        j_dx row = Some (x rb - j_x row) /\ j_dy row = Some (y rb - j_y row) /\
        j_dr row = Some dr /\ j_direction row = Some dir /\
        0 <= dr /\ - PI < dir <= PI /\
        dr * cos dir = x rb - j_x row /\ dr * sin dir = y rb - j_y row)).
Proof.
  intros t frame1 frame2 row H.
  pose proof (relate_frames_derived _ _ _ _ H) as Hder.
  unfold relate_frames in H. apply in_map_iff in H. destruct H as (r & <- & Hr).
  apply join_probe_in in Hr. destruct Hr as (ra & Ha & Hfst & Hsnd).
  fold (in_frame t frame1) in Ha. fold (in_frame t frame2) in Hsnd.
  apply in_in_frame in Ha. destruct Ha as (Ha & Hfa).
  destruct r as [[p [x0 y0]] [xb yb]]. cbn [fst snd] in Hfst, Hsnd.
  injection Hfst as -> -> ->. split.
  - exists ra. now repeat split.
  - destruct Hsnd as [([= -> ->] & Hno)|(rb & Hb & Hp & [= -> ->])].
    + left. cbn. repeat split.
      intros rb Hb Hf. apply Hno. now apply in_in_frame.
    + right. apply in_in_frame in Hb. destruct Hb as (Hb & Hfb).
      destruct (derived_polar _ (x rb - x ra) (y rb - y ra) Hder eq_refl eq_refl)
        as (dr & dir & Hdr & Hdir & H0 & Hrange & Hc & Hs & _).
      exists rb, dr, dir. cbn in Hdr, Hdir |- *. now repeat split.
Qed.

Lemma relate_frames_polar_witness :
  exists row dr dir,
    In row (relate_frames abreast 0 1) /\
    j_dx row = Some (1 - 0) /\ j_dy row = Some (0 - 0) /\
    j_dr row = Some dr /\ j_direction row = Some dir /\
    dr * cos dir = 1 - 0 /\ dr * sin dir = 0 - 0.
Proof.
  set (row := related_row (1%Z, (0, 0), (Some 1, Some 0))).
  assert (In row (relate_frames abreast 0 1)) as Hin by (left; reflexivity).
  destruct (relate_frames_polar abreast 0 1 row Hin)
    as (_ & [(Hx & _)|(rb & dr & dir & _ & _ & _ & Hxb & Hyb & _ & _ & Hdr & Hdir & _ & _ & Hc & Hs)]).
  - discriminate Hx.
  - cbn in Hxb, Hyb, Hc, Hs. injection Hxb as Hxb. injection Hyb as Hyb.
    rewrite <- Hxb in Hc. rewrite <- Hyb in Hs.
    exists row, dr, dir. repeat split; assumption.
Defined.

Lemma filter_at_most_one (b : table R) p :
  List.NoDup (map probe b) ->
  (length (List.filter (fun rb => (probe rb =? p)%Z) b) <= 1)%nat.
Proof.
  induction b as [|r b IH]; cbn [map List.filter length]; [lia|].
  intros Hnd. inversion Hnd as [|? ? Hn Hnd']; subst.
  destruct (Z.eqb_spec (probe r) p) as [E|E]; [|now apply IH].
  cbn [length].
  destruct (List.filter (fun rb => (probe rb =? p)%Z) b) as [|m ms] eqn:Ef; [cbn; lia|].
  exfalso. apply Hn.
  assert (In m (List.filter (fun rb => (probe rb =? p)%Z) b)) as Hm
    by (rewrite Ef; now left).
  apply filter_In in Hm. destruct Hm as (Hm & Hp). apply Z.eqb_eq in Hp.
  rewrite E, <- Hp. now apply in_map.
Qed.

Lemma length_joined (b : table R) l :
  (length l <= length (flat_map (joined b) l))%nat.
Proof.
  induction l as [|ra l IH]; [cbn; lia|].
  change (flat_map (joined b) (ra :: l))
    with (joined b ra ++ flat_map (joined b) l).
  rewrite length_app. cbn [length].
  assert (1 <= length (joined b ra))%nat as H1.
  { unfold joined.
    destruct (List.filter (fun rb => (probe rb =? probe ra)%Z) b) as [|m ms];
      cbn [map length]; lia. }
  unfold rcell in *. lia.
Qed.

Lemma joined_keys (b : table R) l :
  List.NoDup (map probe b) ->
  map fst (flat_map (joined b) l) = map (fun ra => (probe ra, (x ra, y ra))) l.
Proof.
  intros Hnd. induction l as [|ra l IH]; [reflexivity|].
  change (flat_map (joined b) (ra :: l))
    with (joined b ra ++ flat_map (joined b) l).
  rewrite map_app. unfold rcell in *. rewrite IH. clear IH.
  pose proof (filter_at_most_one b (probe ra) Hnd) as Hle. unfold joined.
  destruct (List.filter (fun rb => (probe rb =? probe ra)%Z) b)
    as [|m [|m' ms]]; cbn [length] in Hle; [reflexivity | reflexivity | lia].
Qed.

Lemma flat_map_flat_map {A B C} (f : B -> list C) (g : A -> list B) l :
  flat_map f (flat_map g l) = flat_map (fun a => flat_map f (g a)) l.
Proof.
  induction l as [|a l IH]; [reflexivity|].
  cbn [flat_map]. now rewrite flat_map_app, IH.
Qed.

Lemma related_key r :
  (j_probe (related_row r), j_x (related_row r), j_y (related_row r))
  = (fst (fst r), fst (snd (fst r)), snd (snd (fst r))).
Proof. destruct r as [[p [x0 y0]] [xb yb]]. reflexivity. Qed.

(** X24: [relate_frames] returns no row when the first frame has no
    record, and never fewer rows than the first frame has records.  When no
    probe has two records in the second frame, it returns exactly one row
    per record of the first frame, with the probe label and the position of
    the record.  These rows are in the order of the table when the second
    frame has no record, and when no probe has two records in the first
    frame either; in every other case they are in ascending order of the
    probe label. *)
Theorem relate_frames_rows :
  forall t frame1 frame2,
    let a := in_frame t frame1 in
    let b := in_frame t frame2 in
    let j := relate_frames t frame1 frame2 in
    (a = [] -> j = []) /\
    (length a <= length j)%nat /\
    (List.NoDup (map probe b) ->
     Permutation (map (fun row => (j_probe row, j_x row, j_y row)) j)
                 (map (fun r => (probe r, x r, y r)) a)) /\
    (b = [] \/ (List.NoDup (map probe a) /\ List.NoDup (map probe b)) ->
     map (fun row => (j_probe row, j_x row, j_y row)) j
     = map (fun r => (probe r, x r, y r)) a) /\
    (b <> [] -> ~ (List.NoDup (map probe a) /\ List.NoDup (map probe b)) ->
     StronglySorted Z.le (map j_probe j)).
Proof.
  intros t frame1 frame2 a b j.
  assert (j = map related_row (join_probe a b)) as Ej by reflexivity.
  clearbody j a b. subst j.
  assert (forall l, map (fun row => (j_probe row, j_x row, j_y row))
                        (map related_row (flat_map (joined b) l))
                    = map (fun k : Z * (R * R) => (fst k, fst (snd k), snd (snd k)))
                          (map fst (flat_map (joined b) l))) as Hkey.
  { intros l. rewrite !map_map. apply map_ext. intros r. apply related_key. }
  split; [|split; [|split; [|split]]].
  - intros ->. unfold join_probe, join_order. destruct b as [|rb b']; [reflexivity|].
    change (unique_labels (map probe [])) with true. cbn [andb].
    destruct (unique_labels (map probe (rb :: b'))); reflexivity.
  - rewrite length_map. unfold join_probe.
    rewrite <- (Permutation_length (join_order_permutation a b)).
    apply length_joined.
  - intros Hnd. unfold join_probe. rewrite Hkey, (joined_keys b _ Hnd), map_map.
    cbn [fst snd]. apply Permutation_map, join_order_permutation.
  - intros Hkeep.
    assert (join_order a b = a) as E.
    { unfold join_order. destruct b as [|rb b'] eqn:Eb; [reflexivity|].
      destruct Hkeep as [Hb|[Ha Hb]]; [discriminate|].
      apply unique_labels_NoDup in Ha, Hb. now rewrite Ha, Hb. }
    assert (List.NoDup (map probe b)) as Hnd.
    { destruct Hkeep as [->|[_ Hb]]; [constructor | exact Hb]. }
    unfold join_probe. rewrite E, Hkey, (joined_keys b _ Hnd), map_map.
    reflexivity.
  - intros Hb Hdup. unfold join_probe.
    assert (join_order a b
            = flat_map (fun p => List.filter (fun r => (probe r =? p)%Z) a)
                       (sorted_unique (map probe a))) as ->.
    { unfold join_order. destruct b as [|rb b'] eqn:Eb; [congruence|].
      destruct (unique_labels (map probe a)) eqn:Ua;
        destruct (unique_labels (map probe (rb :: b'))) eqn:Ub;
        try reflexivity.
      exfalso. apply Hdup. split; now apply unique_labels_NoDup. }
    rewrite flat_map_flat_map, map_map.
    apply (sorted_groups (fun r => j_probe (related_row r))
                         (fun p => flat_map (joined b)
                                     (List.filter (fun r => (probe r =? p)%Z) a))).
    + apply sorted_unique_sorted.
    + intros p r Hr. apply in_flat_map in Hr. destruct Hr as (ra & Ha & Hr).
      apply filter_In in Ha. destruct Ha as (_ & Hp). apply Z.eqb_eq in Hp.
      apply joined_in in Hr. destruct Hr as (Hfst & _).
      destruct r as [[q [x0 y0]] [xb yb]]. cbn in Hfst |- *. congruence.
Qed.

Lemma relate_frames_rows_witness :
  map j_probe (relate_frames revisit 0 1) = [1; 2; 2]%Z /\
  map probe (in_frame revisit 0) = [2; 1; 2]%Z /\
  Permutation (map (fun row => (j_probe row, j_x row, j_y row))
                   (relate_frames revisit 0 1))
              (map (fun r => (probe r, x r, y r)) (in_frame revisit 0)) /\
  StronglySorted Z.le (map j_probe (relate_frames revisit 0 1)).
Proof.
  pose proof (relate_frames_rows revisit 0 1) as H. cbv zeta in H.
  destruct H as (_ & _ & Hperm & _ & Hsorted).
  split; [reflexivity|]. split; [reflexivity|]. split.
  - apply Hperm. apply unique_labels_NoDup. vm_compute. reflexivity.
  - apply Hsorted; [discriminate|].
    intros [Ha _]. apply unique_labels_NoDup in Ha. vm_compute in Ha. discriminate.
Defined.

Lemma pair_dot_product a b :
  derived a -> derived b ->
  rmul (cosine a b) (option_map Rabs (rmul (j_dr a) (j_dr b))) = dot_product a b.
Proof.
  intros Ha Hb.
  destruct (j_dx a) as [dxa|] eqn:Exa, (j_dy a) as [dya|] eqn:Eya,
           (j_dx b) as [dxb|] eqn:Exb, (j_dy b) as [dyb|] eqn:Eyb;
    try (destruct Ha as (_ & _ & Hra & Hda), Hb as (_ & _ & Hrb & Hdb);
         unfold cosine, dot_product;
         rewrite Hra, Hda, Hrb, Hdb, Exa, Eya, Exb, Eyb; reflexivity).
  destruct (derived_polar a dxa dya Ha Exa Eya)
    as (ra & da & Hra & Hda & H0a & _ & Hca & Hsa & _).
  destruct (derived_polar b dxb dyb Hb Exb Eyb)
    as (rb & db & Hrb & Hdb & H0b & _ & Hcb & Hsb & _).
  unfold cosine, dot_product. rewrite Hra, Hda, Hrb, Hdb, Exa, Eya, Exb, Eyb.
  cbn. f_equal. rewrite cos_minus, Rabs_right by nra.
  rewrite <- Hca, <- Hsa, <- Hcb, <- Hsb. ring.
Qed.

(** X25: the column [dot_product] of [velocity_corr] holds, pair by pair
    of rows of [relate_frames], the dot product of the two displacements,
    [dx_i * dx_j + dy_i * dy_j]; it is missing exactly when one of the two
    displacements is. *)
Theorem velocity_corr_dot_product :
  forall t frame1 frame2,
    map vel_dot_product (velocity_corr t frame1 frame2)
    = map (fun p => dot_product (fst p) (snd p))
          (upper_triangle (relate_frames t frame1 frame2)).
Proof.
  intros t frame1 frame2. unfold velocity_corr. cbv zeta. rewrite map_map.
  apply map_ext_in. intros [a b] Hin. cbn [fst snd vel_dot_product].
  apply in_upper_triangle in Hin. destruct Hin as (Ha & Hb).
  apply pair_dot_product; eapply relate_frames_derived; eassumption.
Qed.

Lemma Forall2_map_self {A B} (P : B -> A -> Prop) (f : A -> B) l :
  (forall a, In a l -> P (f a) a) -> Forall2 P (map f l) l.
Proof.
  induction l as [|a l IH]; intros H; cbn [map]; constructor.
  - apply H. now left.
  - apply IH. intros a' Ha'. apply H. now right.
Qed.

(** X26: [direction_corr] and [velocity_corr] return one row per
    unordered pair of rows of [relate_frames], n (n - 1) / 2 rows for n, with
    the same separations [r], none negative.  A cosine lies between -1 and
    1, and is missing exactly when the dot product of the two displacements
    is; the cosine times the two step lengths is that dot product. *)
Theorem direction_corr_cosines :
  forall t frame1 frame2,
    let j := relate_frames t frame1 frame2 in
    (2 * length (direction_corr t frame1 frame2) = length j * (length j - 1))%nat /\
    map dir_r (direction_corr t frame1 frame2)
    = map vel_r (velocity_corr t frame1 frame2) /\
    Forall2 (fun d p =>
               0 <= dir_r d /\
               (forall c, dir_cos d = Some c -> -1 <= c <= 1) /\
               (dir_cos d = None <-> dot_product (fst p) (snd p) = None) /\
               rmul (dir_cos d) (rmul (j_dr (fst p)) (j_dr (snd p)))
               = dot_product (fst p) (snd p))
            (direction_corr t frame1 frame2) (upper_triangle j).
Proof.
  intros t frame1 frame2 j. unfold direction_corr, velocity_corr. cbv zeta.
  fold j. split; [|split].
  - rewrite length_map. apply length_upper_triangle.
  - rewrite !map_map. reflexivity.
  - apply Forall2_map_self. intros [a b] Hin. cbn [fst snd dir_r dir_cos].
    apply in_upper_triangle in Hin. destruct Hin as (Ha & Hb).
    apply relate_frames_derived in Ha, Hb.
    split; [apply sqrt_pos|].
    pose proof (pair_dot_product a b Ha Hb) as Hdot.
    split; [|split].
    + unfold cosine. intros c Hc.
      destruct (rsub (j_direction a) (j_direction b)) as [d|]; [|discriminate].
      injection Hc as <-. apply COS_bound.
    + rewrite <- Hdot. unfold cosine.
      destruct Ha as (_ & _ & Hra & Hda), Hb as (_ & _ & Hrb & Hdb).
      rewrite Hra, Hda, Hrb, Hdb.
      destruct (j_dx a), (j_dy a), (j_dx b), (j_dy b); cbn;
        split; intros H; congruence.
    + rewrite <- Hdot.
      destruct (cosine a b) as [c|]; [|reflexivity].
      destruct (j_dr a) as [ra|] eqn:Era; [|reflexivity].
      destruct (j_dr b) as [rb|] eqn:Erb; [|reflexivity].
      cbn. f_equal. rewrite Rabs_right; [reflexivity|].
      destruct Ha as (_ & _ & Hra & _), Hb as (_ & _ & Hrb & _).
      rewrite Era in Hra. rewrite Erb in Hrb.
      destruct (radd (rsquare (j_dx a)) (rsquare (j_dy a))); [|discriminate].
      destruct (radd (rsquare (j_dx b)) (rsquare (j_dy b))); [|discriminate].
      injection Hra as ->. injection Hrb as ->.
      apply Rle_ge. apply Rmult_le_pos; apply sqrt_pos.
Qed.

Lemma arctan2_origin : arctan2 0 0 = 0.
Proof.
  unfold arctan2. destruct (Rlt_dec 0 0); [lra|]. reflexivity.
Qed.

(** X27: a frame related to itself, when no probe has two records in it:
    every displacement, step length and direction of [relate_frames] is 0,
    every cosine of [direction_corr] is 1 and every dot product of
    [velocity_corr] is 0. *)
Theorem relate_frame_to_itself :
  forall t f,
    List.NoDup (map probe (in_frame t f)) ->
    Forall (fun row => j_dx row = Some 0 /\ j_dy row = Some 0 /\
                       j_dr row = Some 0 /\ j_direction row = Some 0)
           (relate_frames t f f) /\
    Forall (fun d => dir_cos d = Some 1) (direction_corr t f f) /\
    Forall (fun v => vel_dot_product v = Some 0) (velocity_corr t f f).
Proof.
  intros t f Hnd.
  assert (forall row, In row (relate_frames t f f) ->
                      j_dx row = Some 0 /\ j_dy row = Some 0 /\
                      j_dr row = Some 0 /\ j_direction row = Some 0) as Hrows.
  { intros row H. unfold relate_frames in H. apply in_map_iff in H.
    destruct H as (r & <- & Hr). apply join_probe_in in Hr.
    fold (in_frame t f) in Hr. destruct Hr as (ra & Ha & Hfst & Hsnd).
    destruct r as [[p [x0 y0]] [xb yb]]. cbn [fst snd] in Hfst, Hsnd.
    injection Hfst as -> -> ->.
    destruct Hsnd as [(_ & Hno)|(rb & Hb & Hp & [= -> ->])].
    - exfalso. now apply (Hno ra Ha).
    - assert (rb = ra) as -> by (apply (NoDup_map_inj probe _ rb ra Hnd); assumption).
      unfold related_row. cbn.
      replace (x ra - x ra) with 0 by ring. replace (y ra - y ra) with 0 by ring.
      replace (0 * (0 * 1) + 0 * (0 * 1)) with 0 by ring.
      now rewrite sqrt_0, arctan2_origin. }
  split; [now apply List.Forall_forall|]. split.
  - apply List.Forall_forall. intros d Hd. unfold direction_corr in Hd.
    apply in_map_iff in Hd. destruct Hd as ([a b] & <- & Hin).
    apply in_upper_triangle in Hin. destruct Hin as (Ha & Hb).
    destruct (Hrows a Ha) as (_ & _ & _ & Hda).
    destruct (Hrows b Hb) as (_ & _ & _ & Hdb).
    cbn [dir_cos fst snd]. unfold cosine. rewrite Hda, Hdb. cbn.
    f_equal. replace (0 - 0) with 0 by ring. apply cos_0.
  - apply List.Forall_forall. intros v Hv. unfold velocity_corr in Hv.
    apply in_map_iff in Hv. destruct Hv as ([a b] & <- & Hin).
    apply in_upper_triangle in Hin. destruct Hin as (Ha & Hb).
    destruct (Hrows a Ha) as (_ & _ & Hra & Hda).
    destruct (Hrows b Hb) as (_ & _ & Hrb & Hdb).
    cbn [vel_dot_product fst snd]. unfold cosine. rewrite Hda, Hdb, Hra, Hrb. cbn.
    f_equal. replace (0 * 0) with 0 by ring. rewrite Rabs_R0. ring.
Qed.

Lemma relate_frame_to_itself_witness :
  Forall (fun d => dir_cos d = Some 1) (direction_corr abreast 0 0) /\
  direction_corr abreast 0 0 <> [].
Proof.
  destruct (relate_frame_to_itself abreast 0) as (_ & H & _).
  - apply unique_labels_NoDup. vm_compute. reflexivity.
  - split; [exact H | discriminate].
Defined.

End FrameRows.
